(** * TreeAlign: the recursive descent engine of [CloneAlignTree]

    A shallow embedding of [src/treealign/clonealign_tree.py] and the
    properties of its traversal, followed by the naming of the internal
    nodes ([add_tree_node_name]) and by the code of
    [src/treealign/clonealign_visualization.py] that works on lists and
    dictionaries: the export of the tree, the rows kept by
    [subsample_genes], the tabs of [pack_into_tab_data], the categories of
    [order_expr_cells] and [generate_sankey].

    Conventions of the embedding.
    - Python [int]s are [Z]; Python [float]s are IEEE binary64 primitive
      floats, so a comparison such as [1 - none_freq >= min_record_freq]
      is evaluated exactly as the interpreter evaluates it.
    - A [dict] is a [gmap], a [set] is a [gset], a [list] is a [list].
    - A raised exception is [None] in [option State]: it propagates through
      every caller and aborts the traversal.
    - The methods inherited from the parent class [CloneAlign] (the input
      builders and the inference procedure) are not part of this module;
      they are the fields of the interface [CloneAlign] below.
    - Two fields of the state are ghost: [calls] counts the invocations of
      the inference procedure and [trace] logs, in program order, every
      entry into [assign_cells_to_clade] and every write to
      [clone_assign_dict].  The code of the engine never reads them;
      [calls] is handed to the inference procedure only so that its result
      may differ from one call to the next. *)

From Stdlib Require Import ZArith Floats.PrimFloat.
From stdpp Require Import gmap strings list fin_maps pretty.

Local Open Scope Z_scope.
#[local] Set Warnings "-register-all,-clear-no-such-hyp".

(** ** Data model *)

(** [Bio.Phylo.BaseTree.Clade]: a name and the ordered list of children.
    Names are strings: [add_tree_node_name] has named the internal nodes and
    leaves carry their cell identifier. *)
Inductive Clade : Type :=
  Node { name : string; clades : list Clade }.

(** [Clade.get_terminals]: the leaves below a clade, a leaf being its own
    only terminal. *)
Fixpoint get_terminals (c : Clade) : list Clade :=
  match clades c with
  | [] => [c]
  | _ => concat (map get_terminals (clades c))
  end.

(** What the engine reads of a [pandas.DataFrame]: row labels and column
    labels.  [shape] is their two lengths. *)
Record DataFrame : Type := mkDF {
  index : list string;
  columns : list string
}.

Definition shape0 (df : DataFrame) : Z := Z.of_nat (length (index df)).
Definition shape1 (df : DataFrame) : Z := Z.of_nat (length (columns df)).

(** The five tables handed to the inference procedure, [None] for Python's
    [None]. *)
Record Inputs : Type := mkInputs {
  in_cnv : option DataFrame;
  in_expr : option DataFrame;
  in_hscn : option DataFrame;
  in_snv_allele : option DataFrame;
  in_snv : option DataFrame
}.

(** The 4-tuple returned by [run_clonealign_pyro_repeat].  [clone_assign] is
    a float series in which NaN marks a cell without assignment: an entry is
    [None] for NaN and [Some j] for the integer [j].  [out_params] is the
    returned [params_dict]: looking up an absent key raises, and a present
    key may hold [None]. *)
Record Inference : Type := mkInference {
  none_freq : float;
  clone_assign : list (option Z);
  clone_assign_df : DataFrame;
  out_params : gmap string (option (list float))
}.

(** The methods of the parent class [CloneAlign] used by the engine.
    [make_columns_consistent] updates three frames in place; it returns
    them here.  The inference procedure is stochastic: its first argument
    is the number of inference calls made before this one. *)
Class CloneAlign : Type := {
  construct_total_copy_number_input :
    list (list string) -> list string -> option DataFrame * option DataFrame;
  construct_allele_specific_input :
    list (list string) -> list string ->
    option DataFrame * option DataFrame * option DataFrame;
  make_columns_consistent :
    option DataFrame -> option DataFrame -> option DataFrame ->
    option DataFrame * option DataFrame * option DataFrame;
  run_clonealign_pyro_repeat : nat -> Inputs -> option Inference
}.

(** The attributes of [self] that the traversal only reads. *)
Record Config : Type := mkConfig {
  tree : Clade;
  expr_df : option DataFrame;
  snv_df : option DataFrame;
  infer_s_score : bool;
  infer_b_allele : bool;
  record_input_output : bool;
  min_cell_count_expr : Z;
  min_cell_count_cnv : Z;
  min_gene_diff : Z;
  min_snp_diff : Z;
  level_cutoff : Z;
  min_proceed_freq : float;
  min_record_freq : float
}.

(** One entry of the diagnostic [params_dict]. *)
Record Snapshot : Type := mkSnapshot {
  snap_input : Inputs;
  snap_output : option Inference
}.

Inductive Event : Type :=
  | EvVisit (clade : string) (cells : list string) (level : Z)
  | EvAssign (cell : string) (clade : string).

(** The attributes of [self] that the traversal writes, and the two ghost
    fields. *)
Record State : Type := mkState {
  clone_assign_dict : gmap string string;
  pruned_clades : gset string;
  gene_type_score_dict : gmap string (list float);
  allele_assign_prob_dict : gmap string (list float);
  params_dict : gmap string Snapshot;
  calls : nat;
  trace : list Event
}.

(** ** Elementary state updates *)

(** [self.clone_assign_dict[cell] = nm] *)
Definition set_assign (cell nm : string) (st : State) : State :=
  mkState (<[cell := nm]> (clone_assign_dict st)) (pruned_clades st)
          (gene_type_score_dict st) (allele_assign_prob_dict st)
          (params_dict st) (calls st) (trace st ++ [EvAssign cell nm]).

(** [self.pruned_clades.add(nm)] *)
Definition prune (nm : string) (st : State) : State :=
  mkState (clone_assign_dict st) ({[nm]} ∪ pruned_clades st)
          (gene_type_score_dict st) (allele_assign_prob_dict st)
          (params_dict st) (calls st) (trace st).

(** [self.pruned_clades = set()] *)
Definition reset_pruned (st : State) : State :=
  mkState (clone_assign_dict st) ∅
          (gene_type_score_dict st) (allele_assign_prob_dict st)
          (params_dict st) (calls st) (trace st).

Definition set_gene_type_score_dict (d : gmap string (list float)) (st : State) : State :=
  mkState (clone_assign_dict st) (pruned_clades st)
          d (allele_assign_prob_dict st)
          (params_dict st) (calls st) (trace st).

Definition set_allele_assign_prob_dict (d : gmap string (list float)) (st : State) : State :=
  mkState (clone_assign_dict st) (pruned_clades st)
          (gene_type_score_dict st) d
          (params_dict st) (calls st) (trace st).

Definition set_params_dict (d : gmap string Snapshot) (st : State) : State :=
  mkState (clone_assign_dict st) (pruned_clades st)
          (gene_type_score_dict st) (allele_assign_prob_dict st)
          d (calls st) (trace st).

(** Ghost: one more inference call has been made. *)
Definition count_call (st : State) : State :=
  mkState (clone_assign_dict st) (pruned_clades st)
          (gene_type_score_dict st) (allele_assign_prob_dict st)
          (params_dict st) (S (calls st)) (trace st).

(** Ghost: entry into [assign_cells_to_clade]. *)
Definition enter (nm : string) (cells : list string) (level : Z) (st : State) : State :=
  mkState (clone_assign_dict st) (pruned_clades st)
          (gene_type_score_dict st) (allele_assign_prob_dict st)
          (params_dict st) (calls st) (trace st ++ [EvVisit nm cells level]).

(** ** Python control and indexing *)

(** [for k in range(i, i + n): s = body(k, s)], stopping at the first
    exception. *)
Fixpoint for_range {S : Type} (body : nat -> S -> option S) (i n : nat) (s : S) : option S :=
  match n with
  | O => Some s
  | Datatypes.S n' =>
      match body i s with
      | None => None
      | Some s' => for_range body (Datatypes.S i) n' s'
      end
  end.

(** [l[j]] on a Python list: a negative [j] counts from the end, and an
    index out of range raises. *)
Definition py_getitem {A : Type} (l : list A) (j : Z) : option A :=
  if 0 <=? j then l !! Z.to_nat j
  else if 0 <=? Z.of_nat (length l) + j then l !! Z.to_nat (Z.of_nat (length l) + j)
  else None.

(** ** The methods of [CloneAlignTree] *)

(** [record_clone_assign_to_default] *)
Definition record_clone_assign_to_default
    (expr_cells : list string) (root_clade : Clade) (st : State) : State :=
  foldl (fun st cell => set_assign cell (name root_clade) st) st expr_cells.

(** [record_clone_assign_to_dict]: the body of the loop, then the loop. *)
Definition record_clone_assign_at
    (expr_cells : list string) (clone_assign : list (option Z))
    (clean_clades : list Clade) (i : nat) (st : State) : option State :=
  a ← clone_assign !! i;
  match a with
  | None => Some st
  | Some j =>
      cl ← py_getitem clean_clades j;
      cell ← expr_cells !! i;
      Some (set_assign cell (name cl) st)
  end.

Definition record_clone_assign_to_dict
    (expr_cells : list string) (clone_assign : list (option Z))
    (clean_clades : list Clade) (st : State) : option State :=
  for_range (record_clone_assign_at expr_cells clone_assign clean_clades)
            0 (length expr_cells) st.

(** [record_param_to_dict]: returns the updated dictionary. *)
Definition record_param_at
    (indices : list string) (params : list float)
    (i : nat) (param_dict : gmap string (list float)) : option (gmap string (list float)) :=
  key ← indices !! i;
  v ← params !! i;
  Some (<[key := default [] (param_dict !! key) ++ [v]]> param_dict).

Definition record_param_to_dict
    (param_dict : gmap string (list float)) (indices : list string)
    (params : option (list float)) : option (gmap string (list float)) :=
  match params with
  | None => Some param_dict
  | Some ps => for_range (record_param_at indices ps) 0 (length ps) param_dict
  end.

(** [check_valid_df_input] *)
Definition valid_df (arg : option DataFrame) : bool :=
  match arg with
  | None => false
  | Some df => negb (shape0 df =? 0) && negb (shape1 df =? 0)
  end.

Definition check_valid_df_input (argv : list (option DataFrame)) : bool :=
  forallb valid_df argv.

(** ** The traversal *)

(** A recursive call of [assign_cells_to_clade] on a fixed clade, waiting for
    [expr_cells], [level] and the state. *)
Definition Visitor : Type := list string -> Z -> State -> option State.

Section Engine.

Context `{CloneAlign} (self : Config).

(** Lines 166-172: the loop that splits the children into pruned ones and
    clean ones, collecting the terminal names of the clean ones.  A child
    travels with its visitor. *)
Definition filter_child
    (acc : list (list string) * list (Clade * Visitor) * State)
    (k : Clade * Visitor) : list (list string) * list (Clade * Visitor) * State :=
  let '(terminals, clean, st) := acc in
  let current_terminals := map name (get_terminals (fst k)) in
  if Z.of_nat (length current_terminals) <? min_cell_count_cnv self
  then (terminals, clean, prune (name (fst k)) st)
  else (terminals ++ [current_terminals], clean ++ [k], st).

Definition filter_children (kids : list (Clade * Visitor)) (st : State)
    : list (list string) * list (Clade * Visitor) * State :=
  foldl filter_child ([], [], st) kids.

(** Lines 176-177: the commit of the bypass. *)
Definition bypass_commit (expr_cells : list string) (child : Clade) (st : State) : State :=
  foldl (fun st cell => set_assign cell (name child) st) st expr_cells.

(** Lines 193-220: the inputs of the visit, the two usability flags, and
    the two counts. *)
Record InputGate : Type := mkInputGate {
  has_total_copy_number_data : bool;
  has_allele_specific_data : bool;
  gene_count : Z;
  snp_count : Z;
  gate_inputs : Inputs
}.

Definition opt_shape0 (d : option DataFrame) : Z :=
  match d with Some df => shape0 df | None => 0 end.

Definition build_inputs (terminals : list (list string)) (expr_cells : list string) : InputGate :=
  let '(expr_input, clone_cnv_df) := construct_total_copy_number_input terminals expr_cells in
  let '(hscn_input, snv_allele_input, snv_input) :=
    construct_allele_specific_input terminals expr_cells in
  let '(expr_input, snv_allele_input, snv_input) :=
    make_columns_consistent expr_input snv_allele_input snv_input in
  let has_allele := check_valid_df_input [hscn_input; snv_allele_input; snv_input] in
  let has_total := check_valid_df_input [expr_input; clone_cnv_df] in
  let '(gene_count, clone_cnv_df, expr_input) :=
    if has_total then (opt_shape0 clone_cnv_df, clone_cnv_df, expr_input)
    else (0, None, None) in
  let '(snp_count, hscn_input, snv_allele_input, snv_input) :=
    if has_allele then (opt_shape0 hscn_input, hscn_input, snv_allele_input, snv_input)
    else (0, None, None, None) in
  mkInputGate has_total has_allele gene_count snp_count
         (mkInputs clone_cnv_df expr_input hscn_input snv_allele_input snv_input).

(** Lines 223-224, 230-231 and 292-293: every clean child is pruned. *)
Definition prune_all (clean_clades : list Clade) (st : State) : State :=
  foldl (fun st cl => prune (name cl) st) st clean_clades.

(** The two confidence tests, as the interpreter evaluates them. *)
Definition record_ok (nf : float) : bool :=
  PrimFloat.leb (min_record_freq self) (PrimFloat.sub 1%float nf).

Definition proceed_ok (nf : float) : bool :=
  PrimFloat.leb (min_proceed_freq self) (PrimFloat.sub 1%float nf).

(** Lines 247-263: the diagnostic snapshots. *)
Definition snapshot_input (nm : string) (inp : Inputs) (st : State) : State :=
  if record_input_output self
  then set_params_dict (<[nm := mkSnapshot inp None]> (params_dict st)) st
  else st.

Definition snapshot_output (nm : string) (r : Inference) (st : State) : option State :=
  if record_input_output self
  then snap ← params_dict st !! nm;
       Some (set_params_dict
               (<[nm := mkSnapshot (snap_input snap) (Some r)]> (params_dict st)) st)
  else Some st.

(** Lines 269-281: the recording decision. *)
Definition record_scores (g : InputGate) (r : Inference) (st : State) : option State :=
  if has_total_copy_number_data g && infer_s_score self
  then cnv ← in_cnv (gate_inputs g);
       ps ← out_params r !! "mean_gene_type_score";
       d ← record_param_to_dict (gene_type_score_dict st) (index cnv) ps;
       Some (set_gene_type_score_dict d st)
  else Some st.

Definition record_probs (g : InputGate) (r : Inference) (st : State) : option State :=
  if has_allele_specific_data g && infer_b_allele self
  then hscn ← in_hscn (gate_inputs g);
       ps ← out_params r !! "mean_allele_assign_prob";
       d ← record_param_to_dict (allele_assign_prob_dict st) (index hscn) ps;
       Some (set_allele_assign_prob_dict d st)
  else Some st.

Definition record_step
    (expr_cells : list string) (clean_clades : list Clade)
    (g : InputGate) (r : Inference) (st : State) : option State :=
  if record_ok (none_freq r)
  then st ← record_clone_assign_to_dict expr_cells (clone_assign r) clean_clades st;
       st ← record_scores g r st;
       record_probs g r st
  else Some st.

(** Line 287: [[expr_cells[k] for k in range(len(expr_cells))
    if clone_assign[k] == i]], over the list [ks] of positions. *)
Fixpoint select_cells
    (expr_cells : list string) (clone_assign : list (option Z))
    (i : nat) (ks : list nat) : option (list string) :=
  match ks with
  | [] => Some []
  | k :: ks' =>
      a ← clone_assign !! k;
      if bool_decide (a = Some (Z.of_nat i))
      then cell ← expr_cells !! k;
           rest ← select_cells expr_cells clone_assign i ks';
           Some (cell :: rest)
      else select_cells expr_cells clone_assign i ks'
  end.

Definition new_expr_cells
    (expr_cells : list string) (clone_assign : list (option Z)) (i : nat)
    : option (list string) :=
  select_cells expr_cells clone_assign i (seq 0 (length expr_cells)).

(** Lines 286-288: the body of the loop over the clean children. *)
Definition descend_at
    (clean : list (Clade * Visitor)) (expr_cells : list string)
    (clone_assign : list (option Z)) (level : Z)
    (i : nat) (st : State) : option State :=
  cells ← new_expr_cells expr_cells clone_assign i;
  k ← clean !! i;
  snd k cells (level + 1) st.

(** Lines 283-294: the proceed decision. *)
Definition proceed_step
    (clean : list (Clade * Visitor)) (expr_cells : list string)
    (r : Inference) (level : Z) (st : State) : option State :=
  if record_ok (none_freq r) && proceed_ok (none_freq r)
  then for_range (descend_at clean expr_cells (clone_assign r) level) 0 (length clean) st
  else Some (prune_all (map fst clean) st).

(** Lines 193-294: the visit of a clade with at least two clean children. *)
Definition infer_and_descend
    (current_clade : Clade) (terminals : list (list string))
    (clean : list (Clade * Visitor))
    (expr_cells : list string) (level : Z) (st : State) : option State :=
  let clean_clades := map fst clean in
  let g := build_inputs terminals expr_cells in
  if negb (has_total_copy_number_data g) && negb (has_allele_specific_data g)
  then Some (prune_all clean_clades st)
  else if (gene_count g <? min_gene_diff self) && (snp_count g <? min_snp_diff self)
  then Some (prune_all clean_clades st)
  else
    let st := snapshot_input (name current_clade) (gate_inputs g) st in
    r ← run_clonealign_pyro_repeat (calls st) (gate_inputs g);
    let st := count_call st in
    st ← snapshot_output (name current_clade) r st;
    st ← record_step expr_cells clean_clades g r st;
    proceed_step clean expr_cells r level st.

(** [assign_cells_to_clade], the children of [current_clade] given with
    their visitors. *)
Definition visit_body (current_clade : Clade) (kids : list (Clade * Visitor)) : Visitor :=
  fun expr_cells level st =>
  let st := enter (name current_clade) expr_cells level st in
  if level_cutoff self <? level then Some (prune (name current_clade) st)
  else
    let all_terminals := get_terminals current_clade in
    if (Z.of_nat (length expr_cells) <? min_cell_count_expr self)
       || (Z.of_nat (length all_terminals) <? min_cell_count_cnv self)
    then Some (prune (name current_clade) st)
    else
      let '(terminals, clean, st) := filter_children kids st in
      match clean with
      | [k] => snd k expr_cells (level + 1) (bypass_commit expr_cells (fst k) st)
      | [] => Some st
      | _ => infer_and_descend current_clade terminals clean expr_cells level st
      end.

(** [assign_cells_to_clade].  The recursive calls of the source are on
    elements of [clean_clades], a sub-list of [current_clade.clades]: every
    child is paired with its own visit before the filter. *)
Fixpoint assign_cells_to_clade (current_clade : Clade) : Visitor :=
  visit_body current_clade
    (map (fun cl => (cl, assign_cells_to_clade cl)) (clades current_clade)).

(** Lines 120-123: the cells of the run; [None] is the [AttributeError]
    raised on [None.columns]. *)
Definition input_cells : option (list string) :=
  match expr_df self with
  | Some e => Some (columns e)
  | None =>
      match snv_df self with
      | Some s => Some (columns s)
      | None => None
      end
  end.

(** [assign_cells_to_tree] *)
Definition assign_cells_to_tree (st : State) : option State :=
  let st := reset_pruned st in
  cells ← input_cells;
  let st := record_clone_assign_to_default cells (tree self) st in
  assign_cells_to_clade (tree self) cells 0 st.

End Engine.

(** ** Derived notions used to state the properties *)

(** [assign_all ws st]: the writes [ws] to [clone_assign_dict], in order. *)
Definition assign_all (ws : list (string * string)) (st : State) : State :=
  foldl (fun st w => set_assign (fst w) (snd w) st) st ws.

(** The effect of a trace on [clone_assign_dict]. *)
Definition replay (tr : list Event) (d : gmap string string) : gmap string string :=
  foldl (fun d e => match e with EvAssign c n => <[c := n]> d | EvVisit _ _ _ => d end) d tr.

(** The clade names written for cell [x], oldest first. *)
Definition assigned_to (x : string) (tr : list Event) : list string :=
  omap (fun e => match e with
                 | EvAssign c n => if bool_decide (c = x) then Some n else None
                 | EvVisit _ _ _ => None
                 end) tr.

(** The levels of the visits of a trace, oldest first. *)
Definition visit_levels (tr : list Event) : list Z :=
  omap (fun e => match e with EvVisit _ _ l => Some l | EvAssign _ _ => None end) tr.

(** The cells an event is about. *)
Definition event_cells (e : Event) : list string :=
  match e with EvVisit _ cs _ => cs | EvAssign c _ => [c] end.

(** [lineage c p]: [p] names a chain of clades, each a direct child of the
    one before, the first a direct child of [c]. *)
Inductive lineage : Clade -> list string -> Prop :=
  | lineage_here c : lineage c []
  | lineage_down c ch p : ch ∈ clades c -> lineage ch p -> lineage c (name ch :: p).

(** [call_levels cutoff L ls]: [ls] lists, in depth-first order, the levels
    of a call at level [L] and of the calls nested in it, every nested call
    being one level below its caller, and a call that makes calls being at a
    level not above [cutoff]. *)
Inductive call_levels (cutoff : Z) : Z -> list Z -> Prop :=
  | call_levels_intro L kids :
      (kids <> [] -> L <= cutoff) ->
      Forall (call_levels cutoff (L + 1)) kids ->
      call_levels cutoff L (L :: concat kids).

(** [only_pruned st st']: [st'] is [st] with more pruned clades. *)
Definition only_pruned (st st' : State) : Prop :=
  clone_assign_dict st' = clone_assign_dict st /\
  pruned_clades st ⊆ pruned_clades st' /\
  gene_type_score_dict st' = gene_type_score_dict st /\
  allele_assign_prob_dict st' = allele_assign_prob_dict st /\
  params_dict st' = params_dict st /\
  calls st' = calls st /\
  trace st' = trace st.

(** The number of clades of a tree. *)
Fixpoint clade_count (c : Clade) : nat :=
  S (list_sum (map clade_count (clades c))).

Section Notions.

Context `{CloneAlign} (self : Config).

(** Line 168, negated: the child is kept. *)
Definition is_clean (cl : Clade) : bool :=
  negb (Z.of_nat (length (map name (get_terminals cl))) <? min_cell_count_cnv self).

(** The condition of line 144 and the condition of line 151, negated. *)
Definition passes_guards (c : Clade) (expr_cells : list string) (level : Z) : bool :=
  negb (level_cutoff self <? level)
  && negb ((Z.of_nat (length expr_cells) <? min_cell_count_expr self)
           || (Z.of_nat (length (get_terminals c)) <? min_cell_count_cnv self)).

(** The list [clean_clades] of a visit; [None] when a guard returns before
    the list is built. *)
Definition clean_clades_at (c : Clade) (expr_cells : list string) (level : Z)
    : option (list Clade) :=
  if passes_guards c expr_cells level then Some (List.filter is_clean (clades c)) else None.

(** The list [terminals] of a visit. *)
Definition terminals_at (c : Clade) : list (list string) :=
  map (fun cl => map name (get_terminals cl)) (List.filter is_clean (clades c)).

(** The state of a visit when line 174 is reached: the entry is logged and
    the children that are not clean are pruned. *)
Definition after_filter (c : Clade) (expr_cells : list string) (level : Z) (st : State) : State :=
  foldl (fun st cl => if is_clean cl then st else prune (name cl) st)
        (enter (name c) expr_cells level st) (clades c).

(** The input gate of a visit: the result of lines 193-220 for its
    clean children and its cells. *)
Definition gate_at (c : Clade) (expr_cells : list string) : InputGate :=
  build_inputs (terminals_at c) expr_cells.

(** Lines 193-198: the five tables as they are constructed for a visit,
    before the validity checks. *)
Definition constructed (terminals : list (list string)) (expr_cells : list string) : Inputs :=
  let '(expr_input, clone_cnv_df) := construct_total_copy_number_input terminals expr_cells in
  let '(hscn_input, snv_allele_input, snv_input) :=
    construct_allele_specific_input terminals expr_cells in
  let '(expr_input, snv_allele_input, snv_input) :=
    make_columns_consistent expr_input snv_allele_input snv_input in
  mkInputs clone_cnv_df expr_input hscn_input snv_allele_input snv_input.

(** The visit calls the inference procedure: the guards pass, there are at
    least two clean children, and neither test of lines 222 and 228 stops
    the visit. *)
Definition reaches_inference (c : Clade) (expr_cells : list string) (level : Z) : bool :=
  match clean_clades_at c expr_cells level with
  | Some (_ :: _ :: _) =>
      let g := gate_at c expr_cells in
      negb (negb (has_total_copy_number_data g) && negb (has_allele_specific_data g))
      && negb ((gene_count g <? min_gene_diff self) && (snp_count g <? min_snp_diff self))
  | _ => false
  end.

(** The state in which the inference procedure is called (line 256). *)
Definition at_inference (c : Clade) (expr_cells : list string) (level : Z) (st : State) : State :=
  snapshot_input self (name c) (gate_inputs (gate_at c expr_cells))
                 (after_filter c expr_cells level st).

(** The result of the inference call of a visit and the state in which the
    recording decision is taken (line 269). *)
Definition before_recording (c : Clade) (expr_cells : list string) (level : Z) (st : State)
    : option (Inference * State) :=
  let st1 := at_inference c expr_cells level st in
  r ← run_clonealign_pyro_repeat (calls st1) (gate_inputs (gate_at c expr_cells));
  st2 ← snapshot_output self (name c) r (count_call st1);
  Some (r, st2).

(** Lines 286-288 in terms of [assign_cells_to_clade]: the visit of clean
    child [i]. *)
Definition descend_into
    (clean_clades : list Clade) (expr_cells : list string)
    (clone_assign : list (option Z)) (level : Z)
    (i : nat) (st : State) : option State :=
  cells ← new_expr_cells expr_cells clone_assign i;
  cl ← clean_clades !! i;
  assign_cells_to_clade self cl cells (level + 1) st.

(** The parent class meets the engine's expectations: called for at least
    two clean children, the inference procedure returns; the index vector
    covers the eligible cells and every index designates a clean child
    (counting from the end when negative); each of the two parameter
    entries is present and, when it holds values, holds no more values than
    the table that labels them has rows. *)
Definition well_behaved : Prop :=
  forall (terminals : list (list string)) (expr_cells : list string) (n : nat),
    (2 <= length terminals)%nat ->
    exists r,
      run_clonealign_pyro_repeat n (gate_inputs (build_inputs terminals expr_cells)) = Some r
      /\ (length expr_cells <= length (clone_assign r))%nat
      /\ (forall k j, clone_assign r !! k = Some (Some j) ->
            - Z.of_nat (length terminals) <= j < Z.of_nat (length terminals))
      /\ (forall d, in_cnv (gate_inputs (build_inputs terminals expr_cells)) = Some d ->
            exists ps, out_params r !! "mean_gene_type_score" = Some ps
                       /\ forall v, ps = Some v -> (length v <= length (index d))%nat)
      /\ (forall d, in_hscn (gate_inputs (build_inputs terminals expr_cells)) = Some d ->
            exists ps, out_params r !! "mean_allele_assign_prob" = Some ps
                       /\ forall v, ps = Some v -> (length v <= length (index d))%nat).

(** The visit of clean child [i] with the cells whose index is [i]. *)
Definition visit_clean_child
    (clean_clades : list Clade) (expr_cells : list string)
    (per_cell_index : list (option Z)) (level : Z)
    (i : nat) (st : State) : option State :=
  cl ← clean_clades !! i;
  assign_cells_to_clade self cl
    (map fst (List.filter (fun p => bool_decide (snd p = Some (Z.of_nat i)))
                          (zip expr_cells per_cell_index)))
    (level + 1) st.

End Notions.

(** ** The operations of the specification's AssignmentState *)

(** [commit(cells, per_cell_index, clade_roster)]: for each cell with a
    defined index, overwrite its assignment with the name of the clade the
    index designates; a cell with a missing index keeps its assignment.
    Written over the list that pairs each cell with its index. *)
Definition commit_write (clade_roster : list Clade) (p : string * option Z)
    : option (string * string) :=
  match snd p with
  | None => None
  | Some j => match py_getitem clade_roster j with
              | Some cl => Some (fst p, name cl)
              | None => None
              end
  end.

Definition commit_writes (clade_roster : list Clade)
    (cells : list string) (per_cell_index : list (option Z)) : list (string * string) :=
  omap (commit_write clade_roster) (zip cells per_cell_index).

Definition commit (clade_roster : list Clade)
    (cells : list string) (per_cell_index : list (option Z))
    (d : gmap string string) : gmap string string :=
  foldl (fun d w => <[fst w := snd w]> d) d (commit_writes clade_roster cells per_cell_index).

(** The validity of a table in the specification's InputGate: the table is
    present, with at least one row and at least one column. *)
Definition table_valid (t : option DataFrame) : Prop :=
  exists df, t = Some df /\ 1 <= shape0 df /\ 1 <= shape1 df.

(** [accumulate_scores(map, row_ids, values)]: append [values[i]] to
    [map[row_ids[i]]], creating the list on first use. *)
Definition accumulate_scores (m : gmap string (list float))
    (row_ids : list string) (values : list float) : gmap string (list float) :=
  foldl (fun m p => <[fst p := default [] (m !! fst p) ++ [snd p]]> m) m (zip row_ids values).

(** The cells of [cells] whose index is [i], in order. *)
Definition cells_with_index (cells : list string) (per_cell_index : list (option Z)) (i : nat)
    : list string :=
  map fst (List.filter (fun p => bool_decide (snd p = Some (Z.of_nat i)))
                       (zip cells per_cell_index)).

(** The accumulator [m] after the recording step: [flag] is the test of
    line 271 (or 280), [df] the table whose rows label the values and [ps]
    the looked-up entry of the returned [params_dict]. *)
Definition scores_after (flag : bool) (df : option DataFrame)
    (ps : option (option (list float))) (m : gmap string (list float))
    : gmap string (list float) :=
  if flag
  then match df, ps with
       | Some d, Some (Some v) => accumulate_scores m (index d) v
       | _, _ => m
       end
  else m.

(** ** The traces of a visit

    [visit_tr cutoff c cells L tr]: [tr] is a possible trace of the visit of
    clade [c] with the cells [cells] at level [L].  A visit logs its entry;
    then it stops, or commits every cell to a child and visits that child
    with the same cells (bypass), or commits cells per an index vector over
    some of its children, kept in order, and stops, or commits them and
    visits these children in order, child [i] with the cells of index [i].
    A visit that makes a recursive call has passed the depth guard. *)
Inductive visit_tr (cutoff : Z) : Clade -> list string -> Z -> list Event -> Prop :=
  | vt_stop c cells L :
      visit_tr cutoff c cells L [EvVisit (name c) cells L]
  | vt_bypass c cells L child tr :
      L <= cutoff ->
      child ∈ clades c ->
      visit_tr cutoff child cells (L + 1) tr ->
      visit_tr cutoff c cells L
        (EvVisit (name c) cells L
           :: map (fun w => EvAssign (fst w) (snd w)) (map (fun x => (x, name child)) cells) ++ tr)
  | vt_commit c cells L clean ca :
      sublist clean (clades c) ->
      visit_tr cutoff c cells L
        (EvVisit (name c) cells L
           :: map (fun w => EvAssign (fst w) (snd w)) (commit_writes clean cells ca))
  | vt_descend c cells L clean ca trs :
      L <= cutoff ->
      sublist clean (clades c) ->
      children_tr cutoff clean clean cells ca (L + 1) 0 trs ->
      visit_tr cutoff c cells L
        (EvVisit (name c) cells L
           :: map (fun w => EvAssign (fst w) (snd w)) (commit_writes clean cells ca) ++ trs)
with children_tr (cutoff : Z)
  : list Clade -> list Clade -> list string -> list (option Z) -> Z -> nat -> list Event -> Prop :=
  | ct_done clean cells ca L i :
      children_tr cutoff clean [] cells ca L i []
  | ct_next clean cl rest cells ca L i tr trs :
      clean !! i = Some cl ->
      visit_tr cutoff cl (cells_with_index cells ca i) L tr ->
      children_tr cutoff clean rest cells ca L (S i) trs ->
      children_tr cutoff clean (cl :: rest) cells ca L i (tr ++ trs).

Scheme visit_tr_min := Minimality for visit_tr Sort Prop
  with children_tr_min := Minimality for children_tr Sort Prop.
Combined Scheme visit_tr_mutind from visit_tr_min, children_tr_min.

Section TraceNotions.

Context `{CloneAlign} (self : Config).

(** What is shown of a visit: its events are appended to the trace, the
    assignments change as the events say, and the events form a trace of
    the visit. *)
Definition visit_sound_at (c : Clade) : Prop :=
  forall cells level st st',
    assign_cells_to_clade self c cells level st = Some st' ->
    exists tr, trace st' = trace st ++ tr /\
               clone_assign_dict st' = replay tr (clone_assign_dict st) /\
               visit_tr (level_cutoff self) c cells level tr.

End TraceNotions.

(** ** A worked example

    A tree [top] with the children [root] (six leaves) and [z1] (a leaf);
    [root] has the children [A] (two leaves), [B] (three leaves) and the
    leaf [c1].  Four cells, and a child is clean from two leaves on. *)

Definition leaf (nm : string) : Clade := Node nm [].
Definition ex_A : Clade := Node "A" [leaf "a1"; leaf "a2"].
Definition ex_B : Clade := Node "B" [leaf "b1"; leaf "b2"; leaf "b3"].
Definition ex_root : Clade := Node "root" [ex_A; ex_B; leaf "c1"].
Definition ex_top : Clade := Node "top" [ex_root; leaf "z1"].

Definition ex_cells : list string := ["x1"; "x2"; "x3"; "x4"].

(** A deterministic stand-in for the parent class: both tracks have data;
    the inference puts [x1] in the first clean child, leaves [x3] without
    assignment and puts every other cell in the second clean child, with
    one eighth of the outcomes lacking a confident assignment. *)
Definition ex_index (cell : string) : option Z :=
  if bool_decide (cell = "x1") then Some 0
  else if bool_decide (cell = "x3") then None
  else Some 1.

Definition ex_inference (inp : Inputs) : Inference :=
  mkInference 0.125%float
    (map ex_index (from_option columns [] (in_expr inp)))
    (mkDF [] [])
    (<["mean_gene_type_score" := Some [0.5%float; 0.25%float]]>
       (<["mean_allele_assign_prob" := Some [0.75%float]]> ∅)).

Definition ex_stub : CloneAlign := {|
  construct_total_copy_number_input terminals cells :=
    (Some (mkDF ["g1"; "g2"] cells),
     Some (mkDF ["g1"; "g2"] (map (fun _ => "clone"%string) terminals)));
  construct_allele_specific_input terminals cells :=
    (Some (mkDF ["s1"] (map (fun _ => "clone"%string) terminals)),
     Some (mkDF ["s1"] cells),
     Some (mkDF ["s1"] cells));
  make_columns_consistent e a s := (e, a, s);
  run_clonealign_pyro_repeat _ inp := Some (ex_inference inp)
|}.

(** The same, with builders that find no data for either track. *)
Definition ex_nodata : CloneAlign := {|
  construct_total_copy_number_input terminals cells := (None, Some (mkDF [] []));
  construct_allele_specific_input terminals cells :=
    (Some (mkDF ["s1"] []), None, None);
  make_columns_consistent e a s := (e, a, s);
  run_clonealign_pyro_repeat _ inp := Some (ex_inference inp)
|}.

Definition ex_cfg : Config :=
  mkConfig ex_top (Some (mkDF ["g1"; "g2"] ex_cells)) None
           true true true 2 2 1 1 10 0.75%float 0.75%float.

(** [ex_cfg] with [infer_s_score=False] and [infer_b_allele=False]. *)
Definition ex_cfg_off : Config :=
  mkConfig ex_top (Some (mkDF ["g1"; "g2"] ex_cells)) None
           false false true 2 2 1 1 10 0.75%float 0.75%float.

(** [ex_cfg] with both thresholds at 0.875, the value of [1 - none_freq] in
    the example; with [min_record_freq] above that value; and with
    [min_record_freq] at it and [min_proceed_freq] above it. *)
Definition ex_cfg_edge : Config :=
  mkConfig ex_top (Some (mkDF ["g1"; "g2"] ex_cells)) None
           true true true 2 2 1 1 10 0.875%float 0.875%float.

Definition ex_cfg_skip : Config :=
  mkConfig ex_top (Some (mkDF ["g1"; "g2"] ex_cells)) None
           true true true 2 2 1 1 10 0.75%float 0.9375%float.

Definition ex_cfg_stop : Config :=
  mkConfig ex_top (Some (mkDF ["g1"; "g2"] ex_cells)) None
           true true true 2 2 1 1 10 0.9375%float 0.875%float.

(** Modelled from the spec: the attributes of a newly constructed object.
    [CloneAlign.__init__], which creates the dictionaries, is not in this
    module; the AssignmentState of the specification starts empty. *)
Definition ex_fresh : State := mkState ∅ ∅ ∅ ∅ ∅ 0 [].

(** The visit of [root] with the four cells at level 1, from [ex_fresh]:
    the inputs built for it, the result of its inference call, the state in
    which the recording decision is taken, and the state after the
    recording step. *)
Definition ex_inputs : Inputs :=
  mkInputs (Some (mkDF ["g1"; "g2"] ["clone"; "clone"]))
           (Some (mkDF ["g1"; "g2"] ex_cells))
           (Some (mkDF ["s1"] ["clone"; "clone"]))
           (Some (mkDF ["s1"] ex_cells))
           (Some (mkDF ["s1"] ex_cells)).

Definition ex_r : Inference := ex_inference ex_inputs.

Definition ex_st2 : State :=
  mkState ∅ {["c1"]} ∅ ∅
          (<["root" := mkSnapshot ex_inputs (Some ex_r)]> ∅) 1
          [EvVisit "root" ex_cells 1].

Definition ex_st3 : State :=
  mkState (<["x4" := "B"]> (<["x2" := "B"]> (<["x1" := "A"]> ∅)))
          {["c1"]}
          (<["g2" := [0.25%float]]> (<["g1" := [0.5%float]]> ∅))
          (<["s1" := [0.75%float]]> ∅)
          (<["root" := mkSnapshot ex_inputs (Some ex_r)]> ∅) 1
          [EvVisit "root" ex_cells 1;
           EvAssign "x1" "A"; EvAssign "x2" "B"; EvAssign "x4" "B"].

(** The state after the recording step when both options are off. *)
Definition ex_st3_off : State :=
  mkState (<["x4" := "B"]> (<["x2" := "B"]> (<["x1" := "A"]> ∅)))
          {["c1"]}
          ∅
          ∅
          (<["root" := mkSnapshot ex_inputs (Some ex_r)]> ∅) 1
          [EvVisit "root" ex_cells 1;
           EvAssign "x1" "A"; EvAssign "x2" "B"; EvAssign "x4" "B"].

(** The state in which that visit returns. *)
Definition ex_root_final : State :=
  mkState (<["x4" := "B"]> (<["x2" := "B"]> (<["x1" := "A"]> ∅)))
          ({["c1"]} ∪ {["A"]} ∪ {["b1"]} ∪ {["b2"]} ∪ {["b3"]})
          (<["g2" := [0.25%float]]> (<["g1" := [0.5%float]]> ∅))
          (<["s1" := [0.75%float]]> ∅)
          (<["root" := mkSnapshot ex_inputs (Some ex_r)]> ∅) 1
          [EvVisit "root" ex_cells 1;
           EvAssign "x1" "A"; EvAssign "x2" "B"; EvAssign "x4" "B";
           EvVisit "A" ["x1"] 2; EvVisit "B" ["x2"; "x4"] 2].

(** The events of a run on [ex_cfg]. *)
Definition ex_run_trace : list Event :=
  [EvAssign "x1" "top"; EvAssign "x2" "top"; EvAssign "x3" "top"; EvAssign "x4" "top";
   EvVisit "top" ex_cells 0;
   EvAssign "x1" "root"; EvAssign "x2" "root"; EvAssign "x3" "root"; EvAssign "x4" "root";
   EvVisit "root" ex_cells 1;
   EvAssign "x1" "A"; EvAssign "x2" "B"; EvAssign "x4" "B";
   EvVisit "A" ["x1"] 2;
   EvVisit "B" ["x2"; "x4"] 2].

(** The state after one run on [ex_cfg] from [ex_fresh], and after a
    second run on the same object. *)
Definition ex_final : State :=
  mkState (<["x4" := "B"]> (<["x3" := "root"]> (<["x2" := "B"]> (<["x1" := "A"]> ∅))))
          ({["z1"]} ∪ {["c1"]} ∪ {["A"]} ∪ {["b1"]} ∪ {["b2"]} ∪ {["b3"]})
          (<["g2" := [0.25%float]]> (<["g1" := [0.5%float]]> ∅))
          (<["s1" := [0.75%float]]> ∅)
          (<["root" := mkSnapshot ex_inputs (Some ex_r)]> ∅) 1
          ex_run_trace.

Definition ex_final2 : State :=
  mkState (<["x4" := "B"]> (<["x3" := "root"]> (<["x2" := "B"]> (<["x1" := "A"]> ∅))))
          ({["z1"]} ∪ {["c1"]} ∪ {["A"]} ∪ {["b1"]} ∪ {["b2"]} ∪ {["b3"]})
          (<["g2" := [0.25%float; 0.25%float]]> (<["g1" := [0.5%float; 0.5%float]]> ∅))
          (<["s1" := [0.75%float; 0.75%float]]> ∅)
          (<["root" := mkSnapshot ex_inputs (Some ex_r)]> ∅) 2
          (ex_run_trace ++ ex_run_trace).

(** An expression table in which the column label [x] occurs twice, over the
    tree [root]; a stand-in for the parent class whose inference puts the
    first column in the first clean child and the second column in the
    second; and the events and the final state of the run. *)
Definition ex_by_position : CloneAlign := {|
  construct_total_copy_number_input terminals cells :=
    (Some (mkDF ["g1"; "g2"] cells),
     Some (mkDF ["g1"; "g2"] (map (fun _ => "clone"%string) terminals)));
  construct_allele_specific_input terminals cells :=
    (Some (mkDF ["s1"] (map (fun _ => "clone"%string) terminals)),
     Some (mkDF ["s1"] cells),
     Some (mkDF ["s1"] cells));
  make_columns_consistent e a s := (e, a, s);
  run_clonealign_pyro_repeat _ inp :=
    Some (mkInference 0.125%float [Some 0; Some 1] (mkDF [] [])
            (out_params (ex_inference inp)))
|}.

Definition ex_cfg_dup : Config :=
  mkConfig ex_root (Some (mkDF ["g1"; "g2"] ["x"; "x"])) None
           true true false 2 2 1 1 10 0.75%float 0.75%float.

Definition ex_dup_trace : list Event :=
  [EvAssign "x" "root"; EvAssign "x" "root";
   EvVisit "root" ["x"; "x"] 0;
   EvAssign "x" "A"; EvAssign "x" "B";
   EvVisit "A" ["x"] 1;
   EvVisit "B" ["x"] 1].

Definition ex_final_dup : State :=
  mkState (<["x" := "B"]> ∅)
          ({["c1"]} ∪ {["A"]} ∪ {["B"]})
          (<["g2" := [0.25%float]]> (<["g1" := [0.5%float]]> ∅))
          (<["s1" := [0.75%float]]> ∅)
          ∅ 1
          ex_dup_trace.

(** A state left by earlier use of the object: [pruned_clades] holds a
    name that is not in the tree. *)
Definition ex_stale : State := mkState ∅ {["gone"]} ∅ ∅ ∅ 0 [].


(** The state after the commit of the indices [-1] and [0] for the cells
    [x1] and [x2] over the clean children [A] and [B]. *)
Definition ex_wrapped : State :=
  mkState (<["x2" := "A"]> (<["x1" := "B"]> ∅)) ∅ ∅ ∅ ∅ 0
          [EvAssign "x1" "B"; EvAssign "x2" "A"].

(** ** Notions for the further properties *)

(** The names of a clade and of all the clades below it, in pre-order, and
    the names of the clades strictly below it. *)
Fixpoint subtree_names (c : Clade) : list string :=
  name c :: concat (map subtree_names (clades c)).

Definition descendant_names (c : Clade) : list string :=
  concat (map subtree_names (clades c)).

(** The number of clades of a tree that have at least two children. *)
Fixpoint branching (c : Clade) : nat :=
  ((if (2 <=? length (clades c))%nat then 1 else 0)
   + list_sum (map branching (clades c)))%nat.

(** [extends m m']: every list of [m] is still in [m'], possibly with
    values appended. *)
Definition extends (m m' : gmap string (list float)) : Prop :=
  forall k l, m !! k = Some l -> exists l', m' !! k = Some (l ++ l').

(** The values of [values] whose label in [row_ids] is [key], in order. *)
Definition values_for (key : string) (row_ids : list string) (values : list float)
    : list float :=
  map snd (List.filter (fun p => bool_decide (fst p = key)) (zip row_ids values)).

(** Two executions, from [stA] to [stA'] and from [stB] to [stB'], log the
    same events and add the same names to [pruned_clades]. *)
Definition same_effect (stA stA' stB stB' : State) : Prop :=
  exists (tr : list Event) (P : gset string),
    trace stA' = trace stA ++ tr /\ trace stB' = trace stB ++ tr
    /\ pruned_clades stA' = pruned_clades stA ∪ P
    /\ pruned_clades stB' = pruned_clades stB ∪ P.

Section FurtherNotions.

Context `{CloneAlign} (self : Config).

(** What is shown of the visit of [c]: the pruned set grows, and only by
    names of the subtree of [c]; the inference procedure is called at most
    once per clade of the subtree that has two children or more; the
    accumulated lists are only appended to. *)
Definition visit_grows_at (c : Clade) : Prop :=
  forall cells level st st',
    assign_cells_to_clade self c cells level st = Some st' ->
    pruned_clades st ⊆ pruned_clades st'
    /\ pruned_clades st' ⊆ pruned_clades st ∪ list_to_set (subtree_names c)
    /\ (passes_guards self c cells level = true ->
        pruned_clades (after_filter self c cells level st) ⊆ pruned_clades st'
        /\ pruned_clades st' ⊆ pruned_clades st ∪ list_to_set (descendant_names c))
    /\ (record_input_output self = false -> params_dict st' = params_dict st)
    /\ (calls st <= calls st' <= calls st + branching c)%nat
    /\ extends (gene_type_score_dict st) (gene_type_score_dict st')
    /\ extends (allele_assign_prob_dict st) (allele_assign_prob_dict st').

(** What the visit of [c] logs and prunes does not depend on the state in
    which it starts. *)
Definition visit_indep_at (c : Clade) : Prop :=
  forall cells level stA stA' stB,
    assign_cells_to_clade self c cells level stA = Some stA' ->
    exists stB',
      assign_cells_to_clade self c cells level stB = Some stB'
      /\ same_effect stA stA' stB stB'.

End FurtherNotions.

(** ** Naming the internal nodes

    [add_tree_node_name] runs in the constructor, on the tree as it was
    parsed: a clade may have no name and no branch length.  The method
    updates the clades in place and advances [self.count]; here it returns
    the renamed clade and the new value of the counter. *)

Inductive RawClade : Type := RawNode {
  raw_name : option string;
  branch_length : option float;
  raw_clades : list RawClade
}.

(** [Clade.is_terminal()] of Bio.Phylo: the clade has no children. *)
Definition is_terminal (c : RawClade) : bool :=
  match raw_clades c with [] => true | _ :: _ => false end.

(** [for child in node.clades: self.add_tree_node_name(child)], for any
    visit of a child. *)
Fixpoint for_each_child (visit : RawClade -> Z -> RawClade * Z)
    (children : list RawClade) (count : Z) : list RawClade * Z :=
  match children with
  | [] => ([], count)
  | child :: rest =>
      let '(child, count) := visit child count in
      let '(rest, count) := for_each_child visit rest count in
      (child :: rest, count)
  end.

(** [add_tree_node_name]; [str(self.count)] is the decimal numeral. *)
Fixpoint add_tree_node_name (node : RawClade) (count : Z) : RawClade * Z :=
  if is_terminal node then (node, count)
  else
    let '(nm, count) :=
      match raw_name node with
      | None => (Some ("node_" +:+ pretty count), count + 1)
      | Some nm => (Some nm, count)
      end in
    let '(children, count) := for_each_child add_tree_node_name (raw_clades node) count in
    (RawNode nm (branch_length node) children, count).

(** The notions used to state what the naming does.  The number of
    internal clades without a name; whether every internal clade has a
    name; the names present in a tree, in pre-order. *)
Fixpoint unnamed_internal (c : RawClade) : nat :=
  ((if is_terminal c then 0 else match raw_name c with None => 1 | Some _ => 0 end)
   + list_sum (map unnamed_internal (raw_clades c)))%nat.

Fixpoint internal_named (c : RawClade) : bool :=
  (is_terminal c || match raw_name c with Some _ => true | None => false end)
  && forallb internal_named (raw_clades c).

Fixpoint names (c : RawClade) : list string :=
  match raw_name c with Some nm => [nm] | None => [] end
  ++ concat (map names (raw_clades c)).

(** The names that [node'] has where [node], a tree of the same shape, has
    an internal clade without a name, in pre-order. *)
Fixpoint new_names (node node' : RawClade) : list (option string) :=
  (if is_terminal node then []
   else match raw_name node with None => [raw_name node'] | Some _ => [] end)
  ++ concat (zip_with new_names (raw_clades node) (raw_clades node')).

(** [node'] is [node] up to the names of the internal clades that have no
    name in [node]: same shape, same branch lengths, and the name of every
    terminal clade and of every named clade is kept. *)
Inductive kept : RawClade -> RawClade -> Prop :=
| kept_node nm bl cs nm' cs' :
    (cs = [] \/ is_Some nm -> nm' = nm) ->
    Forall2 kept cs cs' ->
    kept (RawNode nm bl cs) (RawNode nm' bl cs').

Definition fresh_name (k : Z) : string := "node_" +:+ pretty k.

(** The [n] names given from the counter value [count] on. *)
Definition fresh_names (count : Z) (n : nat) : list string :=
  map (fun i => fresh_name (count + Z.of_nat i)) (seq 0 n).

(** What [add_tree_node_name] does to [node] from the counter value
    [count], stated on its result [r]. *)
Definition named_from (node : RawClade) (count : Z) (r : RawClade * Z) : Prop :=
  snd r = count + Z.of_nat (unnamed_internal node)
  /\ kept node (fst r)
  /\ internal_named (fst r) = true
  /\ new_names node (fst r) = map Some (fresh_names count (unnamed_internal node))
  /\ names (fst r) ≡ₚ names node ++ fresh_names count (unnamed_internal node).

(** A tree with two unnamed internal clades, an unnamed terminal clade, and
    the same tree after the naming. *)
Definition ex_raw : RawClade :=
  RawNode None None
    [RawNode (Some "a") None [];
     RawNode None (Some 1%float) [RawNode None None []; RawNode (Some "b") None []]].

Definition ex_raw_named : RawClade :=
  RawNode (Some "node_0") None
    [RawNode (Some "a") None [];
     RawNode (Some "node_1") (Some 1%float)
       [RawNode None None []; RawNode (Some "b") None []]].

(** ** The visualization ([CloneAlignVis])

    The parts of [clonealign_visualization.py] that are plain Python over
    lists and dictionaries.  [CloneAlignVis.add_tree_node_name] is, line by
    line, the method of [CloneAlignTree] modelled above. *)

(** A JSON value.  A Python [dict] keeps its keys in insertion order, and
    the export writes them in that order: an object is the list of its
    entries.  A number is a float; the integer [1] that stands for a
    missing branch length is the number 1, equal to the float [1.0] in
    Python as in JSON. *)
Inductive Json : Type :=
| JNull
| JNum (x : float)
| JStr (s : string)
| JList (items : list Json)
| JDict (entries : list (string * Json)).

(** [get_json], local to [output_json]. *)
Fixpoint get_json (clade : RawClade) : Json :=
  JDict (("name", match raw_name clade with Some nm => JStr nm | None => JNull end)
         :: ("length", match branch_length clade with Some x => JNum x | None => JNum 1 end)
         :: (if is_terminal clade then []
             else [("children", JList (map get_json (raw_clades clade)))])).

(** The tree with every missing branch length read as 1. *)
Fixpoint fill_lengths (clade : RawClade) : RawClade :=
  RawNode (raw_name clade)
          (Some (match branch_length clade with Some x => x | None => 1%float end))
          (map fill_lengths (raw_clades clade)).

(** [subsample_genes], line 226:
    [[i for i in range(n) if i % gene_group == 1]], where [n] is the number
    of genes and [gene_group] the value computed at line 225.  [None] is
    the [ZeroDivisionError] of [i % 0]. *)
Fixpoint select_rows_in (gene_group : Z) (rows : list nat) : option (list nat) :=
  match rows with
  | [] => Some []
  | i :: rest =>
      if gene_group =? 0 then None
      else rest ← select_rows_in gene_group rest;
           Some (if Z.of_nat i mod gene_group =? 1 then i :: rest else rest)
  end.

Definition select_rows (n : nat) (gene_group : Z) : option (list nat) :=
  select_rows_in gene_group (seq 0 n).

(** [pack_into_tab_data], lines 168-171: the list [output].  An entry is
    the dictionary with the keys [id], [tabTitle], [tabContent] and [data];
    [tab_titles] and [tab_contents] are lists, or [None] as by default, and
    subscripting [None] raises. *)
Record TabData (T C D : Type) : Type := mkTabData {
  tab_id : string;
  tabTitle : T;
  tabContent : C;
  tab_data : D
}.
Arguments mkTabData {T C D}.
Arguments tab_id {T C D}.
Arguments tabTitle {T C D}.
Arguments tabContent {T C D}.
Arguments tab_data {T C D}.

Definition tab_data_at {T C D : Type}
    (data : list D) (tab_titles : option (list T)) (tab_contents : option (list C))
    (i : nat) : option (TabData T C D) :=
  titles ← tab_titles;
  title ← titles !! i;
  contents ← tab_contents;
  content ← contents !! i;
  d ← data !! i;
  Some (mkTabData (pretty i) title content d).

Definition tab_output {T C D : Type}
    (data : list D) (tab_titles : option (list T)) (tab_contents : option (list C))
    : option (list (TabData T C D)) :=
  for_range (fun i output =>
               e ← tab_data_at data tab_titles tab_contents i;
               Some (output ++ [e]))
            0 (length data) [].

(** [order_expr_cells], lines 256-259: the categories of the first ordering
    column, from the two lists [self.cnv_meta[...].unique().tolist()] and
    [self.expr_meta[...].unique().tolist()]; a value is a string or
    [None]. *)
Definition is_not_None {A : Type} (v : option A) : bool :=
  match v with Some _ => true | None => false end.

Definition add_category (categories : list (option string)) (category : option string)
    : list (option string) :=
  if is_not_None category && negb (bool_decide (category ∈ categories))
  then categories ++ [category]
  else categories.

Definition categories_of (cnv_unique expr_unique : list (option string))
    : list (option string) :=
  foldl add_category (List.filter is_not_None cnv_unique) expr_unique.

(** [generate_sankey].  A column of a meta table is the list of its rows,
    each the index label and the value; [None] is a table without the
    column, whose selection raises.  An element of [self.sankey] is the
    dictionary with the keys [name], [left] and [right]. *)
Record Sankey : Type := mkSankey {
  sankey_name : string;
  sankey_left : list Z;
  sankey_right : list Z
}.

(** [meta.index[meta[select_column] == terminal].values] *)
Definition indices_where (column : list (Z * string)) (terminal : string) : list Z :=
  map fst (List.filter (fun row => bool_decide (snd row = terminal)) column).

(** [indices.min().item()] and [indices.max().item()]; the code calls them
    on non-empty arrays only. *)
Definition indices_min (indices : list Z) : Z :=
  match indices with [] => 0 | i :: rest => foldl Z.min i rest end.

Definition indices_max (indices : list Z) : Z :=
  match indices with [] => 0 | i :: rest => foldl Z.max i rest end.

Definition sankey_step (cnv_column expr_column : option (list (Z * string)))
    (sankey : option (list Sankey)) (terminal : string) : option (list Sankey) :=
  sankey ← sankey;
  cnv ← cnv_column;
  let left_indices := indices_where cnv terminal in
  expr ← expr_column;
  let right_indices := indices_where expr terminal in
  if negb (length left_indices =? 0)%nat && negb (length right_indices =? 0)%nat
  then Some (sankey ++ [mkSankey terminal
                          [indices_min left_indices; indices_max left_indices]
                          [indices_min right_indices; indices_max right_indices]])
  else Some sankey.

Definition generate_sankey (terminal_nodes : list string)
    (cnv_column expr_column : option (list (Z * string)))
    (sankey : list Sankey) : option (list Sankey) :=
  foldl (sankey_step cnv_column expr_column) (Some sankey) terminal_nodes.

(** ** Notions for the properties of the visualization *)

(** The terminal nodes that [generate_sankey] gives an element: those with
    a row in both columns. *)
Definition on_both_sides (cnv expr : list (Z * string)) (terminal : string) : bool :=
  negb (length (indices_where cnv terminal) =? 0)%nat
  && negb (length (indices_where expr terminal) =? 0)%nat.

(** The element that [generate_sankey] appends for such a terminal node. *)
Definition sankey_element (cnv expr : list (Z * string)) (terminal : string) : Sankey :=
  mkSankey terminal
    [indices_min (indices_where cnv terminal); indices_max (indices_where cnv terminal)]
    [indices_min (indices_where expr terminal); indices_max (indices_where expr terminal)].

(** Two meta columns and the elements [generate_sankey] computes for the
    terminal nodes [A], [B] and [C]. *)
Definition ex_cnv_column : list (Z * string) :=
  [(0, "A"); (1, "B"); (2, "A"); (3, "")]%string.
Definition ex_expr_column : list (Z * string) :=
  [(0, "A"); (1, "A"); (2, "C")]%string.
Definition ex_sankey : list Sankey := [mkSankey "A" [0; 2] [0; 1]].

(** * Properties *)

(** ** Loops *)

Lemma for_range_inv {S : Type} (P : nat -> S -> Prop) (body : nat -> S -> option S) :
  forall (n i : nat) (s s' : S),
    for_range body i n s = Some s' ->
    P i s ->
    (forall k t t', (i <= k < i + n)%nat -> P k t -> body k t = Some t' -> P (Datatypes.S k) t') ->
    P (i + n)%nat s'.
Proof.
  induction n as [|n IH]; intros i s s' Hrun Hi Hstep; simpl in Hrun.
  - injection Hrun as <-. by rewrite Nat.add_0_r.
  - destruct (body i s) as [t|] eqn:Hb; [|done].
    replace (i + Datatypes.S n)%nat with (Datatypes.S i + n)%nat by lia.
    apply (IH (Datatypes.S i) t s' Hrun).
    + apply (Hstep i s t); [lia|done|done].
    + intros k u u' Hk. apply Hstep. lia.
Qed.

Lemma for_range_ext {S : Type} (f g : nat -> S -> option S) :
  (forall k s, f k s = g k s) ->
  forall n i s, for_range f i n s = for_range g i n s.
Proof.
  intros Hfg. induction n as [|n IH]; intros i s; simpl; [done|].
  rewrite Hfg. destruct (g i s); [apply IH|done].
Qed.

(** ** Structural induction on clades *)

Lemma Clade_rect_Forall (P : Clade -> Prop) :
  (forall nm cs, Forall P cs -> P (Node nm cs)) -> forall c, P c.
Proof.
  intros Hnode. fix IH 1. intros [nm cs]. apply Hnode.
  induction cs as [|c cs IHcs]; constructor; [apply IH|apply IHcs].
Qed.

(** ** The fields a state update leaves alone *)

Lemma only_pruned_refl st : only_pruned st st.
Proof. by repeat split. Qed.

Lemma only_pruned_prune nm st st' : only_pruned st st' -> only_pruned st (prune nm st').
Proof.
  intros (?&?&?&?&?&?&?). repeat split; simpl; try done. set_solver.
Qed.

Lemma prune_all_only_pruned cls st : only_pruned st (prune_all cls st).
Proof.
  unfold prune_all. revert st. induction cls as [|cl cls IH] using rev_ind; intros st.
  - apply only_pruned_refl.
  - rewrite foldl_snoc. by apply only_pruned_prune.
Qed.

Lemma prune_all_pruned cls st :
  pruned_clades (prune_all cls st) = list_to_set (map name cls) ∪ pruned_clades st.
Proof.
  unfold prune_all. revert st. induction cls as [|cl cls IH]; intros st; simpl.
  - set_solver.
  - rewrite IH. simpl. set_solver.
Qed.

Lemma assign_all_trace ws st :
  trace (assign_all ws st) = trace st ++ map (fun w => EvAssign (fst w) (snd w)) ws.
Proof.
  revert st. induction ws as [|w ws IH]; intros st; simpl.
  - by rewrite app_nil_r.
  - unfold assign_all in *. simpl. rewrite IH. simpl. by rewrite <- app_assoc.
Qed.

Lemma assign_all_dict ws st :
  clone_assign_dict (assign_all ws st)
  = foldl (fun d w => <[fst w := snd w]> d) (clone_assign_dict st) ws.
Proof.
  revert st. induction ws as [|w ws IH]; intros st; simpl; [done|].
  unfold assign_all in *. simpl. by rewrite IH.
Qed.

Lemma assign_all_rest ws st :
  pruned_clades (assign_all ws st) = pruned_clades st /\
  gene_type_score_dict (assign_all ws st) = gene_type_score_dict st /\
  allele_assign_prob_dict (assign_all ws st) = allele_assign_prob_dict st /\
  params_dict (assign_all ws st) = params_dict st /\
  calls (assign_all ws st) = calls st.
Proof.
  revert st. induction ws as [|w ws IH]; intros st; simpl; [done|].
  unfold assign_all in *. simpl. destruct (IH (set_assign (fst w) (snd w) st)) as (?&?&?&?&?).
  by repeat split.
Qed.

Lemma replay_app tr1 tr2 d : replay (tr1 ++ tr2) d = replay tr2 (replay tr1 d).
Proof. unfold replay. by rewrite foldl_app. Qed.

Lemma replay_assigns ws d :
  replay (map (fun w => EvAssign (fst w) (snd w)) ws) d
  = foldl (fun d w => <[fst w := snd w]> d) d ws.
Proof. revert d. induction ws as [|w ws IH]; intros d; simpl; [done|]. apply IH. Qed.

Lemma default_is_assign_all cells root st :
  record_clone_assign_to_default cells root st
  = assign_all (map (fun c => (c, name root)) cells) st.
Proof.
  unfold record_clone_assign_to_default, assign_all.
  revert st. induction cells as [|c cells IH]; intros st; simpl; [done|]. apply IH.
Qed.

(** ** The equation of a visit *)

Section Equations.

Context `{CloneAlign} (self : Config).

Lemma filter_children_acc (V : Clade -> Visitor) cs ts cl st :
  foldl (filter_child self) (ts, cl, st) (map (fun c => (c, V c)) cs)
  = (ts ++ map (fun c => map name (get_terminals c)) (List.filter (is_clean self) cs),
     cl ++ map (fun c => (c, V c)) (List.filter (is_clean self) cs),
     foldl (fun st c => if is_clean self c then st else prune (name c) st) st cs).
Proof.
  revert ts cl st. induction cs as [|c cs IH]; intros ts cl st.
  - simpl. by rewrite !app_nil_r.
  - assert (Hstep : filter_child self (ts, cl, st) (c, V c)
                    = if is_clean self c
                      then (ts ++ [map name (get_terminals c)], cl ++ [(c, V c)], st)
                      else (ts, cl, prune (name c) st)).
    { unfold filter_child, is_clean. cbn [fst]. by destruct (_ <? _). }
    cbn [map foldl List.filter]. rewrite Hstep.
    destruct (is_clean self c); rewrite IH; cbn [map]; by rewrite <- ?app_assoc.
Qed.

Lemma descend_at_kids (V : Clade -> Visitor) cls cells ca level i st :
  descend_at (map (fun c => (c, V c)) cls) cells ca level i st
  = (cs ← new_expr_cells cells ca i; cl ← cls !! i; V cl cs (level + 1) st).
Proof.
  unfold descend_at. destruct (new_expr_cells cells ca i) as [cs|]; simpl; [|done].
  rewrite list_lookup_fmap. by destruct (cls !! i).
Qed.

(** The visit of a clade, case by case, in terms of the visits of its
    clean children. *)
Lemma visit_eq c cells level st :
  assign_cells_to_clade self c cells level st =
  match clean_clades_at self c cells level with
  | None => Some (prune (name c) (enter (name c) cells level st))
  | Some [] => Some (after_filter self c cells level st)
  | Some [child] =>
      assign_cells_to_clade self child cells (level + 1)
        (bypass_commit cells child (after_filter self c cells level st))
  | Some clean =>
      if reaches_inference self c cells level
      then p ← before_recording self c cells level st;
           st3 ← record_step self cells clean (gate_at self c cells) p.1 p.2;
           if record_ok self (none_freq p.1) && proceed_ok self (none_freq p.1)
           then for_range (descend_into self clean cells (clone_assign p.1) level)
                          0 (length clean) st3
           else Some (prune_all clean st3)
      else Some (prune_all clean (after_filter self c cells level st))
  end.
Proof.
  destruct c as [nm cs].
  unfold reaches_inference, clean_clades_at, passes_guards, before_recording,
    at_inference, gate_at, terminals_at, after_filter.
  cbn [assign_cells_to_clade]. unfold visit_body. cbn [name clades].
  destruct (level_cutoff self <? level) eqn:Hcut; cbn [negb andb]; [done|].
  destruct ((Z.of_nat (length cells) <? min_cell_count_expr self)
            || (Z.of_nat (length (get_terminals (Node nm cs))) <? min_cell_count_cnv self)) eqn:Hav;
    cbn [negb]; [done|].
  unfold filter_children, infer_and_descend, proceed_step.
  rewrite filter_children_acc. cbn [app]. cbv beta iota zeta.
  rewrite !map_map. cbn [fst]. rewrite !map_id, !length_map.
  generalize (build_inputs
                (map (fun c => map name (get_terminals c)) (List.filter (is_clean self) cs))
                cells) as g.
  generalize (foldl (fun st c => if is_clean self c then st else prune (name c) st)
                    (enter nm cells level st) cs) as st1.
  intros st1 g.
  destruct (List.filter (is_clean self) cs) as [|c1 [|c2 cl]] eqn:Hclean; cbn [map]; [done|done|].
  change ((c1, assign_cells_to_clade self c1) :: (c2, assign_cells_to_clade self c2)
            :: map (fun c => (c, assign_cells_to_clade self c)) cl)
    with (map (fun c => (c, assign_cells_to_clade self c)) (c1 :: c2 :: cl)).
  destruct (negb (has_total_copy_number_data g) && negb (has_allele_specific_data g)); cbn [negb andb].
  { done. }
  destruct ((gene_count g <? min_gene_diff self) && (snp_count g <? min_snp_diff self)); cbn [negb].
  { done. }
  destruct (run_clonealign_pyro_repeat _ _) as [r|]; cbn [mbind option_bind]; [|done].
  cbn [name].
  destruct (snapshot_output self nm r _) as [st2|]; cbn [mbind option_bind fst snd]; [|done].
  destruct (record_step self cells (c1 :: c2 :: cl) g r st2) as [st3|]; cbn [mbind option_bind]; [|done].
  destruct (record_ok self (none_freq r) && proceed_ok self (none_freq r)); [|done].
  apply for_range_ext. intros k s.
  rewrite descend_at_kids. done.
Qed.

End Equations.

(** ** The loops of the source against the operations of the specification *)

Lemma drop_lookup_cons {A : Type} (l : list A) (i : nat) (a : A) :
  l !! i = Some a -> drop i l = a :: drop (Datatypes.S i) l.
Proof.
  revert i. induction l as [|b l IH]; intros [|i] Hl; simpl in *; try done.
  - by injection Hl as ->.
  - by apply IH.
Qed.

Lemma bypass_is_assign_all cells child st :
  bypass_commit cells child st = assign_all (map (fun c => (c, name child)) cells) st.
Proof.
  unfold bypass_commit, assign_all.
  revert st. induction cells as [|c cells IH]; intros st; simpl; [done|]. apply IH.
Qed.

Lemma commit_writes_cons clean c cells a ca :
  commit_writes clean (c :: cells) (a :: ca)
  = match commit_write clean (c, a) with
    | Some w => w :: commit_writes clean cells ca
    | None => commit_writes clean cells ca
    end.
Proof. reflexivity. Qed.

Lemma record_clone_assign_loop cells ca clean :
  forall (n i : nat) (st st' : State),
    (i + n)%nat = length cells ->
    for_range (record_clone_assign_at cells ca clean) i n st = Some st' ->
    st' = assign_all (commit_writes clean (drop i cells) (drop i ca)) st.
Proof.
  induction n as [|n IH]; intros i st st' Hlen Hrun; simpl in Hrun.
  - injection Hrun as <-. rewrite drop_ge by lia. done.
  - destruct (record_clone_assign_at cells ca clean i st) as [st1|] eqn:Hbody; [|done].
    unfold record_clone_assign_at in Hbody.
    destruct (ca !! i) as [a|] eqn:Ha; simpl in Hbody; [|done].
    destruct (lookup_lt_is_Some_2 cells i ltac:(lia)) as [cell Hcell].
    rewrite (drop_lookup_cons _ _ _ Ha), (drop_lookup_cons _ _ _ Hcell).
    rewrite commit_writes_cons. unfold commit_write. cbn [fst snd].
    apply IH in Hrun; [|lia].
    destruct a as [j|].
    + destruct (py_getitem clean j) as [cl|]; simpl in Hbody; [|done].
      rewrite Hcell in Hbody. simpl in Hbody. injection Hbody as <-. done.
    + injection Hbody as <-. done.
Qed.

(** [record_clone_assign_to_dict] performs the writes of [commit]. *)
Lemma record_clone_assign_to_dict_spec cells ca clean st st' :
  record_clone_assign_to_dict cells ca clean st = Some st' ->
  st' = assign_all (commit_writes clean cells ca) st.
Proof.
  intros Hrun. apply (record_clone_assign_loop cells ca clean (length cells) 0 st st') in Hrun; [|done].
  by rewrite !drop_0 in Hrun.
Qed.

Lemma record_param_loop indices ps :
  forall (n i : nat) (d d' : gmap string (list float)),
    (i + n)%nat = length ps ->
    for_range (record_param_at indices ps) i n d = Some d' ->
    d' = accumulate_scores d (drop i indices) (drop i ps).
Proof.
  induction n as [|n IH]; intros i d d' Hlen Hrun; simpl in Hrun.
  - injection Hrun as <-. rewrite (drop_ge ps) by lia.
    unfold accumulate_scores. by rewrite zip_with_nil_r.
  - destruct (record_param_at indices ps i d) as [d1|] eqn:Hbody; [|done].
    unfold record_param_at in Hbody.
    destruct (indices !! i) as [key|] eqn:Hkey; simpl in Hbody; [|done].
    destruct (ps !! i) as [v|] eqn:Hv; simpl in Hbody; [|done].
    injection Hbody as <-.
    rewrite (drop_lookup_cons _ _ _ Hkey), (drop_lookup_cons _ _ _ Hv).
    apply IH in Hrun; [|lia]. done.
Qed.

(** [record_param_to_dict] is [accumulate_scores]. *)
Lemma record_param_to_dict_spec d indices ps d' :
  record_param_to_dict d indices (Some ps) = Some d' ->
  d' = accumulate_scores d indices ps.
Proof.
  intros Hrun. apply (record_param_loop indices ps (length ps) 0 d d') in Hrun; [|done].
  by rewrite !drop_0 in Hrun.
Qed.

Lemma select_cells_loop cells ca (j : nat) :
  forall (n i : nat) (cs : list string),
    (i + n)%nat = length cells ->
    select_cells cells ca j (seq i n) = Some cs ->
    cs = cells_with_index (drop i cells) (drop i ca) j.
Proof.
  induction n as [|n IH]; intros i cs Hlen Hrun; simpl in Hrun.
  - injection Hrun as <-. by rewrite drop_ge by lia.
  - destruct (ca !! i) as [a|] eqn:Ha; simpl in Hrun; [|done].
    destruct (lookup_lt_is_Some_2 cells i ltac:(lia)) as [cell Hcell].
    rewrite (drop_lookup_cons _ _ _ Ha), (drop_lookup_cons _ _ _ Hcell).
    unfold cells_with_index. cbn [zip zip_with List.filter snd].
    destruct (bool_decide (a = Some (Z.of_nat j))).
    + rewrite Hcell in Hrun. simpl in Hrun.
      destruct (select_cells cells ca j (seq (Datatypes.S i) n)) as [rest|] eqn:Hrest;
        simpl in Hrun; [|done].
      injection Hrun as <-. apply IH in Hrest; [|lia]. cbn [map fst]. by rewrite Hrest.
    + apply IH in Hrun; [|lia]. done.
Qed.

(** The cells handed to clean child [i] are the cells whose index is [i]. *)
Lemma new_expr_cells_spec cells ca i cs :
  new_expr_cells cells ca i = Some cs -> cs = cells_with_index cells ca i.
Proof.
  intros Hrun. apply (select_cells_loop cells ca i (length cells) 0 cs) in Hrun; [|done].
  by rewrite !drop_0 in Hrun.
Qed.

Lemma cells_with_index_elem cells ca i x :
  x ∈ cells_with_index cells ca i ->
  exists k, cells !! k = Some x /\ ca !! k = Some (Some (Z.of_nat i)).
Proof.
  unfold cells_with_index. intros Hx.
  apply list_elem_of_fmap in Hx as [[y a] [-> Hin]].
  apply list_elem_of_In, filter_In in Hin as [Hin Hp].
  apply bool_decide_eq_true in Hp. simpl in Hp. subst a.
  apply list_elem_of_In, list_elem_of_lookup in Hin as [k Hk].
  apply lookup_zip_with_Some in Hk as (y' & a' & Heq & Hy & Ha).
  injection Heq as <- <-. by exists k.
Qed.

Lemma cells_with_index_subseteq cells ca i : cells_with_index cells ca i ⊆ cells.
Proof.
  intros x Hx. apply cells_with_index_elem in Hx as (k & Hk & _).
  apply list_elem_of_lookup. by exists k.
Qed.

(** ** The effect of the steps of a visit on the state *)

Section Effects.

Context `{CloneAlign} (self : Config).

Lemma after_filter_only_pruned c cells level st :
  only_pruned (enter (name c) cells level st) (after_filter self c cells level st).
Proof.
  unfold after_filter. generalize (enter (name c) cells level st) as st0. intros st0.
  induction (clades c) as [|cl cls IH] using rev_ind.
  - apply only_pruned_refl.
  - rewrite foldl_snoc. destruct (is_clean self cl); [done|]. by apply only_pruned_prune.
Qed.

Lemma snapshot_input_effect nm inp st :
  clone_assign_dict (snapshot_input self nm inp st) = clone_assign_dict st /\
  pruned_clades (snapshot_input self nm inp st) = pruned_clades st /\
  gene_type_score_dict (snapshot_input self nm inp st) = gene_type_score_dict st /\
  allele_assign_prob_dict (snapshot_input self nm inp st) = allele_assign_prob_dict st /\
  calls (snapshot_input self nm inp st) = calls st /\
  trace (snapshot_input self nm inp st) = trace st.
Proof. unfold snapshot_input. by destruct (record_input_output self). Qed.

Lemma snapshot_output_effect nm r st st' :
  snapshot_output self nm r st = Some st' ->
  clone_assign_dict st' = clone_assign_dict st /\
  pruned_clades st' = pruned_clades st /\
  gene_type_score_dict st' = gene_type_score_dict st /\
  allele_assign_prob_dict st' = allele_assign_prob_dict st /\
  calls st' = calls st /\
  trace st' = trace st.
Proof.
  unfold snapshot_output. destruct (record_input_output self).
  - destruct (params_dict st !! nm); simpl; [|done]. by intros [= <-].
  - by intros [= <-].
Qed.

(** The state in which the recording decision is taken: since the entry of
    the visit, one inference call was made, and nothing was written to the
    assignments or the accumulators. *)
Lemma before_recording_effect c cells level st r st2 :
  before_recording self c cells level st = Some (r, st2) ->
  clone_assign_dict st2 = clone_assign_dict st /\
  pruned_clades st ⊆ pruned_clades st2 /\
  gene_type_score_dict st2 = gene_type_score_dict st /\
  allele_assign_prob_dict st2 = allele_assign_prob_dict st /\
  calls st2 = S (calls st) /\
  trace st2 = trace st ++ [EvVisit (name c) cells level].
Proof.
  unfold before_recording, at_inference.
  destruct (run_clonealign_pyro_repeat _ _) as [r'|]; simpl; [|done].
  destruct (snapshot_output _ _ _ _) as [st2'|] eqn:Hout; simpl; [|done].
  intros [= -> ->].
  apply snapshot_output_effect in Hout as (Hd & Hp & Hg & Ha & Hc & Ht).
  destruct (snapshot_input_effect (name c) (gate_inputs (gate_at self c cells))
              (after_filter self c cells level st)) as (Hd' & Hp' & Hg' & Ha' & Hc' & Ht').
  destruct (after_filter_only_pruned c cells level st) as (Hd0 & Hp0 & Hg0 & Ha0 & _ & Hc0 & Ht0).
  simpl in *. rewrite Hd, Hp, Hg, Ha, Hc, Ht, Hd', Hp', Hg', Ha', Hc', Ht'.
  rewrite Hd0, Hg0, Ha0, Hc0, Ht0. repeat split; try done.
Qed.

Lemma record_scores_effect g r st st' :
  record_scores self g r st = Some st' ->
  st' = set_gene_type_score_dict
          (scores_after (has_total_copy_number_data g && infer_s_score self)
             (in_cnv (gate_inputs g)) (out_params r !! "mean_gene_type_score")
             (gene_type_score_dict st)) st.
Proof.
  unfold record_scores, scores_after.
  destruct (has_total_copy_number_data g && infer_s_score self).
  - destruct (in_cnv (gate_inputs g)) as [cnv|]; cbn [mbind option_bind]; [|done].
    destruct (out_params r !! "mean_gene_type_score") as [[ps|]|]; cbn [mbind option_bind]; [| |done].
    + destruct (record_param_to_dict _ _ _) as [d|] eqn:Hd; cbn [mbind option_bind]; [|done].
      apply record_param_to_dict_spec in Hd. subst d. by intros [= <-].
    + by intros [= <-].
  - intros [= <-]. by destruct st.
Qed.

Lemma record_probs_effect g r st st' :
  record_probs self g r st = Some st' ->
  st' = set_allele_assign_prob_dict
          (scores_after (has_allele_specific_data g && infer_b_allele self)
             (in_hscn (gate_inputs g)) (out_params r !! "mean_allele_assign_prob")
             (allele_assign_prob_dict st)) st.
Proof.
  unfold record_probs, scores_after.
  destruct (has_allele_specific_data g && infer_b_allele self).
  - destruct (in_hscn (gate_inputs g)) as [hscn|]; cbn [mbind option_bind]; [|done].
    destruct (out_params r !! "mean_allele_assign_prob") as [[ps|]|]; cbn [mbind option_bind]; [| |done].
    + destruct (record_param_to_dict _ _ _) as [d|] eqn:Hd; cbn [mbind option_bind]; [|done].
      apply record_param_to_dict_spec in Hd. subst d. by intros [= <-].
    + by intros [= <-].
  - intros [= <-]. by destruct st.
Qed.

(** The recording step, when the threshold is met. *)
Lemma record_step_effect cells clean g r st st' :
  record_step self cells clean g r st = Some st' ->
  record_ok self (none_freq r) = true ->
  st' = set_allele_assign_prob_dict
          (scores_after (has_allele_specific_data g && infer_b_allele self)
             (in_hscn (gate_inputs g)) (out_params r !! "mean_allele_assign_prob")
             (allele_assign_prob_dict st))
          (set_gene_type_score_dict
             (scores_after (has_total_copy_number_data g && infer_s_score self)
                (in_cnv (gate_inputs g)) (out_params r !! "mean_gene_type_score")
                (gene_type_score_dict st))
             (assign_all (commit_writes clean cells (clone_assign r)) st)).
Proof.
  unfold record_step. intros Hrun Hok. rewrite Hok in Hrun.
  destruct (record_clone_assign_to_dict _ _ _ _) as [st1|] eqn:H1; simpl in Hrun; [|done].
  destruct (record_scores self g r st1) as [st2|] eqn:H2; simpl in Hrun; [|done].
  apply record_clone_assign_to_dict_spec in H1. apply record_scores_effect in H2.
  apply record_probs_effect in Hrun. subst st' st2. simpl.
  destruct (assign_all_rest (commit_writes clean cells (clone_assign r)) st) as (_ & Hg & Ha & _).
  subst st1. by rewrite Hg, Ha.
Qed.

(** The recording step, when the threshold is missed. *)
Lemma record_step_skip cells clean g r st st' :
  record_step self cells clean g r st = Some st' ->
  record_ok self (none_freq r) = false ->
  st' = st.
Proof. unfold record_step. intros Hrun Hok. rewrite Hok in Hrun. by injection Hrun. Qed.

(** What the recording step does to the assignments and to the trace. *)
Lemma record_step_writes cells clean g r st st' :
  record_step self cells clean g r st = Some st' ->
  exists ws, (ws = commit_writes clean cells (clone_assign r) \/ ws = []) /\
             (record_ok self (none_freq r) = true -> ws = commit_writes clean cells (clone_assign r)) /\
             trace st' = trace st ++ map (fun w => EvAssign (fst w) (snd w)) ws /\
             clone_assign_dict st' = replay (map (fun w => EvAssign (fst w) (snd w)) ws)
                                            (clone_assign_dict st) /\
             pruned_clades st' = pruned_clades st /\
             calls st' = calls st.
Proof.
  intros Hrun. destruct (record_ok self (none_freq r)) eqn:Hok.
  - exists (commit_writes clean cells (clone_assign r)).
    rewrite (record_step_effect _ _ _ _ _ _ Hrun Hok). simpl.
    rewrite assign_all_trace, assign_all_dict, replay_assigns.
    destruct (assign_all_rest (commit_writes clean cells (clone_assign r)) st) as (Hp & _ & _ & _ & Hc).
    repeat split; auto.
  - exists []. rewrite (record_step_skip _ _ _ _ _ _ Hrun Hok). simpl.
    rewrite app_nil_r. repeat split; auto. done.
Qed.

End Effects.

(** ** Every visit produces one of the traces of [visit_tr] *)

Section Soundness.

Context `{CloneAlign} (self : Config).

Lemma filter_sublist {A : Type} (p : A -> bool) (l : list A) : sublist (List.filter p l) l.
Proof.
  induction l as [|a l IH]; simpl; [constructor|].
  destruct (p a); by constructor.
Qed.

Lemma clean_clades_at_Some c cells level clean :
  clean_clades_at self c cells level = Some clean ->
  level <= level_cutoff self /\ clean = List.filter (is_clean self) (clades c)
  /\ sublist clean (clades c).
Proof.
  unfold clean_clades_at, passes_guards.
  destruct (level_cutoff self <? level) eqn:Hcut; simpl; [done|].
  destruct (_ || _); simpl; [done|]. intros [= <-].
  apply Z.ltb_ge in Hcut. repeat split; [done|]. apply filter_sublist.
Qed.

Lemma children_sound clean cells ca level :
  Forall (visit_sound_at self) clean ->
  forall (n i : nat) (st st' : State),
    (i + n)%nat = length clean ->
    for_range (descend_into self clean cells ca level) i n st = Some st' ->
    exists trs, trace st' = trace st ++ trs /\
                clone_assign_dict st' = replay trs (clone_assign_dict st) /\
                children_tr (level_cutoff self) clean (drop i clean) cells ca (level + 1) i trs.
Proof.
  intros Hall. induction n as [|n IH]; intros i st st' Hlen Hrun; simpl in Hrun.
  - injection Hrun as <-. exists []. rewrite app_nil_r, drop_ge by lia.
    split; [done|split; [done|constructor]].
  - destruct (descend_into self clean cells ca level i st) as [st1|] eqn:Hbody; [|done].
    unfold descend_into in Hbody.
    destruct (new_expr_cells cells ca i) as [cs|] eqn:Hcs; simpl in Hbody; [|done].
    destruct (clean !! i) as [cl|] eqn:Hcl; simpl in Hbody; [|done].
    apply new_expr_cells_spec in Hcs. subst cs.
    assert (Hsound : visit_sound_at self cl).
    { rewrite Forall_forall in Hall. apply Hall. apply list_elem_of_lookup. by exists i. }
    destruct (Hsound _ _ _ _ Hbody) as (tr & Htr & Hd & Hvt).
    destruct (IH (S i) st1 st' ltac:(lia) Hrun) as (trs & Htrs & Hds & Hct).
    exists (tr ++ trs). rewrite Htrs, Htr, Hds, Hd, replay_app, <- app_assoc.
    repeat split; [done..|].
    rewrite (drop_lookup_cons _ _ _ Hcl). by constructor.
Qed.

Lemma visit_sound c : visit_sound_at self c.
Proof.
  induction c as [nm cs IHcs] using Clade_rect_Forall.
  intros cells level st st'. rewrite visit_eq.
  set (c := Node nm cs).
  destruct (after_filter_only_pruned self c cells level st) as (Hd0 & _ & _ & _ & _ & _ & Ht0).
  simpl in Hd0, Ht0.
  destruct (clean_clades_at self c cells level) as [clean|] eqn:Hclean.
  2:{ intros [= <-]. exists [EvVisit (name c) cells level]. repeat split; [done..|]. constructor. }
  apply clean_clades_at_Some in Hclean as (Hcut & Hfilter & Hsub).
  destruct clean as [|c1 [|c2 cl]].
  - intros [= <-]. exists [EvVisit (name c) cells level]. rewrite Hd0, Ht0.
    repeat split; [done..|]. constructor.
  - intros Hrun.
    assert (Hin : c1 ∈ cs) by (apply (sublist_subseteq _ _ Hsub); left).
    rewrite Forall_forall in IHcs. destruct (IHcs c1 Hin _ _ _ _ Hrun) as (tr & Htr & Hd & Hvt).
    rewrite bypass_is_assign_all, assign_all_trace, Ht0 in Htr.
    rewrite bypass_is_assign_all, assign_all_dict, Hd0, <- replay_assigns in Hd.
    exists (EvVisit (name c) cells level
              :: map (fun w => EvAssign (fst w) (snd w)) (map (fun x => (x, name c1)) cells) ++ tr).
    split; [|split].
    + rewrite Htr, <- !app_assoc. done.
    + rewrite Hd. simpl. by rewrite replay_app.
    + by constructor.
  - set (clean := c1 :: c2 :: cl) in *.
    destruct (reaches_inference self c cells level).
    2:{ intros Heq%(inj Some). subst st'. exists [EvVisit (name c) cells level].
        destruct (prune_all_only_pruned clean (after_filter self c cells level st))
          as (Hd1 & _ & _ & _ & _ & _ & Ht1).
        rewrite Hd1, Ht1, Hd0, Ht0. repeat split; [done..|]. constructor. }
    destruct (before_recording self c cells level st) as [[r st2]|] eqn:Hbefore;
      cbn [mbind option_bind fst snd]; [|done].
    apply before_recording_effect in Hbefore as (Hd2 & _ & _ & _ & _ & Ht2).
    destruct (record_step self cells clean (gate_at self c cells) r st2) as [st3|] eqn:Hrec;
      cbn [mbind option_bind]; [|done].
    apply record_step_writes in Hrec as (ws & Hws & Hok & Ht3 & Hd3 & _).
    destruct (record_ok self (none_freq r) && proceed_ok self (none_freq r)) eqn:Hgo.
    + intros Hrun. apply andb_true_iff in Hgo as [Hrok _]. specialize (Hok Hrok). subst ws.
      assert (Hall : Forall (visit_sound_at self) clean).
      { rewrite Forall_forall in IHcs |- *. intros x Hx. apply IHcs.
        by apply (sublist_subseteq _ _ Hsub). }
      pose proof (children_sound clean cells (clone_assign r) level Hall
                    (length clean) 0 st3 st' eq_refl Hrun) as (trs & Htrs & Hds & Hct).
      rewrite drop_0 in Hct.
      exists (EvVisit (name c) cells level
                :: map (fun w => EvAssign (fst w) (snd w))
                       (commit_writes clean cells (clone_assign r)) ++ trs).
      split; [|split].
      * rewrite Htrs, Ht3, Ht2, <- !app_assoc. done.
      * rewrite Hds, Hd3, Hd2. simpl. by rewrite replay_app.
      * by constructor.
    + intros Heq%(inj Some). subst st'.
      destruct (prune_all_only_pruned clean st3) as (Hd4 & _ & _ & _ & _ & _ & Ht4).
      exists (EvVisit (name c) cells level :: map (fun w => EvAssign (fst w) (snd w)) ws).
      split; [|split].
      * rewrite Ht4, Ht3, Ht2, <- !app_assoc. done.
      * rewrite Hd4, Hd3, Hd2. done.
      * destruct Hws as [-> | ->]; [by constructor|constructor].
Qed.

End Soundness.

(** ** Traces: the cells they mention *)

Lemma assigned_to_app x tr1 tr2 :
  assigned_to x (tr1 ++ tr2) = assigned_to x tr1 ++ assigned_to x tr2.
Proof. unfold assigned_to. apply omap_app. Qed.

Lemma visit_levels_app tr1 tr2 :
  visit_levels (tr1 ++ tr2) = visit_levels tr1 ++ visit_levels tr2.
Proof. unfold visit_levels. apply omap_app. Qed.

Lemma visit_levels_assigns ws :
  visit_levels (map (fun w => EvAssign (fst w) (snd w)) ws) = [].
Proof. induction ws as [|w ws IH]; [done|]. exact IH. Qed.

(** A trace that does not mention a cell does not write to it. *)
Lemma assigned_to_unmentioned x tr :
  (forall e, e ∈ tr -> x ∉ event_cells e) -> assigned_to x tr = [].
Proof.
  induction tr as [|e tr IH]; intros Hno; [done|].
  unfold assigned_to in *. cbn [omap list_omap].
  rewrite IH by (intros e' He'; apply Hno; by right).
  destruct e as [nm cs l|c n]; [done|].
  destruct (bool_decide (c = x)) eqn:Hc; [|done].
  apply bool_decide_eq_true in Hc. subst c.
  exfalso. apply (Hno (EvAssign x n)); [by left|]. simpl. by left.
Qed.

(** The value of a cell after a trace is the last one written to it, or
    the value it had. *)
Lemma replay_lookup x tr d :
  replay tr d !! x = match last (assigned_to x tr) with
                     | Some n => Some n
                     | None => d !! x
                     end.
Proof.
  revert d. induction tr as [|e tr IH]; intros d; [done|].
  unfold replay, assigned_to in *. cbn [foldl omap list_omap]. rewrite IH.
  destruct e as [nm cs l|c n]; [done|].
  destruct (bool_decide (c = x)) eqn:Hc.
  - apply bool_decide_eq_true in Hc. subst c. rewrite last_cons.
    destruct (last _); [done|]. by rewrite lookup_insert_eq.
  - apply bool_decide_eq_false in Hc. destruct (last _); [done|].
    by rewrite lookup_insert_ne.
Qed.


Lemma replay_is_Some x tr d : is_Some (d !! x) -> is_Some (replay tr d !! x).
Proof. intros Hx. rewrite replay_lookup. by destruct (last _). Qed.

Lemma commit_writes_elem clean cells ca w :
  w ∈ commit_writes clean cells ca ->
  exists k j cl, cells !! k = Some (fst w) /\ ca !! k = Some (Some j) /\
                 py_getitem clean j = Some cl /\ snd w = name cl.
Proof.
  unfold commit_writes. intros Hw.
  apply list_elem_of_omap in Hw as ([x a] & Hin & Hcw).
  apply list_elem_of_lookup in Hin as [k Hk].
  apply lookup_zip_with_Some in Hk as (x' & a' & Heq & Hx & Ha).
  injection Heq as <- <-.
  unfold commit_write in Hcw. cbn [fst snd] in Hcw.
  destruct a as [j|]; [|done]. destruct (py_getitem clean j) as [cl|] eqn:Hcl; [|done].
  injection Hcw as <-. by exists k, j, cl.
Qed.

Lemma py_getitem_elem {A : Type} (l : list A) (j : Z) (a : A) :
  py_getitem l j = Some a -> a ∈ l.
Proof.
  unfold py_getitem. destruct (0 <=? j).
  - intros Hl. apply list_elem_of_lookup. eauto.
  - destruct (0 <=? _); [|done]. intros Hl. apply list_elem_of_lookup. eauto.
Qed.

Lemma py_getitem_nat {A : Type} (l : list A) (i : nat) :
  py_getitem l (Z.of_nat i) = l !! i.
Proof.
  unfold py_getitem. destruct (0 <=? Z.of_nat i) eqn:Hi; [by rewrite Nat2Z.id|].
  apply Z.leb_gt in Hi. lia.
Qed.

Lemma visit_tr_cells cutoff :
  (forall c cells L tr, visit_tr cutoff c cells L tr ->
     forall e, e ∈ tr -> event_cells e ⊆ cells)
  /\ (forall clean rest cells ca L i trs, children_tr cutoff clean rest cells ca L i trs ->
        forall e, e ∈ trs -> event_cells e ⊆ cells).
Proof.
  apply visit_tr_mutind.
  - intros c cells L e He. apply list_elem_of_singleton in He. by subst e.
  - intros c cells L child tr _ _ _ IH e He.
    apply elem_of_cons in He as [-> | He]; [done|].
    apply elem_of_app in He as [He | He]; [|by apply IH].
    rewrite map_map in He. apply list_elem_of_fmap in He as (x & -> & Hx). simpl.
    intros y Hy. apply list_elem_of_singleton in Hy. by subst y.
  - intros c cells L clean ca _ e He.
    apply elem_of_cons in He as [-> | He]; [done|].
    apply list_elem_of_fmap in He as (w & -> & Hw). simpl.
    apply commit_writes_elem in Hw as (k & _ & _ & Hk & _).
    intros y Hy. apply list_elem_of_singleton in Hy. subst y.
    apply list_elem_of_lookup. by exists k.
  - intros c cells L clean ca trs _ _ _ IH e He.
    apply elem_of_cons in He as [-> | He]; [done|].
    apply elem_of_app in He as [He | He]; [|by apply IH].
    apply list_elem_of_fmap in He as (w & -> & Hw). simpl.
    apply commit_writes_elem in Hw as (k & _ & _ & Hk & _).
    intros y Hy. apply list_elem_of_singleton in Hy. subst y.
    apply list_elem_of_lookup. by exists k.
  - intros clean cells ca L i e He. by apply elem_of_nil in He.
  - intros clean cl rest cells ca L i tr trs _ _ IHv _ IHc e He.
    apply elem_of_app in He as [He | He]; [|by apply IHc].
    etrans; [by apply IHv|]. apply cells_with_index_subseteq.
Qed.

(** A visit does not write to a cell that is not among its cells. *)
Lemma visit_tr_outside cutoff c cells L tr x :
  visit_tr cutoff c cells L tr -> x ∉ cells -> assigned_to x tr = [].
Proof.
  intros Hvt Hx. apply assigned_to_unmentioned. intros e He Hin.
  apply Hx. by apply (proj1 (visit_tr_cells cutoff) _ _ _ _ Hvt e He).
Qed.

(** ** Traces: the levels of the visits *)

Lemma visit_tr_levels cutoff :
  (forall c cells L tr, visit_tr cutoff c cells L tr ->
     exists rest, visit_levels tr = L :: rest
                  /\ Forall (fun l => L < l <= cutoff + 1) rest
                  /\ call_levels cutoff L (L :: rest))
  /\ (forall clean rest cells ca L i trs, children_tr cutoff clean rest cells ca L i trs ->
        exists kids, visit_levels trs = concat kids
                     /\ Forall (call_levels cutoff L) kids
                     /\ (L <= cutoff + 1 ->
                         Forall (fun l => L <= l <= cutoff + 1) (visit_levels trs))).
Proof.
  apply visit_tr_mutind.
  - intros c cells L. exists []. repeat split; [constructor|].
    apply (call_levels_intro cutoff L []); [done|constructor].
  - intros c cells L child tr Hcut _ _ (rest & Hlv & Hb & Hcl).
    exists ((L + 1) :: rest). cbn [visit_levels omap list_omap].
    fold (visit_levels (map (fun w => EvAssign (fst w) (snd w)) (map (fun x => (x, name child)) cells) ++ tr)).
    rewrite visit_levels_app, visit_levels_assigns, Hlv. split; [done|]. split.
    + constructor; [lia|]. eapply Forall_impl; [exact Hb|]. simpl. intros l Hl. lia.
    + replace ((L + 1) :: rest) with (concat [(L + 1) :: rest]) by (simpl; by rewrite app_nil_r).
      apply call_levels_intro; [done|]. by constructor.
  - intros c cells L clean ca _. exists []. cbn [visit_levels omap list_omap].
    fold (visit_levels (map (fun w => EvAssign (fst w) (snd w)) (commit_writes clean cells ca))).
    rewrite visit_levels_assigns. repeat split; [constructor|].
    apply (call_levels_intro cutoff L []); [done|constructor].
  - intros c cells L clean ca trs Hcut _ _ (kids & Hlv & Hkids & Hb).
    exists (concat kids). cbn [visit_levels omap list_omap].
    fold (visit_levels (map (fun w => EvAssign (fst w) (snd w)) (commit_writes clean cells ca) ++ trs)).
    rewrite visit_levels_app, visit_levels_assigns, Hlv. split; [done|]. split.
    + rewrite <- Hlv. eapply Forall_impl; [apply Hb; lia|]. simpl. intros l Hl. lia.
    + by apply call_levels_intro.
  - intros clean cells ca L i. exists []. repeat split; constructor.
  - intros clean cl rest cells ca L i tr trs _ _ (r & Hlv & Hb & Hcl) _ (kids & Hlvs & Hkids & Hbs).
    exists ((L :: r) :: kids). rewrite visit_levels_app, Hlv, Hlvs. split; [done|]. split.
    + by constructor.
    + intros HL. rewrite <- Hlvs. apply Forall_app. split; [|by apply Hbs].
      constructor; [lia|]. eapply Forall_impl; [exact Hb|]. simpl. intros l Hl. lia.
Qed.

(** ** Traces: the values written to a cell *)

Lemma assigned_to_assigns_outside x ws :
  x ∉ map fst ws -> assigned_to x (map (fun w => EvAssign (fst w) (snd w)) ws) = [].
Proof.
  intros Hx. apply assigned_to_unmentioned. intros e He Hin.
  apply list_elem_of_fmap in He as (w & -> & Hw). simpl in Hin.
  apply list_elem_of_singleton in Hin. subst x. apply Hx.
  apply list_elem_of_fmap. by exists w.
Qed.

Lemma assigned_to_bypass x n cells :
  NoDup cells -> x ∈ cells ->
  assigned_to x (map (fun w => EvAssign (fst w) (snd w)) (map (fun y => (y, n)) cells)) = [n].
Proof.
  induction 1 as [|y cells Hy Hnd IH]; intros Hx; [by apply elem_of_nil in Hx|].
  cbn [map]. unfold assigned_to. cbn [omap list_omap fst snd].
  fold (assigned_to x (map (fun w => EvAssign (fst w) (snd w)) (map (fun y => (y, n)) cells))).
  destruct (bool_decide (y = x)) eqn:Hyx.
  - apply bool_decide_eq_true in Hyx. subst y.
    rewrite assigned_to_assigns_outside; [done|]. rewrite map_map. simpl. by rewrite map_id.
  - apply bool_decide_eq_false in Hyx. apply IH.
    apply elem_of_cons in Hx as [Hx | Hx]; [congruence|done].
Qed.

Lemma commit_writes_outside clean cells ca x :
  x ∉ cells -> assigned_to x (map (fun w => EvAssign (fst w) (snd w)) (commit_writes clean cells ca)) = [].
Proof.
  intros Hx. apply assigned_to_assigns_outside. intros Hin. apply Hx.
  apply list_elem_of_fmap in Hin as (w & -> & Hw).
  apply commit_writes_elem in Hw as (k & _ & _ & Hk & _).
  apply list_elem_of_lookup. by exists k.
Qed.

(** With distinct cells, the commit writes to the cell at position [k] at
    most once, and what it writes is decided by the index at position [k]. *)
Lemma commit_assigned_at clean x :
  forall cells ca k,
    NoDup cells -> cells !! k = Some x ->
    assigned_to x (map (fun w => EvAssign (fst w) (snd w)) (commit_writes clean cells ca))
    = match ca !! k with
      | Some (Some j) => match py_getitem clean j with Some cl => [name cl] | None => [] end
      | _ => []
      end.
Proof.
  induction cells as [|y cells IH]; intros ca k Hnd Hk; [done|].
  apply NoDup_cons in Hnd as [Hy Hnd].
  destruct ca as [|a ca]; [by destruct k|].
  rewrite commit_writes_cons. unfold commit_write. cbn [fst snd].
  destruct k as [|k]; cbn [lookup list_lookup] in *.
  - injection Hk as ->.
    pose proof (commit_writes_outside clean cells ca x Hy) as Hrest.
    destruct a as [j|]; [|done].
    destruct (py_getitem clean j) as [cl|]; [|done].
    cbn [map]. unfold assigned_to in *. cbn [omap list_omap fst snd].
    rewrite bool_decide_eq_true_2 by done. by rewrite Hrest.
  - assert (Hyx : y <> x).
    { intros ->. apply Hy. apply list_elem_of_lookup. by exists k. }
    specialize (IH ca k Hnd Hk).
    destruct a as [j|]; [|done].
    destruct (py_getitem clean j) as [cl|]; [|done].
    cbn [map]. unfold assigned_to in *. cbn [omap list_omap fst snd].
    rewrite bool_decide_eq_false_2 by done. done.
Qed.

Lemma commit_assigned_cases clean cells ca x :
  NoDup cells ->
  let a := assigned_to x (map (fun w => EvAssign (fst w) (snd w)) (commit_writes clean cells ca)) in
  a = [] \/ exists cl, cl ∈ clean /\ a = [name cl].
Proof.
  intros Hnd a. subst a. destruct (decide (x ∈ cells)) as [Hx | Hx].
  - apply list_elem_of_lookup in Hx as [k Hk].
    rewrite (commit_assigned_at clean x cells ca k Hnd Hk).
    destruct (ca !! k) as [[j|]|]; [|by left..].
    destruct (py_getitem clean j) as [cl|] eqn:Hcl; [|by left].
    right. exists cl. split; [|done]. by apply py_getitem_elem in Hcl.
  - left. by apply commit_writes_outside.
Qed.

Lemma commit_assigned_index clean cells ca x (j : nat) cl :
  NoDup cells -> x ∈ cells_with_index cells ca j -> clean !! j = Some cl ->
  assigned_to x (map (fun w => EvAssign (fst w) (snd w)) (commit_writes clean cells ca))
  = [name cl].
Proof.
  intros Hnd Hx Hcl. apply cells_with_index_elem in Hx as (k & Hk & Ha).
  rewrite (commit_assigned_at clean x cells ca k Hnd Hk), Ha, py_getitem_nat, Hcl. done.
Qed.

Lemma cells_with_index_inj cells ca x (i j : nat) :
  NoDup cells -> x ∈ cells_with_index cells ca i -> x ∈ cells_with_index cells ca j -> i = j.
Proof.
  intros Hnd Hi Hj.
  apply cells_with_index_elem in Hi as (k & Hk & Ha).
  apply cells_with_index_elem in Hj as (k' & Hk' & Ha').
  assert (k = k') by (eapply NoDup_lookup; eauto). subst k'.
  rewrite Ha in Ha'. injection Ha' as Hij. lia.
Qed.

Lemma cells_with_index_NoDup cells ca i :
  NoDup cells -> NoDup (cells_with_index cells ca i).
Proof.
  intros Hnd. revert ca. induction Hnd as [|y cells Hy Hnd IH]; intros ca; [by destruct ca; constructor|].
  destruct ca as [|a ca]; [constructor|].
  unfold cells_with_index. cbn [zip zip_with List.filter snd].
  destruct (bool_decide (a = Some (Z.of_nat i))); [|apply IH].
  cbn [map fst]. constructor; [|apply IH].
  intros Hin. apply Hy. by apply (cells_with_index_subseteq cells ca i).
Qed.

(** With distinct cells, the values written to a cell during a visit name a
    chain of clades below the visited clade. *)
Lemma visit_tr_lineage cutoff :
  (forall c cells L tr, visit_tr cutoff c cells L tr ->
     NoDup cells -> forall x, lineage c (assigned_to x tr))
  /\ (forall clean rest cells ca L i trs, children_tr cutoff clean rest cells ca L i trs ->
        NoDup cells -> forall x,
          assigned_to x trs = []
          \/ exists j cl, (i <= j)%nat /\ clean !! j = Some cl
                          /\ x ∈ cells_with_index cells ca j
                          /\ lineage cl (assigned_to x trs)).
Proof.
  apply visit_tr_mutind.
  - intros c cells L _ x. constructor.
  - intros c cells L child tr _ Hchild Hvt IH Hnd x.
    change (assigned_to x (EvVisit (name c) cells L :: ?t)) with (assigned_to x t).
    rewrite assigned_to_app. destruct (decide (x ∈ cells)) as [Hx | Hx].
    + rewrite assigned_to_bypass by done. simpl. constructor; [done|by apply IH].
    + rewrite assigned_to_assigns_outside, (visit_tr_outside _ _ _ _ _ _ Hvt Hx); [constructor|].
      rewrite map_map. simpl. by rewrite map_id.
  - intros c cells L clean ca Hsub Hnd x.
    change (assigned_to x (EvVisit (name c) cells L :: ?t)) with (assigned_to x t).
    destruct (commit_assigned_cases clean cells ca x Hnd) as [-> | (cl & Hcl & ->)]; [constructor|].
    constructor; [by apply (sublist_subseteq _ _ Hsub)|constructor].
  - intros c cells L clean ca trs _ Hsub _ IH Hnd x.
    change (assigned_to x (EvVisit (name c) cells L :: ?t)) with (assigned_to x t).
    rewrite assigned_to_app.
    destruct (IH Hnd x) as [-> | (j & cl & _ & Hj & Hx & Hlin)].
    + rewrite app_nil_r.
      destruct (commit_assigned_cases clean cells ca x Hnd) as [-> | (cl & Hcl & ->)]; [constructor|].
      constructor; [by apply (sublist_subseteq _ _ Hsub)|constructor].
    + rewrite (commit_assigned_index clean cells ca x j cl Hnd Hx Hj). simpl.
      constructor; [|done]. apply (sublist_subseteq _ _ Hsub).
      apply list_elem_of_lookup. by exists j.
  - intros clean cells ca L i _ x. by left.
  - intros clean cl rest cells ca L i tr trs Hcl Hvt IHv _ IHc Hnd x.
    rewrite assigned_to_app.
    destruct (decide (x ∈ cells_with_index cells ca i)) as [Hx | Hx].
    + destruct (IHc Hnd x) as [-> | (j & cl' & Hij & Hj & Hx' & Hlin)].
      * rewrite app_nil_r. right. exists i, cl. repeat split; [done..|].
        apply IHv. by apply cells_with_index_NoDup.
      * pose proof (cells_with_index_inj cells ca x i j Hnd Hx Hx'). lia.
    + rewrite (visit_tr_outside _ _ _ _ _ _ Hvt Hx). simpl.
      destruct (IHc Hnd x) as [-> | (j & cl' & Hij & Hj & Hx' & Hlin)]; [by left|].
      right. exists j, cl'. repeat split; [lia|done..].
Qed.

(** ** Traces: their first event and the number of visits *)

Lemma visit_tr_head cutoff c cells L tr :
  visit_tr cutoff c cells L tr -> exists tr', tr = EvVisit (name c) cells L :: tr'.
Proof. destruct 1; eauto. Qed.

Lemma clade_count_elem (c : Clade) (cs : list Clade) :
  c ∈ cs -> (clade_count c <= list_sum (map clade_count cs))%nat.
Proof.
  induction cs as [|c' cs IH]; intros Hc; [by apply elem_of_nil in Hc|].
  simpl. apply elem_of_cons in Hc as [-> | Hc]; [lia|]. specialize (IH Hc). lia.
Qed.

Lemma clade_count_sublist (cs1 cs2 : list Clade) :
  sublist cs1 cs2 -> (list_sum (map clade_count cs1) <= list_sum (map clade_count cs2))%nat.
Proof. induction 1; simpl; lia. Qed.

Lemma clade_count_unfold (c : Clade) :
  clade_count c = S (list_sum (map clade_count (clades c))).
Proof. by destruct c. Qed.

(** A visit enters at most as many clades as the visited clade contains. *)
Lemma visit_tr_count cutoff :
  (forall c cells L tr, visit_tr cutoff c cells L tr ->
     (length (visit_levels tr) <= clade_count c)%nat)
  /\ (forall clean rest cells ca L i trs, children_tr cutoff clean rest cells ca L i trs ->
        (length (visit_levels trs) <= list_sum (map clade_count rest))%nat).
Proof.
  apply visit_tr_mutind.
  - intros c cells L. rewrite clade_count_unfold. simpl. lia.
  - intros c cells L child tr _ Hchild _ IH.
    change (visit_levels (EvVisit (name c) cells L :: ?t)) with (L :: visit_levels t).
    rewrite visit_levels_app, visit_levels_assigns, clade_count_unfold. simpl.
    pose proof (clade_count_elem child (clades c) Hchild). lia.
  - intros c cells L clean ca _.
    change (visit_levels (EvVisit (name c) cells L :: ?t)) with (L :: visit_levels t).
    rewrite visit_levels_assigns, clade_count_unfold. simpl. lia.
  - intros c cells L clean ca trs _ Hsub _ IH.
    change (visit_levels (EvVisit (name c) cells L :: ?t)) with (L :: visit_levels t).
    rewrite visit_levels_app, visit_levels_assigns, clade_count_unfold. simpl.
    pose proof (clade_count_sublist clean (clades c) Hsub). lia.
  - intros clean cells ca L i. simpl. lia.
  - intros clean cl rest cells ca L i tr trs _ _ IHv _ IHc.
    rewrite visit_levels_app, length_app. simpl. lia.
Qed.


(** Every clean child is entered, at the level of the children, with the
    cells that carry its index. *)
Lemma children_tr_visits cutoff clean rest cells ca L i trs :
  children_tr cutoff clean rest cells ca L i trs ->
  forall k cl, rest !! k = Some cl ->
    EvVisit (name cl) (cells_with_index cells ca (i + k)) L ∈ trs.
Proof.
  induction 1 as [|clean cl rest cells ca L i tr trs Hcl Hvt Hct IH]; intros k ck Hk; [done|].
  destruct k as [|k]; cbn [lookup list_lookup] in Hk.
  - injection Hk as <-. apply visit_tr_head in Hvt as [tr' ->].
    rewrite Nat.add_0_r. apply elem_of_app. left. by left.
  - apply elem_of_app. right. replace (i + S k)%nat with (S i + k)%nat by lia. by apply IH.
Qed.

(** ** The index vector is long enough once the commit has succeeded *)

Lemma record_clone_assign_length cells ca clean st st' :
  record_clone_assign_to_dict cells ca clean st = Some st' ->
  (length cells <= length ca)%nat.
Proof.
  intros Hrun.
  pose proof (for_range_inv (fun k _ => forall j, (j < k)%nat -> is_Some (ca !! j))
                (record_clone_assign_at cells ca clean) (length cells) 0 st st' Hrun) as Hinv.
  simpl in Hinv.
  assert (Hall : forall j, (j < length cells)%nat -> is_Some (ca !! j)).
  { apply Hinv; [intros j Hj; lia|].
    intros k t t' _ IH Hbody j Hj. destruct (decide (j = k)) as [-> | Hne]; [|apply IH; lia].
    unfold record_clone_assign_at in Hbody. by destruct (ca !! k). }
  destruct (length cells) as [|n] eqn:Hn; [lia|].
  destruct (Hall n ltac:(lia)) as [a Ha]. apply lookup_lt_Some in Ha. lia.
Qed.

Lemma select_cells_total cells ca (j : nat) :
  forall (n i : nat),
    (i + n <= length ca)%nat -> (i + n <= length cells)%nat ->
    is_Some (select_cells cells ca j (seq i n)).
Proof.
  induction n as [|n IH]; intros i Hca Hcells; simpl; [done|].
  destruct (lookup_lt_is_Some_2 ca i ltac:(lia)) as [a ->].
  destruct (lookup_lt_is_Some_2 cells i ltac:(lia)) as [cell ->].
  destruct (IH (S i) ltac:(lia) ltac:(lia)) as [rest ->]. simpl.
  by destruct (bool_decide _).
Qed.

Lemma new_expr_cells_total cells ca i :
  (length cells <= length ca)%nat ->
  new_expr_cells cells ca i = Some (cells_with_index cells ca i).
Proof.
  intros Hlen.
  destruct (select_cells_total cells ca i (length cells) 0 ltac:(lia) ltac:(lia)) as [cs Hcs].
  unfold new_expr_cells. rewrite Hcs. f_equal. by apply new_expr_cells_spec.
Qed.

Section Decisions.

Context `{CloneAlign} (self : Config).

Lemma record_step_length cells clean g r st st' :
  record_step self cells clean g r st = Some st' ->
  record_ok self (none_freq r) = true ->
  (length cells <= length (clone_assign r))%nat.
Proof.
  unfold record_step. intros Hrun Hok. rewrite Hok in Hrun.
  destruct (record_clone_assign_to_dict _ _ _ _) as [st1|] eqn:H1; [|done].
  by apply record_clone_assign_length in H1.
Qed.

(** The visit of a clade that calls the inference procedure, from the
    state in which the recording decision is taken. *)
Lemma visit_from_recording c cells level st clean r st2 :
  reaches_inference self c cells level = true ->
  clean_clades_at self c cells level = Some clean ->
  before_recording self c cells level st = Some (r, st2) ->
  assign_cells_to_clade self c cells level st
  = (st3 ← record_step self cells clean (gate_at self c cells) r st2;
     if record_ok self (none_freq r) && proceed_ok self (none_freq r)
     then for_range (descend_into self clean cells (clone_assign r) level) 0 (length clean) st3
     else Some (prune_all clean st3)).
Proof.
  intros Hreach Hclean Hbefore. rewrite visit_eq, Hclean.
  unfold reaches_inference in Hreach. rewrite Hclean in Hreach.
  destruct clean as [|c1 [|c2 cl]]; [done..|].
  unfold reaches_inference. rewrite Hclean, Hreach, Hbefore. done.
Qed.

Lemma descend_into_child clean cells ca level i st :
  (length cells <= length ca)%nat ->
  descend_into self clean cells ca level i st
  = visit_clean_child self clean cells ca level i st.
Proof.
  intros Hlen. unfold descend_into, visit_clean_child.
  rewrite (new_expr_cells_total cells ca i Hlen). simpl.
  by destruct (clean !! i).
Qed.

End Decisions.

(** ** A visit raises nothing when the parent class is well behaved *)

Lemma for_range_total {S : Type} (body : nat -> S -> option S) :
  forall (n i : nat) (s : S),
    (forall k t, (i <= k < i + n)%nat -> is_Some (body k t)) ->
    is_Some (for_range body i n s).
Proof.
  induction n as [|n IH]; intros i s Hbody; simpl; [by eexists|].
  destruct (Hbody i s ltac:(lia)) as [t ->].
  apply IH. intros k u Hk. apply Hbody. lia.
Qed.

Lemma py_getitem_total {A : Type} (l : list A) (j : Z) :
  - Z.of_nat (length l) <= j < Z.of_nat (length l) -> is_Some (py_getitem l j).
Proof.
  intros Hj. unfold py_getitem. destruct (0 <=? j) eqn:H0.
  - apply Z.leb_le in H0. apply lookup_lt_is_Some_2. lia.
  - apply Z.leb_gt in H0. destruct (0 <=? Z.of_nat (length l) + j) eqn:H1.
    + apply lookup_lt_is_Some_2. lia.
    + apply Z.leb_gt in H1. lia.
Qed.

Lemma record_clone_assign_total cells ca clean st :
  (length cells <= length ca)%nat ->
  (forall k j, ca !! k = Some (Some j) ->
     - Z.of_nat (length clean) <= j < Z.of_nat (length clean)) ->
  is_Some (record_clone_assign_to_dict cells ca clean st).
Proof.
  intros Hlen Hrange. apply for_range_total. intros k t Hk.
  unfold record_clone_assign_at.
  destruct (lookup_lt_is_Some_2 ca k ltac:(lia)) as [a Ha]. rewrite Ha. simpl.
  destruct a as [j|]; [|by eexists].
  destruct (py_getitem_total clean j (Hrange k j Ha)) as [cl ->]. simpl.
  destruct (lookup_lt_is_Some_2 cells k ltac:(lia)) as [cell ->]. by eexists.
Qed.

Lemma record_param_total d indices ps :
  (forall v, ps = Some v -> (length v <= length indices)%nat) ->
  is_Some (record_param_to_dict d indices ps).
Proof.
  intros Hlen. destruct ps as [v|]; [|by eexists]. simpl.
  specialize (Hlen v eq_refl). apply for_range_total. intros k t Hk.
  unfold record_param_at.
  destruct (lookup_lt_is_Some_2 indices k ltac:(lia)) as [key ->].
  destruct (lookup_lt_is_Some_2 v k ltac:(lia)) as [x ->]. by eexists.
Qed.

Section Totality.

Context `{CloneAlign} (self : Config).

Lemma usable_tables_present ts cs :
  (has_total_copy_number_data (build_inputs ts cs) = true ->
   is_Some (in_cnv (gate_inputs (build_inputs ts cs))))
  /\ (has_allele_specific_data (build_inputs ts cs) = true ->
      is_Some (in_hscn (gate_inputs (build_inputs ts cs)))).
Proof.
  unfold build_inputs.
  destruct (construct_total_copy_number_input ts cs) as [e cnv].
  destruct (construct_allele_specific_input ts cs) as [[h a] s].
  destruct (make_columns_consistent e a s) as [[e' a'] s'].
  unfold check_valid_df_input. cbn [forallb].
  destruct (valid_df e') eqn:He, (valid_df cnv) eqn:Hc, (valid_df h) eqn:Hh,
           (valid_df a') eqn:Ha, (valid_df s') eqn:Hs; cbn;
    split; try discriminate; intros _;
    try (destruct cnv; [by eexists|discriminate Hc]);
    try (destruct h; [by eexists|discriminate Hh]).
Qed.

Lemma snapshot_total nm inp r st :
  is_Some (snapshot_output self nm r (count_call (snapshot_input self nm inp st))).
Proof.
  unfold snapshot_output, snapshot_input.
  destruct (record_input_output self); [|by eexists].
  cbn [params_dict count_call set_params_dict]. rewrite lookup_insert_eq. by eexists.
Qed.

Lemma record_step_total cells clean g r st :
  (length cells <= length (clone_assign r))%nat ->
  (forall k j, clone_assign r !! k = Some (Some j) ->
     - Z.of_nat (length clean) <= j < Z.of_nat (length clean)) ->
  (has_total_copy_number_data g = true -> is_Some (in_cnv (gate_inputs g))) ->
  (has_allele_specific_data g = true -> is_Some (in_hscn (gate_inputs g))) ->
  (forall d, in_cnv (gate_inputs g) = Some d ->
     exists ps, out_params r !! "mean_gene_type_score" = Some ps
                /\ forall v, ps = Some v -> (length v <= length (index d))%nat) ->
  (forall d, in_hscn (gate_inputs g) = Some d ->
     exists ps, out_params r !! "mean_allele_assign_prob" = Some ps
                /\ forall v, ps = Some v -> (length v <= length (index d))%nat) ->
  is_Some (record_step self cells clean g r st).
Proof.
  intros Hlen Hrange Hcnv Hhscn Hgs Hap. unfold record_step.
  destruct (record_ok self (none_freq r)); [|by eexists].
  destruct (record_clone_assign_total cells (clone_assign r) clean st Hlen Hrange) as [st1 ->].
  cbn [mbind option_bind].
  assert (Hs : is_Some (record_scores self g r st1)).
  { unfold record_scores.
    destruct (has_total_copy_number_data g && infer_s_score self) eqn:Hflag; [|by eexists].
    apply andb_true_iff in Hflag as [Ht _]. destruct (Hcnv Ht) as [d Hd]. rewrite Hd.
    destruct (Hgs d Hd) as (ps & -> & Hps). cbn [mbind option_bind].
    destruct (record_param_total (gene_type_score_dict st1) (index d) ps Hps) as [m ->].
    by eexists. }
  destruct Hs as [st2 ->]. cbn [mbind option_bind].
  unfold record_probs.
  destruct (has_allele_specific_data g && infer_b_allele self) eqn:Hflag; [|by eexists].
  apply andb_true_iff in Hflag as [Ht _]. destruct (Hhscn Ht) as [d Hd]. rewrite Hd.
  destruct (Hap d Hd) as (ps & -> & Hps). cbn [mbind option_bind].
  destruct (record_param_total (allele_assign_prob_dict st2) (index d) ps Hps) as [m ->].
  by eexists.
Qed.

(** With a well-behaved parent class every visit returns a state. *)
Lemma visit_total :
  well_behaved ->
  forall c cells level st, is_Some (assign_cells_to_clade self c cells level st).
Proof.
  intros Hwb c. induction c as [nm cs IHcs] using Clade_rect_Forall.
  intros cells level st. rewrite visit_eq. set (c := Node nm cs).
  destruct (clean_clades_at self c cells level) as [clean|] eqn:Hclean; [|by eexists].
  apply clean_clades_at_Some in Hclean as (_ & Hfilter & Hsub).
  assert (Hkids : forall cl, cl ∈ clean ->
            forall cells level st, is_Some (assign_cells_to_clade self cl cells level st)).
  { intros cl Hcl. rewrite Forall_forall in IHcs. apply IHcs.
    by apply (sublist_subseteq _ _ Hsub). }
  destruct clean as [|c1 [|c2 cl]]; [by eexists|apply Hkids; by left|].
  set (clean := c1 :: c2 :: cl) in *.
  destruct (reaches_inference self c cells level); [|by eexists].
  assert (Hts : length (terminals_at self c) = length clean).
  { unfold terminals_at. by rewrite length_map, <- Hfilter. }
  destruct (Hwb (terminals_at self c) cells
              (calls (at_inference self c cells level st)))
    as (r & Hr & Hlen & Hrange & Hgs & Hap).
  { rewrite Hts. simpl. lia. }
  fold (gate_at self c cells) in Hr, Hgs, Hap.
  unfold before_recording. rewrite Hr. cbn [mbind option_bind].
  destruct (snapshot_total (name c) (gate_inputs (gate_at self c cells)) r
              (after_filter self c cells level st)) as [st2 Hst2].
  unfold at_inference. rewrite Hst2. cbn [mbind option_bind fst snd].
  rewrite Hts in Hrange.
  destruct (usable_tables_present (terminals_at self c) cells) as [Hcnv Hhscn].
  fold (gate_at self c cells) in Hcnv, Hhscn.
  destruct (record_step_total cells clean (gate_at self c cells) r st2
              Hlen Hrange Hcnv Hhscn Hgs Hap) as [st3 ->].
  cbn [mbind option_bind].
  destruct (record_ok self (none_freq r) && proceed_ok self (none_freq r)); [|by eexists].
  apply for_range_total. intros k t Hk.
  rewrite (descend_into_child self clean cells (clone_assign r) level k t Hlen).
  unfold visit_clean_child.
  destruct (lookup_lt_is_Some_2 clean k ltac:(lia)) as [ck Hck]. rewrite Hck.
  cbn [mbind option_bind]. apply Hkids. apply list_elem_of_lookup. by exists k.
Qed.

End Totality.

(** ** Writing one clade name to every cell of a list *)

Lemma assign_all_const_lookup cells n st x :
  x ∈ cells ->
  clone_assign_dict (assign_all (map (fun c => (c, n)) cells) st) !! x = Some n.
Proof.
  rewrite assign_all_dict. generalize (clone_assign_dict st) as d.
  induction cells as [|y cells IH] using rev_ind; intros d Hx; [by apply elem_of_nil in Hx|].
  rewrite map_app, foldl_app. simpl.
  destruct (decide (y = x)) as [-> | Hne]; [by rewrite lookup_insert_eq|].
  rewrite lookup_insert_ne by done. apply IH.
  apply elem_of_app in Hx as [Hx | Hx]; [done|].
  apply list_elem_of_singleton in Hx. congruence.
Qed.


(** ** A run *)

Section Runs.

Context `{CloneAlign} (self : Config).

Lemma run_eq st :
  assign_cells_to_tree self st
  = (cells ← input_cells self;
     assign_cells_to_clade self (tree self) cells 0
       (record_clone_assign_to_default cells (tree self) (reset_pruned st))).
Proof. reflexivity. Qed.

(** The events of a run: every cell is written the name of the root, then
    the root is visited with all the cells at level 0. *)
Lemma run_sound st st' :
  assign_cells_to_tree self st = Some st' ->
  exists cells tr,
    input_cells self = Some cells
    /\ trace st' = trace st ++ map (fun x => EvAssign x (name (tree self))) cells ++ tr
    /\ clone_assign_dict st'
       = replay (map (fun x => EvAssign x (name (tree self))) cells ++ tr) (clone_assign_dict st)
    /\ visit_tr (level_cutoff self) (tree self) cells 0 tr.
Proof.
  rewrite run_eq. destruct (input_cells self) as [cells|]; simpl; [|done].
  intros Hrun. destruct (visit_sound self _ _ _ _ _ Hrun) as (tr & Htr & Hd & Hvt).
  exists cells, tr. split; [done|].
  rewrite default_is_assign_all, assign_all_trace in Htr.
  rewrite default_is_assign_all, assign_all_dict, <- replay_assigns in Hd.
  rewrite map_map in Htr, Hd. simpl in Htr, Hd.
  split; [by rewrite Htr, <- app_assoc|]. split; [by rewrite Hd, replay_app|done].
Qed.

End Runs.

(** ** Cells whose returned index is missing *)



(** * The properties of the specification *)

Section Claims.

Context `{CloneAlign} (self : Config).

(** C1 (as amended).  In a visit that calls the inference procedure, [st2]
    being the state in which the call returns and [st3] the state after
    lines 269-281: if [1 - none_freq >= min_record_freq], the comparison of
    the two floats that line 269 makes, equality included, then [st3] is
    [st2] with the eligible cells committed per the returned index vector,
    with the gene-type scores accumulated when the total-copy-number track
    is usable and [infer_s_score] is set, and with the allele-assignment
    probabilities accumulated when the allele-specific track is usable and
    [infer_b_allele] is set; otherwise [st3] is [st2].  In both cases the
    visit continues from [st3] with the proceed decision. *)
Theorem recording_decision c cells level st clean r st2 st3 :
  reaches_inference self c cells level = true ->
  clean_clades_at self c cells level = Some clean ->
  before_recording self c cells level st = Some (r, st2) ->
  record_step self cells clean (gate_at self c cells) r st2 = Some st3 ->
  (if (min_record_freq self <=? 1 - none_freq r)%float
   then clone_assign_dict st3
        = commit clean cells (clone_assign r) (clone_assign_dict st2)
        /\ trace st3
           = trace st2 ++ map (fun w => EvAssign (fst w) (snd w))
                              (commit_writes clean cells (clone_assign r))
        /\ gene_type_score_dict st3
           = scores_after
               (has_total_copy_number_data (gate_at self c cells) && infer_s_score self)
               (in_cnv (gate_inputs (gate_at self c cells)))
               (out_params r !! "mean_gene_type_score")
               (gene_type_score_dict st2)
        /\ allele_assign_prob_dict st3
           = scores_after
               (has_allele_specific_data (gate_at self c cells) && infer_b_allele self)
               (in_hscn (gate_inputs (gate_at self c cells)))
               (out_params r !! "mean_allele_assign_prob")
               (allele_assign_prob_dict st2)
        /\ pruned_clades st3 = pruned_clades st2
        /\ params_dict st3 = params_dict st2
        /\ calls st3 = calls st2
   else st3 = st2)
  /\ assign_cells_to_clade self c cells level st
     = (if (min_record_freq self <=? 1 - none_freq r)%float
           && (min_proceed_freq self <=? 1 - none_freq r)%float
        then for_range (descend_into self clean cells (clone_assign r) level)
                       0 (length clean) st3
        else Some (prune_all clean st3)).
Proof.
  intros Hreach Hclean Hbefore Hrec.
  change (min_record_freq self <=? 1 - none_freq r)%float with (record_ok self (none_freq r)).
  change (min_proceed_freq self <=? 1 - none_freq r)%float with (proceed_ok self (none_freq r)).
  split.
  - destruct (record_ok self (none_freq r)) eqn:Hok.
    + rewrite (record_step_effect self _ _ _ _ _ _ Hrec Hok).
      unfold set_allele_assign_prob_dict, set_gene_type_score_dict.
      cbn [clone_assign_dict trace gene_type_score_dict allele_assign_prob_dict
           pruned_clades params_dict calls].
      rewrite assign_all_dict, assign_all_trace.
      destruct (assign_all_rest (commit_writes clean cells (clone_assign r)) st2)
        as (Hp & Hg & Ha & Hpd & Hc).
      rewrite Hp, Hpd, Hc. done.
    + by apply (record_step_skip self _ _ _ _ _ _ Hrec).
  - rewrite (visit_from_recording self c cells level st clean r st2 Hreach Hclean Hbefore).
    by rewrite Hrec.
Qed.

(** C2.  In a visit that calls the inference procedure, [st3] being the
    state after the recording step: if both [1 - none_freq >=
    min_record_freq] and [1 - none_freq >= min_proceed_freq] hold, as
    comparisons of floats with equality included (line 283), the visit
    is the succession, for [i] from 0, of the visits of clean child [i] at
    [level + 1] with the eligible cells whose returned index is [i], and the
    events it appends after [st3] are the traces of these visits, each
    clean child being entered with these cells at that level; otherwise
    the visit ends in [st3] with every clean child pruned, and appends no
    event after [st3]. *)
Theorem proceed_decision c cells level st clean r st2 st3 :
  reaches_inference self c cells level = true ->
  clean_clades_at self c cells level = Some clean ->
  before_recording self c cells level st = Some (r, st2) ->
  record_step self cells clean (gate_at self c cells) r st2 = Some st3 ->
  if (min_record_freq self <=? 1 - none_freq r)%float
     && (min_proceed_freq self <=? 1 - none_freq r)%float
  then assign_cells_to_clade self c cells level st
       = for_range (visit_clean_child self clean cells (clone_assign r) level)
                   0 (length clean) st3
       /\ forall st', assign_cells_to_clade self c cells level st = Some st' ->
            exists trs, trace st' = trace st3 ++ trs
                        /\ children_tr (level_cutoff self) clean clean cells (clone_assign r)
                                       (level + 1) 0 trs
                        /\ forall i cl, clean !! i = Some cl ->
                             EvVisit (name cl) (cells_with_index cells (clone_assign r) i)
                                     (level + 1) ∈ trs
  else assign_cells_to_clade self c cells level st = Some (prune_all clean st3)
       /\ pruned_clades (prune_all clean st3)
          = list_to_set (map name clean) ∪ pruned_clades st3
       /\ trace (prune_all clean st3) = trace st3
       /\ clone_assign_dict (prune_all clean st3) = clone_assign_dict st3
       /\ calls (prune_all clean st3) = calls st3.
Proof.
  intros Hreach Hclean Hbefore Hrec.
  change (min_record_freq self <=? 1 - none_freq r)%float with (record_ok self (none_freq r)).
  change (min_proceed_freq self <=? 1 - none_freq r)%float with (proceed_ok self (none_freq r)).
  pose proof (visit_from_recording self c cells level st clean r st2 Hreach Hclean Hbefore) as Heq.
  rewrite Hrec in Heq. cbn [mbind option_bind] in Heq.
  destruct (record_ok self (none_freq r) && proceed_ok self (none_freq r)) eqn:Hgo.
  - apply andb_true_iff in Hgo as [Hok _].
    pose proof (record_step_length self _ _ _ _ _ _ Hrec Hok) as Hlen.
    split.
    + rewrite Heq. apply for_range_ext. intros k s. by apply descend_into_child.
    + intros st' Hrun. rewrite Heq in Hrun.
      apply clean_clades_at_Some in Hclean as (_ & _ & Hsub).
      assert (Hall : Forall (visit_sound_at self) clean).
      { apply Forall_forall. intros x _. apply visit_sound. }
      destruct (children_sound self clean cells (clone_assign r) level Hall
                  (length clean) 0 st3 st' eq_refl Hrun) as (trs & Htrs & _ & Hct).
      rewrite drop_0 in Hct. exists trs. split; [done|]. split; [done|].
      intros i cl Hi. by apply (children_tr_visits _ _ _ _ _ _ _ _ Hct i cl Hi).
  - split; [done|]. split; [apply prune_all_pruned|].
    destruct (prune_all_only_pruned clean st3) as (Hd & _ & _ & _ & _ & Hc & Ht). done.
Qed.

(** C3.  After a run that completes, [clone_assign_dict] is defined on every
    input cell: the initialization maps every input cell to the name of the
    root, and neither the run nor any visit removes an entry. *)
Theorem assignment_total cells st st' :
  input_cells self = Some cells ->
  assign_cells_to_tree self st = Some st' ->
  (forall x, x ∈ cells ->
     clone_assign_dict (record_clone_assign_to_default cells (tree self) (reset_pruned st)) !! x
     = Some (name (tree self)))
  /\ (forall c cells' level s s' x,
        assign_cells_to_clade self c cells' level s = Some s' ->
        is_Some (clone_assign_dict s !! x) -> is_Some (clone_assign_dict s' !! x))
  /\ (forall x, is_Some (clone_assign_dict st !! x) -> is_Some (clone_assign_dict st' !! x))
  /\ (forall x, x ∈ cells -> is_Some (clone_assign_dict st' !! x)).
Proof.
  intros Hcells Hrun.
  assert (Hvisit : forall c cells' level s s' x,
             assign_cells_to_clade self c cells' level s = Some s' ->
             is_Some (clone_assign_dict s !! x) -> is_Some (clone_assign_dict s' !! x)).
  { intros c cells' level s s' x Hv Hx.
    destruct (visit_sound self _ _ _ _ _ Hv) as (tr & _ & -> & _). by apply replay_is_Some. }
  assert (Hinit : forall x, x ∈ cells ->
             clone_assign_dict (record_clone_assign_to_default cells (tree self) (reset_pruned st)) !! x
             = Some (name (tree self))).
  { intros x Hx. rewrite default_is_assign_all. by apply assign_all_const_lookup. }
  rewrite run_eq, Hcells in Hrun. simpl in Hrun.
  repeat split; [done|done| |].
  - intros x Hx. apply (Hvisit _ _ _ _ _ x Hrun).
    rewrite default_is_assign_all, assign_all_dict, <- replay_assigns.
    by apply replay_is_Some.
  - intros x Hx. apply (Hvisit _ _ _ _ _ x Hrun). rewrite (Hinit x Hx). by eexists.
Qed.


(** C10.  The cells of a run are the columns of the expression table when
    there is one, and otherwise the columns of the SNV table; with neither
    table the run raises.  These cells are the ones initialized and the ones
    the root is visited with, at level 0. *)
Theorem run_cells st :
  (forall e, expr_df self = Some e -> input_cells self = Some (columns e))
  /\ (forall s, expr_df self = None -> snv_df self = Some s ->
        input_cells self = Some (columns s))
  /\ (expr_df self = None -> snv_df self = None -> assign_cells_to_tree self st = None)
  /\ (forall cells, input_cells self = Some cells ->
        assign_cells_to_tree self st
        = assign_cells_to_clade self (tree self) cells 0
            (record_clone_assign_to_default cells (tree self) (reset_pruned st))
        /\ trace (record_clone_assign_to_default cells (tree self) (reset_pruned st))
           = trace st ++ map (fun x => EvAssign x (name (tree self))) cells
        /\ forall st', assign_cells_to_tree self st = Some st' ->
             exists tr, trace st'
                        = trace st ++ map (fun x => EvAssign x (name (tree self))) cells
                            ++ EvVisit (name (tree self)) cells 0 :: tr).
Proof.
  split; [|split; [|split]].
  - unfold input_cells. by intros e ->.
  - unfold input_cells. by intros s -> ->.
  - intros He Hs. rewrite run_eq. unfold input_cells. by rewrite He, Hs.
  - intros cells Hcells. split; [|split].
    + by rewrite run_eq, Hcells.
    + rewrite default_is_assign_all, assign_all_trace, map_map. done.
    + intros st' Hrun.
      destruct (run_sound self st st' Hrun) as (cells' & tr & Hc & Htr & _ & Hvt).
      rewrite Hcells in Hc. injection Hc as <-.
      apply visit_tr_head in Hvt as [tr' ->]. by exists tr'.
Qed.

(** C5 (as amended).  In a run on pairwise distinct input cells, the values
    written to the entry of an input cell are the name of the root followed
    by the names of a
    chain of clades, each a direct child of the one before and the first a
    direct child of the root; the final value is the last of them.  A cell
    that is not an input cell is not written. *)
Theorem monotone_refinement cells st st' :
  input_cells self = Some cells ->
  NoDup cells ->
  assign_cells_to_tree self st = Some st' ->
  exists tr,
    trace st' = trace st ++ tr
    /\ clone_assign_dict st' = replay tr (clone_assign_dict st)
    /\ (forall x, x ∈ cells ->
          exists p, assigned_to x tr = name (tree self) :: p
                    /\ lineage (tree self) p
                    /\ clone_assign_dict st' !! x = last (name (tree self) :: p))
    /\ (forall x, x ∉ cells -> assigned_to x tr = []).
Proof.
  intros Hcells Hnd Hrun.
  destruct (run_sound self st st' Hrun) as (cells' & tr & Hc & Htr & Hd & Hvt).
  rewrite Hcells in Hc. injection Hc as <-.
  exists (map (fun x => EvAssign x (name (tree self))) cells ++ tr).
  split; [done|]. split; [done|]. split.
  - intros x Hx. exists (assigned_to x tr).
    assert (Ha : assigned_to x (map (fun x => EvAssign x (name (tree self))) cells ++ tr)
                 = name (tree self) :: assigned_to x tr).
    { rewrite assigned_to_app.
      pose proof (assigned_to_bypass x (name (tree self)) cells Hnd Hx) as Hb.
      rewrite map_map in Hb. simpl in Hb. by rewrite Hb. }
    split; [done|]. split.
    + by apply (proj1 (visit_tr_lineage (level_cutoff self)) _ _ _ _ Hvt Hnd).
    + rewrite Hd, replay_lookup, Ha, last_cons. by destruct (last _).
  - intros x Hx. rewrite assigned_to_app, (visit_tr_outside _ _ _ _ _ _ Hvt Hx), app_nil_r.
    pose proof (assigned_to_assigns_outside x (map (fun y => (y, name (tree self))) cells)) as Hb.
    rewrite !map_map in Hb. simpl in Hb. rewrite map_id in Hb. by apply Hb.
Qed.

(** C7.  The traversal is a total function, defined by structural recursion
    on the tree.  A visit entered with [level > level_cutoff] prunes its
    clade and returns.  The levels of the visits of any visit, in call
    order, are those of a call tree in which each nested call is one level
    below its caller; all of them but the first exceed the level of the
    visit and none exceeds [level_cutoff + 1]; and there are at most as
    many visits as the visited clade has clades.  For a run: the root is
    visited at level 0, every recursive visit is at a level from 1 to
    [level_cutoff + 1], and the run makes at most as many visits as the
    tree has clades.  With a well-behaved parent class no visit raises, and
    a run with an input table returns a state. *)
Theorem traversal_bounded :
  (forall c cells level s,
     level_cutoff self < level ->
     assign_cells_to_clade self c cells level s
     = Some (prune (name c) (enter (name c) cells level s)))
  /\ (forall c cells level s s',
        assign_cells_to_clade self c cells level s = Some s' ->
        exists tr rest,
          trace s' = trace s ++ tr
          /\ visit_levels tr = level :: rest
          /\ Forall (fun l => level < l <= level_cutoff self + 1) rest
          /\ call_levels (level_cutoff self) level (level :: rest)
          /\ (length (visit_levels tr) <= clade_count c)%nat)
  /\ (forall st st',
        assign_cells_to_tree self st = Some st' ->
        exists tr rest,
          trace st' = trace st ++ tr
          /\ visit_levels tr = 0 :: rest
          /\ Forall (fun l => 0 < l <= level_cutoff self + 1) rest
          /\ call_levels (level_cutoff self) 0 (0 :: rest)
          /\ (length (visit_levels tr) <= clade_count (tree self))%nat)
  /\ (well_behaved ->
      (forall c cells level s, is_Some (assign_cells_to_clade self c cells level s))
      /\ (forall st, is_Some (input_cells self) -> is_Some (assign_cells_to_tree self st))).
Proof.
  split; [|split; [|split]].
  - intros c cells level s Hlevel. rewrite visit_eq.
    unfold clean_clades_at, passes_guards.
    apply Z.ltb_lt in Hlevel. by rewrite Hlevel.
  - intros c cells level s s' Hv.
    destruct (visit_sound self _ _ _ _ _ Hv) as (tr & Htr & _ & Hvt).
    destruct (proj1 (visit_tr_levels (level_cutoff self)) _ _ _ _ Hvt) as (rest & Hlv & Hb & Hcl).
    exists tr, rest. repeat split; try done.
    by apply (proj1 (visit_tr_count (level_cutoff self)) _ _ _ _ Hvt).
  - intros st st' Hrun.
    destruct (run_sound self st st' Hrun) as (cells & tr & _ & Htr & _ & Hvt).
    destruct (proj1 (visit_tr_levels (level_cutoff self)) _ _ _ _ Hvt) as (rest & Hlv & Hb & Hcl).
    exists (map (fun x => EvAssign x (name (tree self))) cells ++ tr), rest.
    assert (Hlevels : visit_levels (map (fun x => EvAssign x (name (tree self))) cells ++ tr)
                      = visit_levels tr).
    { rewrite visit_levels_app.
      pose proof (visit_levels_assigns (map (fun y => (y, name (tree self))) cells)) as Hz.
      rewrite map_map in Hz. simpl in Hz. by rewrite Hz. }
    rewrite Hlevels. repeat split; try done.
    by apply (proj1 (visit_tr_count (level_cutoff self)) _ _ _ _ Hvt).
  - intros Hwb. split; [by apply visit_total|].
    intros st [cells Hcells]. rewrite run_eq, Hcells. cbn [mbind option_bind].
    by apply visit_total.
Qed.

(** C8.  A table is valid exactly when it is present with at least one row
    and at least one column, and [check_valid_df_input] holds exactly when
    every table it is given is valid; the total-copy-number track is usable
    exactly when the expression input and the consensus copy-number table
    are both valid, the allele-specific track exactly when the haplotype
    copy-number, SNV-allele and SNV tables are all valid.  A visit with at
    least two clean children for which neither track is usable prunes every
    clean child and stops: no inference call, no assignment changed, no
    accumulator changed, no further visit. *)
Theorem input_gate c cells level st clean :
  clean_clades_at self c cells level = Some clean ->
  (2 <= length clean)%nat ->
  ~ (table_valid (in_expr (constructed (terminals_at self c) cells))
     /\ table_valid (in_cnv (constructed (terminals_at self c) cells))) ->
  ~ (table_valid (in_hscn (constructed (terminals_at self c) cells))
     /\ table_valid (in_snv_allele (constructed (terminals_at self c) cells))
     /\ table_valid (in_snv (constructed (terminals_at self c) cells))) ->
  (forall argv, check_valid_df_input argv = true <-> forall t, t ∈ argv -> table_valid t)
  /\ (forall t, check_valid_df_input [t] = true
                <-> exists df, t = Some df /\ 1 <= shape0 df /\ 1 <= shape1 df)
  /\ (forall ts cs,
        (has_total_copy_number_data (build_inputs ts cs) = true
         <-> table_valid (in_expr (constructed ts cs))
             /\ table_valid (in_cnv (constructed ts cs)))
        /\ (has_allele_specific_data (build_inputs ts cs) = true
            <-> table_valid (in_hscn (constructed ts cs))
                /\ table_valid (in_snv_allele (constructed ts cs))
                /\ table_valid (in_snv (constructed ts cs))))
  /\ (forall ts cs,
        has_total_copy_number_data (build_inputs ts cs)
        = check_valid_df_input [in_expr (constructed ts cs); in_cnv (constructed ts cs)]
        /\ has_allele_specific_data (build_inputs ts cs)
           = check_valid_df_input [in_hscn (constructed ts cs);
                                   in_snv_allele (constructed ts cs);
                                   in_snv (constructed ts cs)])
  /\ assign_cells_to_clade self c cells level st
     = Some (prune_all clean (after_filter self c cells level st))
  /\ pruned_clades (prune_all clean (after_filter self c cells level st))
     = list_to_set (map name clean) ∪ pruned_clades (after_filter self c cells level st)
  /\ calls (prune_all clean (after_filter self c cells level st)) = calls st
  /\ clone_assign_dict (prune_all clean (after_filter self c cells level st))
     = clone_assign_dict st
  /\ gene_type_score_dict (prune_all clean (after_filter self c cells level st))
     = gene_type_score_dict st
  /\ allele_assign_prob_dict (prune_all clean (after_filter self c cells level st))
     = allele_assign_prob_dict st
  /\ trace (prune_all clean (after_filter self c cells level st))
     = trace st ++ [EvVisit (name c) cells level].
Proof.
  intros Hclean Hlen Hnototal Hnoallele.
  assert (Hvalid : forall t, valid_df t = true <-> table_valid t).
  { intros t. unfold valid_df, table_valid, shape0, shape1.
    destruct t as [df|]; [|split; [done|by intros (? & ? & _)]].
    rewrite andb_true_iff, !negb_true_iff, !Z.eqb_neq. split.
    - intros [Hr Hc]. exists df. split; [done|]. lia.
    - intros (df' & [= <-] & Hr & Hc). lia. }
  assert (Hcheck : forall argv,
             check_valid_df_input argv = true <-> forall t, t ∈ argv -> table_valid t).
  { intros argv. unfold check_valid_df_input. rewrite forallb_forall. split.
    - intros Hall t Ht. apply Hvalid, Hall. by apply list_elem_of_In.
    - intros Hall t Ht. apply Hvalid, Hall. by apply list_elem_of_In. }
  assert (Hflags : forall ts cs,
             has_total_copy_number_data (build_inputs ts cs)
             = check_valid_df_input [in_expr (constructed ts cs); in_cnv (constructed ts cs)]
             /\ has_allele_specific_data (build_inputs ts cs)
                = check_valid_df_input [in_hscn (constructed ts cs);
                                        in_snv_allele (constructed ts cs);
                                        in_snv (constructed ts cs)]).
  { intros ts cs. unfold build_inputs, constructed.
    destruct (construct_total_copy_number_input ts cs) as [e cnv].
    destruct (construct_allele_specific_input ts cs) as [[h a] s].
    destruct (make_columns_consistent e a s) as [[e' a'] s']. simpl.
    by destruct (valid_df e' && (valid_df cnv && true)),
                (valid_df h && (valid_df a' && (valid_df s' && true))). }
  assert (Husable : forall ts cs,
             (has_total_copy_number_data (build_inputs ts cs) = true
              <-> table_valid (in_expr (constructed ts cs))
                  /\ table_valid (in_cnv (constructed ts cs)))
             /\ (has_allele_specific_data (build_inputs ts cs) = true
                 <-> table_valid (in_hscn (constructed ts cs))
                     /\ table_valid (in_snv_allele (constructed ts cs))
                     /\ table_valid (in_snv (constructed ts cs)))).
  { intros ts cs. destruct (Hflags ts cs) as [-> ->]. rewrite !Hcheck. split.
    - split.
      + intros Hall. split; apply Hall; set_solver.
      + intros [He Hc] t Ht. apply elem_of_cons in Ht as [-> | Ht]; [done|].
        apply list_elem_of_singleton in Ht. by subst t.
    - split.
      + intros Hall. split; [|split]; apply Hall; set_solver.
      + intros (Hh & Ha & Hs) t Ht. apply elem_of_cons in Ht as [-> | Ht]; [done|].
        apply elem_of_cons in Ht as [-> | Ht]; [done|].
        apply list_elem_of_singleton in Ht. by subst t. }
  assert (Htotal : has_total_copy_number_data (gate_at self c cells) = false).
  { apply not_true_is_false. intros Ht. by apply Hnototal, Husable. }
  assert (Hallele : has_allele_specific_data (gate_at self c cells) = false).
  { apply not_true_is_false. intros Ha. by apply Hnoallele, Husable. }
  split; [exact Hcheck|]. split.
  { intros t. rewrite Hcheck. split.
    - intros Hall. apply Hall. by left.
    - intros Ht t' Ht'%list_elem_of_singleton. by subst t'. }
  split; [exact Husable|]. split; [exact Hflags|]. split; [|split].
  - rewrite visit_eq, Hclean. destruct clean as [|c1 [|c2 cl]]; [simpl in Hlen; lia..|].
    unfold reaches_inference. rewrite Hclean, Htotal, Hallele. done.
  - apply prune_all_pruned.
  - destruct (prune_all_only_pruned clean (after_filter self c cells level st))
      as (Hd & _ & Hg & Ha & _ & Hc & Ht).
    destruct (after_filter_only_pruned self c cells level st)
      as (Hd' & _ & Hg' & Ha' & _ & Hc' & Ht').
    simpl in Hd', Hg', Ha', Hc', Ht'.
    rewrite Hd, Hg, Ha, Hc, Ht, Hd', Hg', Ha', Hc', Ht'. done.
Qed.


End Claims.

(** * The properties on the worked example *)

(** A closed equation between results of the engine, by evaluation. *)
Ltac evaluate := vm_compute; reflexivity.

Section Witnesses.

#[local] Existing Instance ex_stub.

(** The recording decision in the visit of [root], where both tracks are
    usable.  With [min_record_freq] equal to [1 - none_freq] the result is
    recorded; with [min_record_freq] above [1 - none_freq] nothing is
    recorded and the clean children are pruned. *)
Lemma recording_decision_witness :
  reaches_inference ex_cfg_edge ex_root ex_cells 1 = true /\
  clean_clades_at ex_cfg_edge ex_root ex_cells 1 = Some [ex_A; ex_B] /\
  before_recording ex_cfg_edge ex_root ex_cells 1 ex_fresh = Some (ex_r, ex_st2) /\
  record_step ex_cfg_edge ex_cells [ex_A; ex_B] (gate_at ex_cfg_edge ex_root ex_cells)
              ex_r ex_st2
  = Some ex_st3 /\
  (1 - none_freq ex_r)%float = min_record_freq ex_cfg_edge /\
  clone_assign_dict ex_st3
  = commit [ex_A; ex_B] ex_cells (clone_assign ex_r) (clone_assign_dict ex_st2) /\
  gene_type_score_dict ex_st3
  = accumulate_scores (gene_type_score_dict ex_st2) ["g1"; "g2"] [0.5%float; 0.25%float] /\
  allele_assign_prob_dict ex_st3
  = accumulate_scores (allele_assign_prob_dict ex_st2) ["s1"] [0.75%float] /\
  reaches_inference ex_cfg_skip ex_root ex_cells 1 = true /\
  clean_clades_at ex_cfg_skip ex_root ex_cells 1 = Some [ex_A; ex_B] /\
  before_recording ex_cfg_skip ex_root ex_cells 1 ex_fresh = Some (ex_r, ex_st2) /\
  record_step ex_cfg_skip ex_cells [ex_A; ex_B] (gate_at ex_cfg_skip ex_root ex_cells)
              ex_r ex_st2
  = Some ex_st2 /\
  (min_record_freq ex_cfg_skip <=? 1 - none_freq ex_r)%float = false /\
  assign_cells_to_clade ex_cfg_skip ex_root ex_cells 1 ex_fresh
  = Some (prune_all [ex_A; ex_B] ex_st2).
Proof.
  assert (Hreach : reaches_inference ex_cfg_edge ex_root ex_cells 1 = true) by evaluate.
  assert (Hclean : clean_clades_at ex_cfg_edge ex_root ex_cells 1 = Some [ex_A; ex_B])
    by evaluate.
  assert (Hb : before_recording ex_cfg_edge ex_root ex_cells 1 ex_fresh = Some (ex_r, ex_st2))
    by evaluate.
  assert (Hr : record_step ex_cfg_edge ex_cells [ex_A; ex_B]
                           (gate_at ex_cfg_edge ex_root ex_cells) ex_r ex_st2
               = Some ex_st3) by evaluate.
  assert (Hedge : (1 - none_freq ex_r)%float = min_record_freq ex_cfg_edge) by evaluate.
  assert (Hok : (min_record_freq ex_cfg_edge <=? 1 - none_freq ex_r)%float = true)
    by evaluate.
  assert (Hreach' : reaches_inference ex_cfg_skip ex_root ex_cells 1 = true) by evaluate.
  assert (Hclean' : clean_clades_at ex_cfg_skip ex_root ex_cells 1 = Some [ex_A; ex_B])
    by evaluate.
  assert (Hb' : before_recording ex_cfg_skip ex_root ex_cells 1 ex_fresh = Some (ex_r, ex_st2))
    by evaluate.
  assert (Hr' : record_step ex_cfg_skip ex_cells [ex_A; ex_B]
                            (gate_at ex_cfg_skip ex_root ex_cells) ex_r ex_st2
                = Some ex_st2) by evaluate.
  assert (Hno : (min_record_freq ex_cfg_skip <=? 1 - none_freq ex_r)%float = false)
    by evaluate.
  destruct (recording_decision ex_cfg_edge ex_root ex_cells 1 ex_fresh [ex_A; ex_B]
              ex_r ex_st2 ex_st3 Hreach Hclean Hb Hr) as [Hrec _].
  rewrite Hok in Hrec. destruct Hrec as (Hd & _ & Hg & Ha & _).
  destruct (recording_decision ex_cfg_skip ex_root ex_cells 1 ex_fresh [ex_A; ex_B]
              ex_r ex_st2 ex_st2 Hreach' Hclean' Hb' Hr') as [_ Hvisit].
  rewrite Hno in Hvisit.
  split; [exact Hreach|]. split; [exact Hclean|]. split; [exact Hb|]. split; [exact Hr|].
  split; [exact Hedge|]. split; [exact Hd|]. split; [exact Hg|]. split; [exact Ha|].
  split; [exact Hreach'|]. split; [exact Hclean'|]. split; [exact Hb'|].
  split; [exact Hr'|]. split; [exact Hno|exact Hvisit].
Defined.

(** The proceed decision in the visit of [root].  With both thresholds equal
    to [1 - none_freq] the visit descends into the clean children; with
    [min_proceed_freq] above [1 - none_freq] the result is recorded and the
    clean children are pruned. *)
Lemma proceed_decision_witness :
  reaches_inference ex_cfg_edge ex_root ex_cells 1 = true /\
  clean_clades_at ex_cfg_edge ex_root ex_cells 1 = Some [ex_A; ex_B] /\
  before_recording ex_cfg_edge ex_root ex_cells 1 ex_fresh = Some (ex_r, ex_st2) /\
  record_step ex_cfg_edge ex_cells [ex_A; ex_B] (gate_at ex_cfg_edge ex_root ex_cells)
              ex_r ex_st2
  = Some ex_st3 /\
  (1 - none_freq ex_r)%float = min_record_freq ex_cfg_edge /\
  (1 - none_freq ex_r)%float = min_proceed_freq ex_cfg_edge /\
  assign_cells_to_clade ex_cfg_edge ex_root ex_cells 1 ex_fresh
  = for_range (visit_clean_child ex_cfg_edge [ex_A; ex_B] ex_cells (clone_assign ex_r) 1)
              0 2 ex_st3 /\
  reaches_inference ex_cfg_stop ex_root ex_cells 1 = true /\
  clean_clades_at ex_cfg_stop ex_root ex_cells 1 = Some [ex_A; ex_B] /\
  before_recording ex_cfg_stop ex_root ex_cells 1 ex_fresh = Some (ex_r, ex_st2) /\
  record_step ex_cfg_stop ex_cells [ex_A; ex_B] (gate_at ex_cfg_stop ex_root ex_cells)
              ex_r ex_st2
  = Some ex_st3 /\
  (min_record_freq ex_cfg_stop <=? 1 - none_freq ex_r)%float = true /\
  (min_proceed_freq ex_cfg_stop <=? 1 - none_freq ex_r)%float = false /\
  assign_cells_to_clade ex_cfg_stop ex_root ex_cells 1 ex_fresh
  = Some (prune_all [ex_A; ex_B] ex_st3).
Proof.
  assert (Hreach : reaches_inference ex_cfg_edge ex_root ex_cells 1 = true) by evaluate.
  assert (Hclean : clean_clades_at ex_cfg_edge ex_root ex_cells 1 = Some [ex_A; ex_B])
    by evaluate.
  assert (Hb : before_recording ex_cfg_edge ex_root ex_cells 1 ex_fresh = Some (ex_r, ex_st2))
    by evaluate.
  assert (Hr : record_step ex_cfg_edge ex_cells [ex_A; ex_B]
                           (gate_at ex_cfg_edge ex_root ex_cells) ex_r ex_st2
               = Some ex_st3) by evaluate.
  assert (Hedge : (1 - none_freq ex_r)%float = min_record_freq ex_cfg_edge) by evaluate.
  assert (Hedge' : (1 - none_freq ex_r)%float = min_proceed_freq ex_cfg_edge) by evaluate.
  assert (Hgo : (min_record_freq ex_cfg_edge <=? 1 - none_freq ex_r)%float
                && (min_proceed_freq ex_cfg_edge <=? 1 - none_freq ex_r)%float = true)
    by evaluate.
  assert (Hreach' : reaches_inference ex_cfg_stop ex_root ex_cells 1 = true) by evaluate.
  assert (Hclean' : clean_clades_at ex_cfg_stop ex_root ex_cells 1 = Some [ex_A; ex_B])
    by evaluate.
  assert (Hb' : before_recording ex_cfg_stop ex_root ex_cells 1 ex_fresh = Some (ex_r, ex_st2))
    by evaluate.
  assert (Hr' : record_step ex_cfg_stop ex_cells [ex_A; ex_B]
                            (gate_at ex_cfg_stop ex_root ex_cells) ex_r ex_st2
                = Some ex_st3) by evaluate.
  assert (Hrecord : (min_record_freq ex_cfg_stop <=? 1 - none_freq ex_r)%float = true)
    by evaluate.
  assert (Hstop : (min_proceed_freq ex_cfg_stop <=? 1 - none_freq ex_r)%float = false)
    by evaluate.
  pose proof (proceed_decision ex_cfg_edge ex_root ex_cells 1 ex_fresh [ex_A; ex_B]
                ex_r ex_st2 ex_st3 Hreach Hclean Hb Hr) as Hp.
  rewrite Hgo in Hp.
  pose proof (proceed_decision ex_cfg_stop ex_root ex_cells 1 ex_fresh [ex_A; ex_B]
                ex_r ex_st2 ex_st3 Hreach' Hclean' Hb' Hr') as Hq.
  rewrite Hrecord, Hstop in Hq. cbn [andb] in Hq.
  split; [exact Hreach|]. split; [exact Hclean|]. split; [exact Hb|]. split; [exact Hr|].
  split; [exact Hedge|]. split; [exact Hedge'|]. split; [exact (proj1 Hp)|].
  split; [exact Hreach'|]. split; [exact Hclean'|]. split; [exact Hb'|].
  split; [exact Hr'|]. split; [exact Hrecord|]. split; [exact Hstop|exact (proj1 Hq)].
Defined.

(** A run on the example is defined on the four cells. *)
Lemma assignment_total_witness :
  input_cells ex_cfg = Some ex_cells /\
  assign_cells_to_tree ex_cfg ex_fresh = Some ex_final /\
  forall x, x ∈ ex_cells -> is_Some (clone_assign_dict ex_final !! x).
Proof.
  assert (Hcells : input_cells ex_cfg = Some ex_cells) by reflexivity.
  assert (Hrun : assign_cells_to_tree ex_cfg ex_fresh = Some ex_final) by evaluate.
  split; [exact Hcells|]. split; [exact Hrun|].
  exact (proj2 (proj2 (proj2 (assignment_total ex_cfg ex_cells ex_fresh ex_final Hcells Hrun)))).
Defined.


(** The values written to each cell in a run on the example. *)
Lemma monotone_refinement_witness :
  input_cells ex_cfg = Some ex_cells /\
  NoDup ex_cells /\
  assign_cells_to_tree ex_cfg ex_fresh = Some ex_final /\
  forall x, x ∈ ex_cells ->
    exists p, assigned_to x ex_run_trace = "top" :: p /\ lineage ex_top p.
Proof.
  assert (Hcells : input_cells ex_cfg = Some ex_cells) by reflexivity.
  assert (Hnd : NoDup ex_cells)
    by (apply (bool_decide_unpack (NoDup ex_cells)); vm_compute; exact I).
  assert (Hrun : assign_cells_to_tree ex_cfg ex_fresh = Some ex_final) by evaluate.
  split; [exact Hcells|]. split; [exact Hnd|]. split; [exact Hrun|].
  destruct (monotone_refinement ex_cfg ex_cells ex_fresh ex_final Hcells Hnd Hrun)
    as (tr & Htr & _ & Hin & _).
  simpl in Htr. subst tr.
  intros x Hx. destruct (Hin x Hx) as (p & Hp & Hlin & _). by exists p.
Defined.

(** C5, as stated, fails.  The input cells are the column labels of the
    expression table, and a label may occur twice.  With the label [x] on
    two columns and an inference that puts the first column in [A] and the
    second in [B], the run writes to the entry of [x] the root twice, then
    [A], then [B]: the second write replaces the root by the root, and the
    last one replaces [A] by [B], which is not a child of [A] but its
    sibling.  The values written to [x] are not the root followed by a
    chain of clades each a child of the one before. *)
Lemma duplicate_cells_write_siblings :
  input_cells ex_cfg_dup = Some ["x"; "x"] /\
  "x" ∈ ["x"; "x"] /\
  ~ NoDup ["x"; "x"] /\
  @assign_cells_to_tree ex_by_position ex_cfg_dup ex_fresh = Some ex_final_dup /\
  trace ex_final_dup = trace ex_fresh ++ ex_dup_trace /\
  assigned_to "x" ex_dup_trace = ["root"; "root"; "A"; "B"] /\
  clone_assign_dict ex_final_dup !! "x" = Some "B" /\
  ex_A ∈ clades (tree ex_cfg_dup) /\
  ex_B ∈ clades (tree ex_cfg_dup) /\
  ~ lineage ex_A ["B"] /\
  ~ (exists p, assigned_to "x" ex_dup_trace = name (tree ex_cfg_dup) :: p
               /\ lineage (tree ex_cfg_dup) p).
Proof.
  split; [reflexivity|]. split; [by left|]. split.
  { intros Hnd. apply NoDup_cons in Hnd as [Hnot _]. apply Hnot. by left. }
  split; [evaluate|]. split; [reflexivity|]. split; [evaluate|]. split; [evaluate|].
  split; [by left|]. split; [right; by left|]. split.
  - intros Hl. inversion Hl as [|c ch p Hch Hrest]; subst.
    match goal with Hn : name ch = _ |- _ => rename Hn into Hname end.
    simpl in Hch.
    apply elem_of_cons in Hch as [-> | Hch]; [discriminate Hname|].
    apply elem_of_cons in Hch as [-> | Hch]; [discriminate Hname|].
    by apply elem_of_nil in Hch.
  - intros (p & Hp & Hl).
    assert (Heq : assigned_to "x" ex_dup_trace = ["root"; "root"; "A"; "B"]) by evaluate.
    rewrite Heq in Hp. injection Hp as <-.
    inversion Hl as [|c ch p Hch Hrest]; subst.
    match goal with Hn : name ch = _ |- _ => rename Hn into Hname end.
    simpl in Hch.
    apply elem_of_cons in Hch as [-> | Hch]; [discriminate Hname|].
    apply elem_of_cons in Hch as [-> | Hch]; [discriminate Hname|].
    apply elem_of_cons in Hch as [-> | Hch]; [discriminate Hname|].
    by apply elem_of_nil in Hch.
Qed.

(** The stand-in of the example is well behaved. *)
Lemma ex_index_range cells k j :
  map ex_index cells !! k = Some (Some j) -> 0 <= j < 2.
Proof.
  rewrite list_lookup_fmap. destruct (cells !! k) as [c|]; [|done]. simpl.
  unfold ex_index. repeat case_bool_decide; intros [= <-]; lia.
Qed.

Lemma ex_params_present inp :
  out_params (ex_inference inp) !! "mean_gene_type_score" = Some (Some [0.5%float; 0.25%float])
  /\ out_params (ex_inference inp) !! "mean_allele_assign_prob" = Some (Some [0.75%float]).
Proof. split; reflexivity. Qed.

Lemma ex_stub_well_behaved : well_behaved.
Proof.
  intros ts cells n Hts. exists (ex_inference (gate_inputs (build_inputs ts cells))).
  split; [reflexivity|].
  destruct (ex_params_present (gate_inputs (build_inputs ts cells))) as [Hg Ha].
  split; [|split; [|split]].
  - destruct ts as [|t1 [|t2 ts]]; [simpl in Hts; lia..|].
    destruct cells as [|c cells]; [simpl; lia|].
    cbn. by rewrite length_map.
  - intros k j Hk. apply ex_index_range in Hk. lia.
  - intros d Hd. eexists. split; [exact Hg|]. intros v [= <-].
    unfold build_inputs in Hd.
    cbn [construct_total_copy_number_input construct_allele_specific_input
         make_columns_consistent ex_stub] in Hd.
    destruct (check_valid_df_input _) in Hd; destruct (check_valid_df_input _) in Hd;
      cbn in Hd; try discriminate Hd; injection Hd as <-; simpl; lia.
  - intros d Hd. eexists. split; [exact Ha|]. intros v [= <-].
    unfold build_inputs in Hd.
    cbn [construct_total_copy_number_input construct_allele_specific_input
         make_columns_consistent ex_stub] in Hd.
    destruct (check_valid_df_input _) in Hd; destruct (check_valid_df_input _) in Hd;
      cbn in Hd; try discriminate Hd; injection Hd as <-; simpl; lia.
Qed.

(** The levels of the visits of a run on the example, and the runs of the
    example from any state. *)
Lemma traversal_bounded_witness :
  assign_cells_to_tree ex_cfg ex_fresh = Some ex_final /\
  (exists rest,
     visit_levels ex_run_trace = 0 :: rest
     /\ Forall (fun l => 0 < l <= 11) rest
     /\ (length (visit_levels ex_run_trace) <= clade_count ex_top)%nat) /\
  forall st, is_Some (assign_cells_to_tree ex_cfg st).
Proof.
  assert (Hrun : assign_cells_to_tree ex_cfg ex_fresh = Some ex_final) by evaluate.
  destruct (traversal_bounded ex_cfg) as (_ & _ & Hb & Htot).
  split; [exact Hrun|]. split.
  - destruct (Hb ex_fresh ex_final Hrun) as (tr & rest & Htr & Hlv & Hf & _ & Hn).
    simpl in Htr. subst tr. by exists rest.
  - intros st. apply (proj2 (Htot ex_stub_well_behaved)). by eexists.
Defined.

(** The visit of [root] when the builders find no data: no expression
    input on the total-copy-number track, no SNV-allele table on the
    allele-specific track. *)
Lemma input_gate_witness :
  clean_clades_at ex_cfg ex_root ex_cells 1 = Some [ex_A; ex_B] /\
  (2 <= length [ex_A; ex_B])%nat /\
  in_expr (@constructed ex_nodata (terminals_at ex_cfg ex_root) ex_cells) = None /\
  in_snv_allele (@constructed ex_nodata (terminals_at ex_cfg ex_root) ex_cells) = None /\
  ~ (table_valid (in_expr (@constructed ex_nodata (terminals_at ex_cfg ex_root) ex_cells))
     /\ table_valid (in_cnv (@constructed ex_nodata (terminals_at ex_cfg ex_root) ex_cells))) /\
  ~ (table_valid (in_hscn (@constructed ex_nodata (terminals_at ex_cfg ex_root) ex_cells))
     /\ table_valid (in_snv_allele
                       (@constructed ex_nodata (terminals_at ex_cfg ex_root) ex_cells))
     /\ table_valid (in_snv (@constructed ex_nodata (terminals_at ex_cfg ex_root) ex_cells))) /\
  @assign_cells_to_clade ex_nodata ex_cfg ex_root ex_cells 1 ex_fresh
  = Some (prune_all [ex_A; ex_B] (after_filter ex_cfg ex_root ex_cells 1 ex_fresh)) /\
  calls (prune_all [ex_A; ex_B] (after_filter ex_cfg ex_root ex_cells 1 ex_fresh)) = 0%nat.
Proof.
  assert (Hclean : clean_clades_at ex_cfg ex_root ex_cells 1 = Some [ex_A; ex_B])
    by evaluate.
  assert (Hlen : (2 <= length [ex_A; ex_B])%nat) by (simpl; lia).
  assert (He : in_expr (@constructed ex_nodata (terminals_at ex_cfg ex_root) ex_cells) = None)
    by evaluate.
  assert (Ha : in_snv_allele (@constructed ex_nodata (terminals_at ex_cfg ex_root) ex_cells)
               = None) by evaluate.
  assert (Hnototal :
            ~ (table_valid (in_expr (@constructed ex_nodata (terminals_at ex_cfg ex_root)
                                                  ex_cells))
               /\ table_valid (in_cnv (@constructed ex_nodata (terminals_at ex_cfg ex_root)
                                                    ex_cells)))).
  { rewrite He. by intros [(df & Hdf & _) _]. }
  assert (Hnoallele :
            ~ (table_valid (in_hscn (@constructed ex_nodata (terminals_at ex_cfg ex_root)
                                                  ex_cells))
               /\ table_valid (in_snv_allele
                                 (@constructed ex_nodata (terminals_at ex_cfg ex_root)
                                               ex_cells))
               /\ table_valid (in_snv (@constructed ex_nodata (terminals_at ex_cfg ex_root)
                                                    ex_cells)))).
  { rewrite Ha. by intros (_ & (df & Hdf & _) & _). }
  destruct (@input_gate ex_nodata ex_cfg ex_root ex_cells 1 ex_fresh [ex_A; ex_B]
              Hclean Hlen Hnototal Hnoallele)
    as (_ & _ & _ & _ & Heq & _ & Hc & _).
  split; [exact Hclean|]. split; [exact Hlen|]. split; [exact He|]. split; [exact Ha|].
  split; [exact Hnototal|]. split; [exact Hnoallele|].
  split; [exact Heq|exact Hc].
Defined.


(** The cells of a run on the example are the columns of its expression table. *)
Lemma run_cells_witness :
  input_cells ex_cfg = Some ex_cells /\
  assign_cells_to_tree ex_cfg ex_fresh
  = assign_cells_to_clade ex_cfg ex_top ex_cells 0
      (record_clone_assign_to_default ex_cells ex_top (reset_pruned ex_fresh)).
Proof.
  assert (Hcells : input_cells ex_cfg = Some ex_cells) by reflexivity.
  split; [exact Hcells|].
  destruct (run_cells ex_cfg ex_fresh) as (_ & _ & _ & Hrun).
  exact (proj1 (Hrun ex_cells Hcells)).
Defined.

(** C1, as stated, fails.  With [infer_s_score] and [infer_b_allele] off, a
    visit calls the inference procedure, the threshold is met, both tracks
    are usable, gene-type scores and allele-assignment probabilities come
    back, and the cells are committed; yet the recording step leaves
    [gene_type_score_dict] and [allele_assign_prob_dict] as they were. *)
Lemma recording_skips_scores_when_disabled :
  reaches_inference ex_cfg_off ex_root ex_cells 1 = true /\
  before_recording ex_cfg_off ex_root ex_cells 1 ex_fresh = Some (ex_r, ex_st2) /\
  record_step ex_cfg_off ex_cells [ex_A; ex_B] (gate_at ex_cfg_off ex_root ex_cells) ex_r ex_st2
  = Some ex_st3_off /\
  record_ok ex_cfg_off (none_freq ex_r) = true /\
  has_total_copy_number_data (gate_at ex_cfg_off ex_root ex_cells) = true /\
  has_allele_specific_data (gate_at ex_cfg_off ex_root ex_cells) = true /\
  in_cnv (gate_inputs (gate_at ex_cfg_off ex_root ex_cells))
  = Some (mkDF ["g1"; "g2"] ["clone"; "clone"]) /\
  in_hscn (gate_inputs (gate_at ex_cfg_off ex_root ex_cells))
  = Some (mkDF ["s1"] ["clone"; "clone"]) /\
  out_params ex_r !! "mean_gene_type_score" = Some (Some [0.5%float; 0.25%float]) /\
  out_params ex_r !! "mean_allele_assign_prob" = Some (Some [0.75%float]) /\
  gene_type_score_dict ex_st3_off = gene_type_score_dict ex_st2 /\
  allele_assign_prob_dict ex_st3_off = allele_assign_prob_dict ex_st2 /\
  gene_type_score_dict ex_st3_off
  <> accumulate_scores (gene_type_score_dict ex_st2) ["g1"; "g2"] [0.5%float; 0.25%float] /\
  allele_assign_prob_dict ex_st3_off
  <> accumulate_scores (allele_assign_prob_dict ex_st2) ["s1"] [0.75%float].
Proof.
  repeat (split; [evaluate|]). split.
  - intros Heq. apply (f_equal (fun m => m !! "g1")) in Heq. vm_compute in Heq. discriminate Heq.
  - intros Heq. apply (f_equal (fun m => m !! "s1")) in Heq. vm_compute in Heq. discriminate Heq.
Qed.

(** C6, on the worked example.  A second run on the same object resets
    [pruned_clades] and writes the root to every cell before it descends,
    but it starts from the accumulators the first run left: after it every
    accumulated list holds each value twice. *)
Theorem second_run_appends :
  assign_cells_to_tree ex_cfg ex_fresh = Some ex_final /\
  assign_cells_to_tree ex_cfg ex_final = Some ex_final2 /\
  pruned_clades ex_final2 = pruned_clades ex_final /\
  clone_assign_dict ex_final2 = clone_assign_dict ex_final /\
  gene_type_score_dict ex_final !! "g1" = Some [0.5%float] /\
  gene_type_score_dict ex_final2 !! "g1" = Some [0.5%float; 0.5%float] /\
  allele_assign_prob_dict ex_final !! "s1" = Some [0.75%float] /\
  allele_assign_prob_dict ex_final2 !! "s1" = Some [0.75%float; 0.75%float] /\
  gene_type_score_dict ex_final2 <> gene_type_score_dict ex_final.
Proof.
  repeat (split; [evaluate|]).
  intros Heq. apply (f_equal (fun m => m !! "g1")) in Heq. vm_compute in Heq. discriminate Heq.
Qed.

End Witnesses.

(** * Further properties of the traversal *)

(** ** What a visit may change *)

Lemma extends_refl m : extends m m.
Proof. intros k l Hk. exists []. by rewrite app_nil_r. Qed.

Lemma extends_trans m1 m2 m3 : extends m1 m2 -> extends m2 m3 -> extends m1 m3.
Proof.
  intros H12 H23 k l Hk. destruct (H12 k l Hk) as [l1 H1].
  destruct (H23 k _ H1) as [l2 H2]. exists (l1 ++ l2). by rewrite app_assoc.
Qed.

Lemma accumulate_scores_snoc m ids vs key v :
  length ids = length vs ->
  accumulate_scores m (ids ++ [key]) (vs ++ [v])
  = <[key := default [] (accumulate_scores m ids vs !! key) ++ [v]]> (accumulate_scores m ids vs).
Proof.
  intros Hlen. unfold accumulate_scores.
  rewrite zip_with_app by done. by rewrite foldl_app.
Qed.

Lemma accumulate_scores_cons m key v ids vs :
  accumulate_scores m (key :: ids) (v :: vs)
  = accumulate_scores (<[key := default [] (m !! key) ++ [v]]> m) ids vs.
Proof. reflexivity. Qed.

Lemma extends_append m key v :
  extends m (<[key := default [] (m !! key) ++ [v]]> m).
Proof.
  intros k l Hk. destruct (decide (key = k)) as [-> | Hne].
  - rewrite lookup_insert_eq, Hk. simpl. by eexists.
  - rewrite lookup_insert_ne by done. exists []. by rewrite app_nil_r.
Qed.

Lemma accumulate_scores_extends m ids vs : extends m (accumulate_scores m ids vs).
Proof.
  revert m vs. induction ids as [|key ids IH]; intros m vs; [apply extends_refl|].
  destruct vs as [|v vs]; [apply extends_refl|].
  rewrite accumulate_scores_cons. eapply extends_trans; [apply extends_append|apply IH].
Qed.

Lemma scores_after_extends flag df ps m : extends m (scores_after flag df ps m).
Proof.
  unfold scores_after. destruct flag; [|apply extends_refl].
  destruct df as [d|]; [|apply extends_refl].
  destruct ps as [[v|]|]; try apply extends_refl. apply accumulate_scores_extends.
Qed.

Lemma elem_of_concat {A : Type} (x : A) (ls : list (list A)) :
  x ∈ concat ls <-> exists l, l ∈ ls /\ x ∈ l.
Proof.
  rewrite list_elem_of_In, in_concat. split; intros (l & Hl & Hx); exists l.
  - by rewrite !list_elem_of_In.
  - by rewrite <- !list_elem_of_In.
Qed.

Lemma subtree_names_child (c ch : Clade) :
  ch ∈ clades c -> subtree_names ch ⊆ subtree_names c.
Proof.
  intros Hch x Hx. destruct c as [nm cs]. simpl in *. right.
  apply elem_of_concat. exists (subtree_names ch). split; [|done].
  apply list_elem_of_fmap. by exists ch.
Qed.

Lemma subtree_names_self (c : Clade) : name c ∈ subtree_names c.
Proof. destruct c. by left. Qed.

Lemma branching_unfold (c : Clade) :
  branching c = ((if (2 <=? length (clades c))%nat then 1 else 0)
                 + list_sum (map branching (clades c)))%nat.
Proof. by destruct c. Qed.

Lemma branching_sublist (cs1 cs2 : list Clade) :
  sublist cs1 cs2 -> (list_sum (map branching cs1) <= list_sum (map branching cs2))%nat.
Proof. induction 1; simpl; lia. Qed.

Lemma list_sum_take_le (l : list nat) (k : nat) : (list_sum (take k l) <= list_sum l)%nat.
Proof.
  revert k. induction l as [|a l IH]; intros [|k]; simpl; try lia. specialize (IH k). lia.
Qed.

Lemma list_sum_take_S (l : list nat) (k a : nat) :
  l !! k = Some a -> list_sum (take (S k) l) = (list_sum (take k l) + a)%nat.
Proof.
  revert k. induction l as [|b l IH]; intros [|k] Hk; simpl in *; try done.
  - injection Hk as ->. destruct l; simpl; lia.
  - rewrite (IH k Hk). lia.
Qed.

Section Growth.

Context `{CloneAlign} (self : Config).

Lemma after_filter_pruned c cells level st :
  pruned_clades st ⊆ pruned_clades (after_filter self c cells level st)
  /\ pruned_clades (after_filter self c cells level st)
     ⊆ pruned_clades st ∪ list_to_set (map name (clades c)).
Proof.
  unfold after_filter.
  change (pruned_clades st) with (pruned_clades (enter (name c) cells level st)).
  generalize (enter (name c) cells level st) as st0. intros st0.
  induction (clades c) as [|cl cls IH] using rev_ind; [set_solver|].
  rewrite foldl_snoc, map_app, list_to_set_app_L. simpl.
  destruct (is_clean self cl); simpl; set_solver.
Qed.

Lemma before_recording_pruned c cells level st r st2 :
  before_recording self c cells level st = Some (r, st2) ->
  pruned_clades st2 = pruned_clades (after_filter self c cells level st).
Proof.
  unfold before_recording, at_inference.
  destruct (run_clonealign_pyro_repeat _ _) as [r'|]; simpl; [|done].
  destruct (snapshot_output _ _ _ _) as [st2'|] eqn:Hout; simpl; [|done].
  intros [= -> ->].
  apply snapshot_output_effect in Hout as (_ & Hp & _).
  destruct (snapshot_input_effect self (name c) (gate_inputs (gate_at self c cells))
              (after_filter self c cells level st)) as (_ & Hp' & _).
  simpl in Hp. by rewrite Hp, Hp'.
Qed.

Lemma record_step_grows cells clean g r st st' :
  record_step self cells clean g r st = Some st' ->
  pruned_clades st' = pruned_clades st
  /\ calls st' = calls st
  /\ extends (gene_type_score_dict st) (gene_type_score_dict st')
  /\ extends (allele_assign_prob_dict st) (allele_assign_prob_dict st').
Proof.
  intros Hrec. destruct (record_step_writes self _ _ _ _ _ _ Hrec) as (_ & _ & _ & _ & _ & Hp & Hc).
  split; [done|]. split; [done|].
  destruct (record_ok self (none_freq r)) eqn:Hok.
  - rewrite (record_step_effect self _ _ _ _ _ _ Hrec Hok).
    unfold set_allele_assign_prob_dict, set_gene_type_score_dict.
    cbn [gene_type_score_dict allele_assign_prob_dict].
    destruct (assign_all_rest (commit_writes clean cells (clone_assign r)) st) as (_ & Hg & Ha & _).
    split; apply scores_after_extends.
  - rewrite (record_step_skip self _ _ _ _ _ _ Hrec Hok). split; apply extends_refl.
Qed.

End Growth.

Section Diagnostics.

Context `{CloneAlign} (self : Config).

Lemma before_recording_params c cells level st r st2 :
  before_recording self c cells level st = Some (r, st2) ->
  params_dict st2
  = if record_input_output self
    then <[name c := mkSnapshot (gate_inputs (gate_at self c cells)) (Some r)]> (params_dict st)
    else params_dict st.
Proof.
  destruct (after_filter_only_pruned self c cells level st) as (_ & _ & _ & _ & Hpd & _).
  simpl in Hpd.
  unfold before_recording, at_inference, snapshot_output, snapshot_input.
  destruct (run_clonealign_pyro_repeat _ _) as [r'|]; cbn [mbind option_bind]; [|done].
  destruct (record_input_output self).
  - unfold count_call, set_params_dict. cbn [params_dict].
    rewrite lookup_insert, decide_True by done. cbn [mbind option_bind snap_input].
    intros [= -> <-]. cbn [params_dict].
    by rewrite insert_insert, decide_True, Hpd by done.
  - cbn [mbind option_bind]. intros [= -> <-]. by simpl.
Qed.

Lemma record_step_params cells clean g r st st' :
  record_step self cells clean g r st = Some st' -> params_dict st' = params_dict st.
Proof.
  intros Hrec. destruct (record_ok self (none_freq r)) eqn:Hok.
  - rewrite (record_step_effect self _ _ _ _ _ _ Hrec Hok).
    unfold set_allele_assign_prob_dict, set_gene_type_score_dict. cbn [params_dict].
    by destruct (assign_all_rest (commit_writes clean cells (clone_assign r)) st)
      as (_ & _ & _ & Hpd & _).
  - by rewrite (record_step_skip self _ _ _ _ _ _ Hrec Hok).
Qed.

End Diagnostics.

Lemma union_widen (X P N M : gset string) : X ⊆ P ∪ N -> N ⊆ M -> X ⊆ P ∪ M.
Proof. set_solver. Qed.

Section GrowthOfVisits.

Context `{CloneAlign} (self : Config).

Lemma children_grow clean cells ca level (N : gset string) :
  Forall (visit_grows_at self) clean ->
  (forall cl, cl ∈ clean -> list_to_set (subtree_names cl) ⊆ N) ->
  forall st3 st',
    for_range (descend_into self clean cells ca level) 0 (length clean) st3 = Some st' ->
    pruned_clades st3 ⊆ pruned_clades st'
    /\ pruned_clades st' ⊆ pruned_clades st3 ∪ N
    /\ (record_input_output self = false -> params_dict st' = params_dict st3)
    /\ (calls st3 <= calls st' <= calls st3 + list_sum (map branching clean))%nat
    /\ extends (gene_type_score_dict st3) (gene_type_score_dict st')
    /\ extends (allele_assign_prob_dict st3) (allele_assign_prob_dict st').
Proof.
  intros Hall HN st3 st' Hrun.
  pose proof (for_range_inv
    (fun k st => pruned_clades st3 ⊆ pruned_clades st
                 /\ pruned_clades st ⊆ pruned_clades st3 ∪ N
                 /\ (record_input_output self = false -> params_dict st = params_dict st3)
                 /\ (calls st3 <= calls st
                     <= calls st3 + list_sum (take k (map branching clean)))%nat
                 /\ extends (gene_type_score_dict st3) (gene_type_score_dict st)
                 /\ extends (allele_assign_prob_dict st3) (allele_assign_prob_dict st))
    (descend_into self clean cells ca level) (length clean) 0 st3 st' Hrun) as Hinv.
  simpl in Hinv.
  destruct Hinv as (Hp1 & Hp2 & Hpd & Hc & Hg & Ha).
  - split; [done|]. split; [set_solver|]. split; [done|]. split; [simpl; lia|].
    split; apply extends_refl.
  - intros k t t' Hk (Hp1 & Hp2 & Hpd & Hc & Hg & Ha) Hbody.
    unfold descend_into in Hbody.
    destruct (new_expr_cells cells ca k) as [cs|]; simpl in Hbody; [|done].
    destruct (clean !! k) as [cl|] eqn:Hcl; simpl in Hbody; [|done].
    assert (Hin : cl ∈ clean) by (apply list_elem_of_lookup; by exists k).
    rewrite Forall_forall in Hall.
    destruct (Hall cl Hin _ _ _ _ Hbody) as (Hq1 & Hq2 & _ & Hqd & Hd & Hg' & Ha').
    pose proof (HN cl Hin) as HclN.
    assert (Hb : map branching clean !! k = Some (branching cl))
      by (by rewrite list_lookup_fmap, Hcl).
    rewrite (list_sum_take_S _ _ _ Hb).
    split; [set_solver|]. split; [set_solver|].
    split; [intros Hoff; by rewrite (Hqd Hoff), (Hpd Hoff)|]. split; [lia|].
    split; eapply extends_trans; eauto.
  - split; [done|]. split; [done|]. split; [done|]. split.
    + pose proof (list_sum_take_le (map branching clean) (length clean)). lia.
    + done.
Qed.

Lemma visit_grows c : visit_grows_at self c.
Proof.
  induction c as [nm cs IHcs] using Clade_rect_Forall.
  intros cells level st st'. rewrite visit_eq. set (c := Node nm cs).
  destruct (after_filter_only_pruned self c cells level st)
    as (_ & _ & Hg0 & Ha0 & Hpd0 & Hc0 & _).
  destruct (after_filter_pruned self c cells level st) as (Hp0 & Hp0').
  simpl in Hg0, Ha0, Hpd0, Hc0.
  set (N := list_to_set (descendant_names c) : gset string).
  assert (Hdesc : forall ch x, ch ∈ clades c -> x ∈ subtree_names ch -> x ∈ N).
  { intros ch x Hch Hx. apply elem_of_list_to_set, elem_of_concat.
    exists (subtree_names ch). split; [|done]. apply list_elem_of_fmap. by exists ch. }
  assert (HNsub : N ⊆@{gset string} list_to_set (subtree_names c)).
  { intros x Hx. apply elem_of_list_to_set in Hx. apply elem_of_list_to_set. by right. }
  assert (Hkids : list_to_set (map name (clades c)) ⊆@{gset string} N).
  { intros x Hx. apply elem_of_list_to_set in Hx.
    apply list_elem_of_fmap in Hx as (ch & -> & Hch).
    apply (Hdesc ch _ Hch). apply subtree_names_self. }
  assert (Hself : name c ∈@{gset string} list_to_set (subtree_names c)).
  { apply elem_of_list_to_set. apply subtree_names_self. }
  set (M := list_to_set (subtree_names c) : gset string) in *.
  clearbody N M.
  destruct (clean_clades_at self c cells level) as [clean|] eqn:Hclean.
  2:{ intros Heq%(inj Some). subst st'. simpl.
      split; [set_solver|]. split; [set_solver|]. split.
      { intros Hpg. unfold clean_clades_at in Hclean. by rewrite Hpg in Hclean. }
      split; [done|]. split; [lia|]. split; apply extends_refl. }
  apply clean_clades_at_Some in Hclean as (_ & _ & Hsub).
  assert (HsubN : forall cl, cl ∈ clean -> list_to_set (subtree_names cl) ⊆@{gset string} N).
  { intros cl Hcl x Hx. apply elem_of_list_to_set in Hx.
    apply (Hdesc cl); [|done]. by apply (sublist_subseteq _ _ Hsub). }
  assert (Hall : Forall (visit_grows_at self) clean).
  { rewrite Forall_forall in IHcs |- *. intros x Hx. apply IHcs.
    by apply (sublist_subseteq _ _ Hsub). }
  pose proof (branching_sublist clean (clades c) Hsub) as Hbr.
  pose proof (sublist_length _ _ Hsub) as Hlen.
  rewrite (branching_unfold c).
  destruct clean as [|c1 [|c2 cl]].
  - intros Heq%(inj Some). subst st'. rewrite Hg0, Ha0, Hc0, Hpd0.
    split; [done|]. split; [set_solver|]. split; [intros _; set_solver|].
    split; [done|]. split; [lia|]. split; apply extends_refl.
  - intros Hrun. rewrite Forall_forall in Hall.
    destruct (Hall c1 ltac:(by left) _ _ _ _ Hrun) as (Hq1 & Hq2 & _ & Hqd & Hd & Hg' & Ha').
    rewrite bypass_is_assign_all in Hq1, Hq2, Hqd, Hd, Hg', Ha'.
    destruct (assign_all_rest (map (fun x => (x, name c1)) cells)
                (after_filter self c cells level st)) as (Hp1 & Hg1 & Ha1 & Hpd1 & Hc1).
    rewrite Hp1 in Hq1, Hq2. rewrite Hc1, Hc0 in Hd. rewrite Hg1, Hg0 in Hg'.
    rewrite Hpd1, Hpd0 in Hqd.
    rewrite Ha1, Ha0 in Ha'.
    pose proof (HsubN c1 ltac:(by left)) as HN1.
    assert (Hb1 : (branching c1 <= list_sum (map branching (clades c)))%nat).
    { etrans; [|exact Hbr]. cbn [map list_sum foldr]. lia. }
    assert (H1 : pruned_clades st ⊆ pruned_clades st') by (clear - Hp0 Hq1; set_solver).
    assert (HNb : pruned_clades st' ⊆ pruned_clades st ∪ N)
      by (clear - Hq2 Hp0' Hkids HN1; set_solver).
    split; [exact H1|]. split; [exact (union_widen _ _ _ _ HNb HNsub)|].
    split; [intros _; by split|]. split; [done|]. split; [|done].
    destruct (2 <=? length (clades c))%nat; lia.
  - set (clean := c1 :: c2 :: cl) in *.
    assert (Hbranch : (2 <=? length (clades c))%nat = true).
    { apply Nat.leb_le. unfold clean in Hlen. simpl in Hlen |- *. lia. }
    rewrite Hbranch.
    destruct (reaches_inference self c cells level).
    2:{ intros Heq%(inj Some). subst st'.
        destruct (prune_all_only_pruned clean (after_filter self c cells level st))
          as (_ & Hp1 & Hg1 & Ha1 & Hpd1 & Hc1 & _).
        rewrite prune_all_pruned, Hg1, Ha1, Hc1, Hpd1, Hg0, Ha0, Hc0, Hpd0.
        assert (HcleanN : list_to_set (map name clean) ⊆@{gset string} N).
        { intros x Hx. apply elem_of_list_to_set in Hx.
          apply list_elem_of_fmap in Hx as (ch & -> & Hch).
          apply (HsubN ch Hch). apply elem_of_list_to_set. apply subtree_names_self. }
        split; [clear - Hp0; set_solver|].
        assert (HNb : list_to_set (map name clean) ∪ pruned_clades (after_filter self c cells level st)
                      ⊆ pruned_clades st ∪ N) by (clear - Hp0' Hkids HcleanN; set_solver).
        split; [exact (union_widen _ _ _ _ HNb HNsub)|].
        split; [intros _; split; [clear; set_solver|exact HNb]|].
        split; [done|]. split; [lia|]. split; apply extends_refl. }
    destruct (before_recording self c cells level st) as [[r st2]|] eqn:Hbefore;
      cbn [mbind option_bind fst snd]; [|done].
    pose proof (before_recording_pruned self _ _ _ _ _ _ Hbefore) as Hp2.
    pose proof (before_recording_params self _ _ _ _ _ _ Hbefore) as Hpd2.
    apply before_recording_effect in Hbefore as (_ & _ & Hg2 & Ha2 & Hc2 & _).
    destruct (record_step self cells clean (gate_at self c cells) r st2) as [st3|] eqn:Hrec;
      cbn [mbind option_bind]; [|done].
    pose proof (record_step_params self _ _ _ _ _ _ Hrec) as Hpd3.
    assert (Hoff3 : record_input_output self = false -> params_dict st3 = params_dict st).
    { intros Hoff. by rewrite Hpd3, Hpd2, Hoff. }
    apply record_step_grows in Hrec as (Hp3 & Hc3 & Hg3 & Ha3).
    rewrite Hg2 in Hg3. rewrite Ha2 in Ha3.
    assert (HcleanN : list_to_set (map name clean) ⊆@{gset string} N).
    { intros x Hx. apply elem_of_list_to_set in Hx.
      apply list_elem_of_fmap in Hx as (ch & -> & Hch).
      apply (HsubN ch Hch). apply elem_of_list_to_set. apply subtree_names_self. }
    destruct (record_ok self (none_freq r) && proceed_ok self (none_freq r)).
    + intros Hrun.
      destruct (children_grow clean cells (clone_assign r) level
                  N Hall HsubN st3 st' Hrun)
        as (Hq1 & Hq2 & Hqd & Hd & Hg' & Ha').
      rewrite Hp3, Hp2 in Hq1, Hq2. rewrite Hc3, Hc2 in Hd.
      assert (H1 : pruned_clades st ⊆ pruned_clades st') by (clear - Hp0 Hq1; set_solver).
      assert (HNb : pruned_clades st' ⊆ pruned_clades st ∪ N)
        by (clear - Hq2 Hp0' Hkids; set_solver).
      split; [exact H1|]. split; [exact (union_widen _ _ _ _ HNb HNsub)|].
      split; [intros _; by split|].
      split; [intros Hoff; by rewrite (Hqd Hoff), (Hoff3 Hoff)|]. split; [lia|].
      split; eapply extends_trans; eauto.
    + intros Heq%(inj Some). subst st'.
      destruct (prune_all_only_pruned clean st3) as (_ & _ & Hg4 & Ha4 & Hpd4 & Hc4 & _).
      rewrite prune_all_pruned, Hg4, Ha4, Hc4, Hpd4, Hp3, Hp2, Hc3, Hc2.
      split; [clear - Hp0; set_solver|].
      assert (HNb : list_to_set (map name clean) ∪ pruned_clades (after_filter self c cells level st)
                    ⊆ pruned_clades st ∪ N) by (clear - Hp0' Hkids HcleanN; set_solver).
      split; [exact (union_widen _ _ _ _ HNb HNsub)|].
      split; [intros _; split; [clear; set_solver|exact HNb]|].
      split; [exact Hoff3|]. split; [lia|]. done.
Qed.

End GrowthOfVisits.

(** ** Traces: the names written *)

(** Every name a visit writes is the name of a clade strictly below the
    visited clade. *)
Lemma visit_tr_names cutoff :
  (forall c cells L tr, visit_tr cutoff c cells L tr ->
     forall x n, EvAssign x n ∈ tr -> n ∈ descendant_names c)
  /\ (forall clean rest cells ca L i trs, children_tr cutoff clean rest cells ca L i trs ->
        forall x n, EvAssign x n ∈ trs ->
          exists cl, cl ∈ clean /\ n ∈ descendant_names cl).
Proof.
  assert (Hchild : forall (c ch : Clade) n,
             ch ∈ clades c -> n ∈ subtree_names ch -> n ∈ descendant_names c).
  { intros c ch n Hch Hn. apply elem_of_concat. exists (subtree_names ch).
    split; [|done]. apply list_elem_of_fmap. by exists ch. }
  assert (Hdown : forall (ch : Clade) n, n ∈ descendant_names ch -> n ∈ subtree_names ch).
  { intros [nm cs] n Hn. by right. }
  assert (Hcommit : forall (c : Clade) clean cells ca x n,
             sublist clean (clades c) ->
             EvAssign x n ∈ map (fun w => EvAssign (fst w) (snd w)) (commit_writes clean cells ca) ->
             n ∈ descendant_names c).
  { intros c clean cells ca x n Hsub Hin.
    apply list_elem_of_fmap in Hin as (w & Hw & Hin). injection Hw as -> ->.
    apply commit_writes_elem in Hin as (_ & j & cl & _ & _ & Hcl & ->).
    apply py_getitem_elem in Hcl.
    apply (Hchild c cl); [by apply (sublist_subseteq _ _ Hsub)|apply subtree_names_self]. }
  apply visit_tr_mutind.
  - intros c cells L x n Hin. apply list_elem_of_singleton in Hin. discriminate Hin.
  - intros c cells L child tr _ Hch _ IH x n Hin.
    apply elem_of_cons in Hin as [Hin | Hin]; [discriminate Hin|].
    apply elem_of_app in Hin as [Hin | Hin].
    + rewrite map_map in Hin. apply list_elem_of_fmap in Hin as (y & Hy & _).
      simpl in Hy. injection Hy as -> ->.
      apply (Hchild c child); [done|apply subtree_names_self].
    + apply (Hchild c child); [done|]. apply Hdown. by apply (IH x).
  - intros c cells L clean ca Hsub x n Hin.
    apply elem_of_cons in Hin as [Hin | Hin]; [discriminate Hin|].
    by apply (Hcommit c clean cells ca x n Hsub).
  - intros c cells L clean ca trs _ Hsub _ IH x n Hin.
    apply elem_of_cons in Hin as [Hin | Hin]; [discriminate Hin|].
    apply elem_of_app in Hin as [Hin | Hin]; [by apply (Hcommit c clean cells ca x n Hsub)|].
    destruct (IH x n Hin) as (cl & Hcl & Hn).
    apply (Hchild c cl); [by apply (sublist_subseteq _ _ Hsub)|by apply Hdown].
  - intros clean cells ca L i x n Hin. by apply elem_of_nil in Hin.
  - intros clean cl rest cells ca L i tr trs Hcl _ IHv _ IHc x n Hin.
    apply elem_of_app in Hin as [Hin | Hin]; [|by apply (IHc x)].
    exists cl. split; [|by apply (IHv x)]. apply list_elem_of_lookup. by exists i.
Qed.

Lemma assigned_to_elem x n tr : n ∈ assigned_to x tr <-> EvAssign x n ∈ tr.
Proof.
  unfold assigned_to. rewrite list_elem_of_omap. split.
  - intros (e & He & Hf). destruct e as [nm cs l|c m]; [done|].
    case_bool_decide; [|done]. injection Hf as ->. by subst c.
  - intros Hin. exists (EvAssign x n). split; [done|]. simpl.
    by rewrite bool_decide_eq_true_2.
Qed.

Section FurtherTraversal.

Context `{CloneAlign} (self : Config).

(** X1.  During a visit [pruned_clades] only grows, and only names of the
    visited clade and of clades below it are added; when the visit passes
    the depth guard and the availability guard, only names of clades
    strictly below it are added.  After a run [pruned_clades] holds names
    of clades of the tree only, whatever it held before the run. *)
Theorem pruned_within_subtree :
  (forall c cells level st st',
     assign_cells_to_clade self c cells level st = Some st' ->
     pruned_clades st ⊆ pruned_clades st'
     /\ pruned_clades st' ⊆ pruned_clades st ∪ list_to_set (subtree_names c)
     /\ (passes_guards self c cells level = true ->
         pruned_clades st' ⊆ pruned_clades st ∪ list_to_set (descendant_names c)))
  /\ (forall st st',
        assign_cells_to_tree self st = Some st' ->
        pruned_clades st' ⊆ list_to_set (subtree_names (tree self))).
Proof.
  split.
  - intros c cells level st st' Hv.
    destruct (visit_grows self c _ _ _ _ Hv) as (H1 & H2 & H3 & _).
    split; [done|]. split; [done|]. intros Hpg. by destruct (H3 Hpg).
  - intros st st'. rewrite run_eq.
    destruct (input_cells self) as [cells|]; simpl; [|done]. intros Hv.
    destruct (visit_grows self _ _ _ _ _ Hv) as (_ & H2 & _).
    rewrite default_is_assign_all in H2.
    destruct (assign_all_rest (map (fun c => (c, name (tree self))) cells) (reset_pruned st))
      as (Hp & _).
    rewrite Hp in H2. simpl in H2. set_solver.
Qed.

(** X2.  A visit calls the inference procedure at most once for each clade
    of the visited subtree that has at least two children; in particular
    the visit of a clade below which no clade has two children calls it not
    at all. *)
Theorem inference_calls_bounded c cells level st st' :
  assign_cells_to_clade self c cells level st = Some st' ->
  (calls st <= calls st' <= calls st + branching c)%nat
  /\ (branching c = 0%nat -> calls st' = calls st).
Proof.
  intros Hv. destruct (visit_grows self c _ _ _ _ Hv) as (_ & _ & _ & _ & Hc & _).
  split; [done|]. intros Hz. lia.
Qed.

(** X3.  A visit never removes or rewrites an accumulated value: every list
    of [gene_type_score_dict] and of [allele_assign_prob_dict] present
    before the visit is, after it, the same list with values appended. *)
Theorem accumulators_append_only c cells level st st' :
  assign_cells_to_clade self c cells level st = Some st' ->
  (forall k l, gene_type_score_dict st !! k = Some l ->
     exists l', gene_type_score_dict st' !! k = Some (l ++ l'))
  /\ (forall k l, allele_assign_prob_dict st !! k = Some l ->
        exists l', allele_assign_prob_dict st' !! k = Some (l ++ l')).
Proof.
  intros Hv. destruct (visit_grows self c _ _ _ _ Hv) as (_ & _ & _ & _ & _ & Hg & Ha). done.
Qed.

(** X4.  Every value a visit writes to [clone_assign_dict] is the name of a
    clade strictly below the visited clade, and after a run every input
    cell is assigned the name of a clade of the tree (no distinctness of the
    cells is needed). *)
Theorem assigned_names_in_tree :
  (forall c cells level st st',
     assign_cells_to_clade self c cells level st = Some st' ->
     exists tr, trace st' = trace st ++ tr
                /\ forall x n, EvAssign x n ∈ tr -> n ∈ descendant_names c)
  /\ (forall cells st st' x,
        input_cells self = Some cells ->
        assign_cells_to_tree self st = Some st' ->
        x ∈ cells ->
        exists n, clone_assign_dict st' !! x = Some n /\ n ∈ subtree_names (tree self)).
Proof.
  split.
  - intros c cells level st st' Hv.
    destruct (visit_sound self _ _ _ _ _ Hv) as (tr & Htr & _ & Hvt).
    exists tr. split; [done|]. apply (proj1 (visit_tr_names (level_cutoff self)) _ _ _ _ Hvt).
  - intros cells st st' x Hcells Hrun Hx.
    destruct (run_sound self st st' Hrun) as (cells' & tr & Hc & _ & Hd & Hvt).
    rewrite Hcells in Hc. injection Hc as <-.
    rewrite Hd, replay_lookup.
    destruct (last (assigned_to x _)) as [n|] eqn:Hlast.
    + exists n. split; [done|]. apply last_Some_elem_of in Hlast.
      apply assigned_to_elem, elem_of_app in Hlast as [Hin | Hin].
      * apply list_elem_of_fmap in Hin as (y & Hy & _). injection Hy as _ ->.
        apply subtree_names_self.
      * pose proof (proj1 (visit_tr_names (level_cutoff self)) _ _ _ _ Hvt x n Hin) as Hn.
        destruct (tree self) as [nm cs]. by right.
    + exfalso. apply last_None in Hlast.
      assert (Hin : name (tree self) ∈ assigned_to x
                (map (fun x0 => EvAssign x0 (name (tree self))) cells ++ tr)).
      { apply assigned_to_elem, elem_of_app. left. apply list_elem_of_fmap. by exists x. }
      rewrite Hlast in Hin. by apply elem_of_nil in Hin.
Qed.

End FurtherTraversal.

(** ** The guards of a visit *)

Section Guards.

Context `{CloneAlign} (self : Config).

Lemma after_filter_pruned_eq c cells level st :
  pruned_clades (after_filter self c cells level st)
  = pruned_clades st
    ∪ list_to_set (map name (List.filter (fun cl => negb (is_clean self cl)) (clades c))).
Proof.
  unfold after_filter.
  change (pruned_clades st) with (pruned_clades (enter (name c) cells level st)).
  generalize (enter (name c) cells level st) as st0. intros st0.
  induction (clades c) as [|cl cls IH] using rev_ind; [simpl; set_solver|].
  rewrite foldl_snoc, List.filter_app, map_app, list_to_set_app_L. simpl.
  destruct (is_clean self cl); simpl; rewrite IH; set_solver.
Qed.

Lemma is_clean_false (cl : Clade) :
  is_clean self cl = false <-> Z.of_nat (length (get_terminals cl)) < min_cell_count_cnv self.
Proof.
  unfold is_clean. rewrite length_map, negb_false_iff. apply Z.ltb_lt.
Qed.

Lemma passes_guards_true c cells level :
  passes_guards self c cells level = true
  <-> level <= level_cutoff self
      /\ min_cell_count_expr self <= Z.of_nat (length cells)
      /\ min_cell_count_cnv self <= Z.of_nat (length (get_terminals c)).
Proof.
  unfold passes_guards.
  rewrite andb_true_iff, !negb_true_iff, orb_false_iff, !Z.ltb_ge. tauto.
Qed.

(** X5.  The availability guard (lines 150-157).  A visit within the level
    limit that has fewer eligible cells than [min_cell_count_expr], or whose
    clade has fewer terminals than [min_cell_count_cnv], adds the clade to
    [pruned_clades] and returns: no child is looked at, no assignment is
    written and the inference procedure is not called.  Both comparisons
    are strict: with exactly [min_cell_count_expr] cells and exactly
    [min_cell_count_cnv] terminals the visit goes on to the child filter. *)
Theorem availability_guard c cells level st :
  level <= level_cutoff self ->
  (Z.of_nat (length cells) < min_cell_count_expr self
   \/ Z.of_nat (length (get_terminals c)) < min_cell_count_cnv self
   -> exists st',
        assign_cells_to_clade self c cells level st = Some st'
        /\ pruned_clades st' = {[name c]} ∪ pruned_clades st
        /\ clone_assign_dict st' = clone_assign_dict st
        /\ gene_type_score_dict st' = gene_type_score_dict st
        /\ allele_assign_prob_dict st' = allele_assign_prob_dict st
        /\ params_dict st' = params_dict st
        /\ calls st' = calls st
        /\ trace st' = trace st ++ [EvVisit (name c) cells level])
  /\ (Z.of_nat (length cells) = min_cell_count_expr self ->
      Z.of_nat (length (get_terminals c)) = min_cell_count_cnv self ->
      forall st',
        assign_cells_to_clade self c cells level st = Some st' ->
        pruned_clades (after_filter self c cells level st) ⊆ pruned_clades st'
        /\ pruned_clades st' ⊆ pruned_clades st ∪ list_to_set (descendant_names c)).
Proof.
  intros Hlevel. split.
  - intros Hfew. exists (prune (name c) (enter (name c) cells level st)).
    split; [|done]. rewrite visit_eq. unfold clean_clades_at.
    assert (Hpg : passes_guards self c cells level = false).
    { apply not_true_is_false. rewrite passes_guards_true. lia. }
    by rewrite Hpg.
  - intros Hc Ht st' Hv.
    assert (Hpg : passes_guards self c cells level = true)
      by (apply passes_guards_true; lia).
    destruct (visit_grows self c _ _ _ _ Hv) as (_ & _ & H3 & _). by apply H3.
Qed.

(** X6.  The child filter (lines 166-172).  After a visit that passes the
    depth guard and the availability guard, every child of the visited clade
    with fewer terminals than [min_cell_count_cnv] is in [pruned_clades],
    whatever the visit did afterwards. *)
Theorem unclean_children_pruned c cells level st st' child :
  assign_cells_to_clade self c cells level st = Some st' ->
  passes_guards self c cells level = true ->
  child ∈ clades c ->
  Z.of_nat (length (get_terminals child)) < min_cell_count_cnv self ->
  name child ∈ pruned_clades st'.
Proof.
  intros Hv Hpg Hchild Hfew.
  destruct (visit_grows self c _ _ _ _ Hv) as (_ & _ & H3 & _).
  destruct (H3 Hpg) as (Haf & _). apply Haf.
  rewrite after_filter_pruned_eq. apply elem_of_union_r, elem_of_list_to_set.
  apply list_elem_of_fmap. exists child. split; [done|].
  apply list_elem_of_In, filter_In. split; [by apply list_elem_of_In|].
  apply negb_true_iff. by apply is_clean_false.
Qed.

(** X7.  No clean child (lines 183-185).  When a visit passes the guards and
    every child has fewer terminals than [min_cell_count_cnv], the visit
    returns after the child filter: every child is in [pruned_clades], the
    visited clade itself is not added, no assignment is written and the
    inference procedure is not called.  In particular the visit of a
    terminal clade that passes the guards changes nothing. *)
Theorem no_clean_child c cells level st :
  passes_guards self c cells level = true ->
  Forall (fun ch => Z.of_nat (length (get_terminals ch)) < min_cell_count_cnv self) (clades c) ->
  exists st',
    assign_cells_to_clade self c cells level st = Some st'
    /\ pruned_clades st' = pruned_clades st ∪ list_to_set (map name (clades c))
    /\ clone_assign_dict st' = clone_assign_dict st
    /\ gene_type_score_dict st' = gene_type_score_dict st
    /\ allele_assign_prob_dict st' = allele_assign_prob_dict st
    /\ params_dict st' = params_dict st
    /\ calls st' = calls st
    /\ trace st' = trace st ++ [EvVisit (name c) cells level].
Proof.
  intros Hpg Hall. exists (after_filter self c cells level st).
  assert (Hboth : List.filter (is_clean self) (clades c) = []
                  /\ List.filter (fun cl => negb (is_clean self cl)) (clades c) = clades c).
  { induction Hall as [|ch chs Hch _ [IH1 IH2]]; [done|]. simpl.
    rewrite (proj2 (is_clean_false ch) Hch). simpl. by rewrite IH2. }
  destruct Hboth as [Hnone Hevery].
  split.
  - rewrite visit_eq. unfold clean_clades_at. by rewrite Hpg, Hnone.
  - rewrite after_filter_pruned_eq, Hevery.
    destruct (after_filter_only_pruned self c cells level st)
      as (Hd & _ & Hg & Ha & Hpd & Hc & Ht).
    done.
Qed.


End Guards.

(** ** The inputs handed to the inference procedure *)

Section Gate.

Context `{CloneAlign}.

Lemma valid_df_Some (t : option DataFrame) :
  valid_df t = true -> exists d, t = Some d /\ 1 <= shape0 d /\ 1 <= shape1 d.
Proof.
  destruct t as [d|]; simpl; [|done]. intros Hv.
  apply andb_true_iff in Hv as [H0 H1].
  apply negb_true_iff, Z.eqb_neq in H0, H1.
  exists d. unfold shape0, shape1 in *. split; [done|]. lia.
Qed.

(** X9.  Lines 200-220.  A track that is not usable is handed to the
    inference procedure as absent, table by table, and its row count is 0,
    even when some of its tables were constructed; a usable track is handed
    over as constructed, and its row count, the number of rows of the
    consensus table, is at least 1. *)
Theorem gate_normalises ts cs :
  (if has_total_copy_number_data (build_inputs ts cs)
   then in_cnv (gate_inputs (build_inputs ts cs)) = in_cnv (constructed ts cs)
        /\ in_expr (gate_inputs (build_inputs ts cs)) = in_expr (constructed ts cs)
        /\ (exists d, in_cnv (constructed ts cs) = Some d
                      /\ gene_count (build_inputs ts cs) = shape0 d)
        /\ 1 <= gene_count (build_inputs ts cs)
   else in_cnv (gate_inputs (build_inputs ts cs)) = None
        /\ in_expr (gate_inputs (build_inputs ts cs)) = None
        /\ gene_count (build_inputs ts cs) = 0)
  /\ (if has_allele_specific_data (build_inputs ts cs)
      then in_hscn (gate_inputs (build_inputs ts cs)) = in_hscn (constructed ts cs)
           /\ in_snv_allele (gate_inputs (build_inputs ts cs)) = in_snv_allele (constructed ts cs)
           /\ in_snv (gate_inputs (build_inputs ts cs)) = in_snv (constructed ts cs)
           /\ (exists d, in_hscn (constructed ts cs) = Some d
                         /\ snp_count (build_inputs ts cs) = shape0 d)
           /\ 1 <= snp_count (build_inputs ts cs)
      else in_hscn (gate_inputs (build_inputs ts cs)) = None
           /\ in_snv_allele (gate_inputs (build_inputs ts cs)) = None
           /\ in_snv (gate_inputs (build_inputs ts cs)) = None
           /\ snp_count (build_inputs ts cs) = 0).
Proof.
  unfold build_inputs, constructed.
  destruct (construct_total_copy_number_input ts cs) as [e0 cnv].
  destruct (construct_allele_specific_input ts cs) as [[hscn a0] s0].
  destruct (make_columns_consistent e0 a0 s0) as [[e a] s].
  unfold check_valid_df_input. cbn [forallb].
  split.
  - destruct (valid_df e) eqn:He; cbn [andb];
      [destruct (valid_df cnv) eqn:Hc; cbn [andb]|].
    + destruct (valid_df hscn && (valid_df a && (valid_df s && true)));
        cbn [has_total_copy_number_data gate_inputs in_cnv in_expr gene_count].
      all: apply valid_df_Some in Hc as (d & -> & Hd & _).
      all: split; [done|]; split; [done|]; split; [by exists d|done].
    + by destruct (valid_df hscn && (valid_df a && (valid_df s && true))).
    + by destruct (valid_df hscn && (valid_df a && (valid_df s && true))).
  - destruct (valid_df hscn) eqn:Hh; cbn [andb];
      [destruct (valid_df a) eqn:Ha; cbn [andb];
       [destruct (valid_df s) eqn:Hs; cbn [andb]|]|].
    + destruct (valid_df e && (valid_df cnv && true));
        cbn [has_allele_specific_data gate_inputs in_hscn in_snv_allele in_snv snp_count].
      all: apply valid_df_Some in Hh as (d & -> & Hd & _).
      all: split; [done|]; split; [done|]; split; [done|]; split; [by exists d|done].
    + by destruct (valid_df e && (valid_df cnv && true)).
    + by destruct (valid_df e && (valid_df cnv && true)).
    + by destruct (valid_df e && (valid_df cnv && true)).
Qed.

End Gate.

(** ** The loops over the cells and over the parameters *)

Lemma for_range_is_Some {S : Type} (body : nat -> S -> option S) (ok : nat -> Prop) :
  (forall k s, is_Some (body k s) <-> ok k) ->
  forall (n i : nat) (s : S),
    is_Some (for_range body i n s) <-> forall k, (i <= k < i + n)%nat -> ok k.
Proof.
  intros Hok. induction n as [|n IH]; intros i s; simpl.
  - split; [intros _ k Hk; lia|by eexists].
  - destruct (body i s) as [s'|] eqn:Hb.
    + rewrite IH. split; intros Hall k Hk.
      * destruct (decide (k = i)) as [->|Hne]; [|apply Hall; lia].
        apply (Hok i s). by rewrite Hb.
      * apply Hall. lia.
    + split; [by intros [? ?]|]. intros Hall.
      assert (Hi : is_Some (body i s)) by (apply Hok, Hall; lia).
      rewrite Hb in Hi. by destruct Hi.
Qed.

Lemma py_getitem_is_Some {A : Type} (l : list A) (j : Z) :
  is_Some (py_getitem l j) <-> - Z.of_nat (length l) <= j < Z.of_nat (length l).
Proof.
  split; [|apply py_getitem_total].
  unfold py_getitem. destruct (0 <=? j) eqn:Hj.
  - apply Z.leb_le in Hj. intros Hl%lookup_lt_is_Some. lia.
  - apply Z.leb_gt in Hj. destruct (0 <=? Z.of_nat (length l) + j) eqn:Hlj.
    + apply Z.leb_le in Hlj. intros _. lia.
    + by intros [? ?].
Qed.

Lemma cells_with_index_cons c cells a ca i :
  cells_with_index (c :: cells) (a :: ca) i
  = if bool_decide (a = Some (Z.of_nat i))
    then c :: cells_with_index cells ca i
    else cells_with_index cells ca i.
Proof.
  unfold cells_with_index. cbn [zip zip_with List.filter snd].
  by destruct (bool_decide (a = Some (Z.of_nat i))).
Qed.

Lemma cells_with_index_sublist cells ca i : sublist (cells_with_index cells ca i) cells.
Proof.
  revert ca. induction cells as [|c cells IH]; intros ca.
  - apply sublist_nil_l.
  - destruct ca as [|a ca]; [apply sublist_nil_l|].
    rewrite cells_with_index_cons. destruct (bool_decide _).
    + apply sublist_skip, IH.
    + apply sublist_cons, IH.
Qed.

Lemma cells_with_index_elem_iff cells ca i x :
  x ∈ cells_with_index cells ca i
  <-> exists k, cells !! k = Some x /\ ca !! k = Some (Some (Z.of_nat i)).
Proof.
  split; [apply cells_with_index_elem|].
  intros (k & Hk & Ha). unfold cells_with_index.
  apply list_elem_of_fmap. exists (x, Some (Z.of_nat i)). split; [done|].
  apply list_elem_of_In, filter_In. split.
  - apply list_elem_of_In, list_elem_of_lookup. exists k.
    apply lookup_zip_with_Some. by exists x, (Some (Z.of_nat i)).
  - by apply bool_decide_eq_true.
Qed.

Lemma select_cells_covered cells ca (j : nat) :
  forall (n i : nat) (cs : list string),
    select_cells cells ca j (seq i n) = Some cs ->
    forall k, (i <= k < i + n)%nat -> is_Some (ca !! k).
Proof.
  induction n as [|n IH]; intros i cs Hrun k Hk; [lia|].
  simpl in Hrun.
  destruct (ca !! i) as [a|] eqn:Ha; simpl in Hrun; [|done].
  destruct (decide (k = i)) as [->|Hne]; [by rewrite Ha|].
  destruct (bool_decide (a = Some (Z.of_nat j))).
  - destruct (cells !! i); simpl in Hrun; [|done].
    destruct (select_cells cells ca j (seq (Datatypes.S i) n)) as [rest|] eqn:Hrest;
      simpl in Hrun; [|done].
    apply (IH (Datatypes.S i) rest Hrest). lia.
  - apply (IH (Datatypes.S i) cs Hrun). lia.
Qed.

(** X10.  The cells handed to the clean children (line 287).  The
    selection raises exactly when the index vector is shorter than the list
    of eligible cells.  The cells handed to clean child [i] are the eligible
    cells whose index is [i], in the order of the eligible cells; and when
    no cell is listed twice, no cell is handed to two children. *)
Theorem sibling_cells cells ca :
  (forall i, is_Some (new_expr_cells cells ca i) <-> (length cells <= length ca)%nat)
  /\ (forall i cs,
        new_expr_cells cells ca i = Some cs ->
        sublist cs cells
        /\ forall x, x ∈ cs
                     <-> exists k, cells !! k = Some x /\ ca !! k = Some (Some (Z.of_nat i)))
  /\ (NoDup cells ->
      forall i j csi csj,
        i <> j ->
        new_expr_cells cells ca i = Some csi ->
        new_expr_cells cells ca j = Some csj ->
        forall x, x ∈ csi -> x ∉ csj).
Proof.
  split; [|split].
  - intros i. split.
    + intros [cs Hcs]. unfold new_expr_cells in Hcs.
      destruct (decide (length cells <= length ca)%nat) as [|Hgt]; [done|].
      assert (Hk : is_Some (ca !! length ca)).
      { apply (select_cells_covered cells ca i (length cells) 0 cs Hcs). lia. }
      apply lookup_lt_is_Some in Hk. lia.
    + intros Hlen. rewrite (new_expr_cells_total cells ca i Hlen). by eexists.
  - intros i cs Hcs. apply new_expr_cells_spec in Hcs. subst cs.
    split; [apply cells_with_index_sublist|]. intros x. apply cells_with_index_elem_iff.
  - intros Hnd i j csi csj Hij Hi Hj x Hxi Hxj.
    apply new_expr_cells_spec in Hi, Hj. subst csi csj.
    apply Hij. by apply (cells_with_index_inj cells ca x).
Qed.

Lemma record_clone_assign_at_is_Some cells ca clean k s :
  is_Some (record_clone_assign_at cells ca clean k s)
  <-> exists a, ca !! k = Some a
                /\ forall j, a = Some j ->
                     is_Some (py_getitem clean j) /\ is_Some (cells !! k).
Proof.
  unfold record_clone_assign_at.
  destruct (ca !! k) as [[j|]|]; simpl.
  - destruct (py_getitem clean j) as [cl|] eqn:Hget; simpl.
    + destruct (cells !! k) as [cell|]; simpl.
      * split; [|by eexists]. intros _. eexists. split; [done|].
        intros j' [= <-]. rewrite Hget. split; by eexists.
      * split; [by intros [? ?]|]. intros (a & [= <-] & Hok).
        destruct (Hok j eq_refl) as [_ [? ?]]. done.
    + split; [by intros [? ?]|]. intros (a & [= <-] & Hok).
      destruct (Hok j eq_refl) as [[? Hcl] _]. by rewrite Hget in Hcl.
  - split; [|by eexists]. intros _. eexists. split; [done|]. by intros j.
  - split; [by intros [? ?]|]. by intros (a & Ha & _).
Qed.

(** The commit succeeds exactly when every step of its loop does, and
    whether a step succeeds does not depend on the state. *)
Lemma record_clone_assign_covered cells ca clean st :
  is_Some (record_clone_assign_to_dict cells ca clean st)
  <-> forall k, (k < length cells)%nat ->
        exists a, ca !! k = Some a
                  /\ forall j, a = Some j ->
                       is_Some (py_getitem clean j) /\ is_Some (cells !! k).
Proof.
  unfold record_clone_assign_to_dict.
  rewrite (for_range_is_Some (record_clone_assign_at cells ca clean) _
             (record_clone_assign_at_is_Some cells ca clean)).
  split; intros Hall k Hk; apply Hall; lia.
Qed.

(** X11.  [record_clone_assign_to_dict] (lines 79-89) raises exactly when
    the index vector does not cover the eligible cells, or when the index of
    an eligible cell is neither missing nor within [-n, n) for the [n] clean
    children; the indices beyond the eligible cells are not looked at. *)
Theorem commit_raises_iff cells ca clean st :
  is_Some (record_clone_assign_to_dict cells ca clean st)
  <-> (length cells <= length ca)%nat
      /\ forall k j, (k < length cells)%nat -> ca !! k = Some (Some j) ->
           - Z.of_nat (length clean) <= j < Z.of_nat (length clean).
Proof.
  rewrite record_clone_assign_covered. split.
  - intros Hall. split.
    + destruct (decide (length cells <= length ca)%nat) as [|Hgt]; [done|].
      destruct (Hall (length ca) ltac:(lia)) as (a & Ha & _).
      apply lookup_lt_Some in Ha. lia.
    + intros k j Hk Hj. destruct (Hall k Hk) as (a & Ha & Hok).
      rewrite Hj in Ha. injection Ha as <-.
      destruct (Hok j eq_refl) as [Hget _]. by apply py_getitem_is_Some.
  - intros [Hlen Hidx] k Hk.
    destruct (lookup_lt_is_Some_2 ca k ltac:(lia)) as [a Ha].
    exists a. split; [done|]. intros j ->. split.
    + apply py_getitem_is_Some. by apply (Hidx k j).
    + by apply lookup_lt_is_Some_2.
Qed.

(** X12.  A negative index counts from the end of the clean children
    (line 89), and no child is visited with the cell (line 287).  When the
    commit succeeds and the index [j] of a cell is negative, the cell is
    assigned the name of clean child [n + j] of the [n] clean children, yet
    the cell is in none of the lists handed to the children. *)
Theorem negative_index_counts_from_end cells ca clean st st' k x j :
  NoDup cells ->
  record_clone_assign_to_dict cells ca clean st = Some st' ->
  cells !! k = Some x ->
  ca !! k = Some (Some j) ->
  j < 0 ->
  exists cl,
    clean !! Z.to_nat (Z.of_nat (length clean) + j) = Some cl
    /\ clone_assign_dict st' !! x = Some (name cl)
    /\ forall i cs, new_expr_cells cells ca i = Some cs -> x ∉ cs.
Proof.
  intros Hnd Hrun Hx Hj Hneg.
  assert (Hsome : is_Some (record_clone_assign_to_dict cells ca clean st)) by by eexists.
  assert (Hk : (k < length cells)%nat) by (by apply lookup_lt_Some in Hx).
  destruct (proj1 (record_clone_assign_covered cells ca clean st) Hsome k Hk)
    as (a & Ha & Hok).
  rewrite Hj in Ha. injection Ha as <-.
  destruct (Hok j eq_refl) as [[cl Hcl] _].
  assert (Hrange : - Z.of_nat (length clean) <= j < Z.of_nat (length clean)).
  { apply py_getitem_is_Some. by exists cl. }
  exists cl. split; [|split].
  - unfold py_getitem in Hcl.
    rewrite (proj2 (Z.leb_gt 0 j) Hneg) in Hcl.
    by rewrite (proj2 (Z.leb_le 0 (Z.of_nat (length clean) + j)) ltac:(lia)) in Hcl.
  - apply record_clone_assign_to_dict_spec in Hrun. subst st'.
    rewrite assign_all_dict, <- replay_assigns, replay_lookup.
    rewrite (commit_assigned_at clean x cells ca k Hnd Hx), Hj, Hcl. done.
  - intros i cs Hcs Hin. apply new_expr_cells_spec in Hcs. subst cs.
    apply cells_with_index_elem in Hin as (k' & Hk' & Ha').
    assert (k' = k) by (by apply (NoDup_lookup cells k' k x)). subst k'.
    rewrite Hj in Ha'. injection Ha' as ->. lia.
Qed.

Lemma accumulate_scores_lookup key :
  forall (l : list (string * float)) (m : gmap string (list float)),
    foldl (fun m p => <[fst p := default [] (m !! fst p) ++ [snd p]]> m) m l !! key
    = match map snd (List.filter (fun p => bool_decide (fst p = key)) l) with
      | [] => m !! key
      | vs => Some (default [] (m !! key) ++ vs)
      end.
Proof.
  induction l as [|[k v] l IH]; intros m; [done|].
  cbn [foldl List.filter fst snd]. rewrite IH. clear IH.
  destruct (bool_decide (k = key)) eqn:Hk.
  - apply bool_decide_eq_true in Hk. subst k. cbn [map snd].
    rewrite lookup_insert, decide_True by done. cbn [default].
    destruct (map snd (List.filter _ l)) as [|w ws]; [done|].
    unfold id. by rewrite <- app_assoc.
  - apply bool_decide_eq_false in Hk.
    by rewrite lookup_insert, decide_False by done.
Qed.

Lemma record_param_is_Some d indices ps :
  is_Some (record_param_to_dict d indices (Some ps))
  <-> (length ps <= length indices)%nat.
Proof.
  unfold record_param_to_dict.
  rewrite (for_range_is_Some (record_param_at indices ps)
             (fun k => is_Some (indices !! k) /\ is_Some (ps !! k))).
  - split.
    + intros Hall. destruct (decide (length ps <= length indices)%nat) as [|Hgt]; [done|].
      destruct (Hall (length indices) ltac:(lia)) as [Hi%lookup_lt_is_Some _]. lia.
    + intros Hlen k Hk. split; apply lookup_lt_is_Some_2; lia.
  - intros k s. unfold record_param_at.
    destruct (indices !! k) as [key|]; simpl.
    + destruct (ps !! k) as [v|]; simpl.
      * split; [|by eexists]. intros _. split; by eexists.
      * split; [by intros [? ?]|]. by intros [_ [? ?]].
    + split; [by intros [? ?]|]. by intros [[? ?] _].
Qed.

(** X13.  [record_param_to_dict] (lines 91-103).  Without parameters the
    dictionary is left alone.  With parameters the call raises exactly when
    there are more values than row labels; otherwise the list of every row
    label grows by the values recorded under that label, in the order of
    the rows (a label that labels several rows receives several values),
    labels beyond the values are not looked at, and every other key of the
    dictionary keeps its list. *)
Theorem record_param_result d indices ps :
  record_param_to_dict d indices None = Some d
  /\ (is_Some (record_param_to_dict d indices (Some ps))
      <-> (length ps <= length indices)%nat)
  /\ (forall d',
        record_param_to_dict d indices (Some ps) = Some d' ->
        forall key,
          d' !! key = match values_for key indices ps with
                      | [] => d !! key
                      | vs => Some (default [] (d !! key) ++ vs)
                      end).
Proof.
  split; [done|]. split; [apply record_param_is_Some|].
  intros d' Hrun key. apply record_param_to_dict_spec in Hrun. subst d'.
  unfold accumulate_scores, values_for. apply accumulate_scores_lookup.
Qed.

Section DiagnosticsOfVisits.

Context `{CloneAlign} (self : Config).

(** X14.  The diagnostic snapshots (lines 247-263).  With
    [record_input_output] off, neither a visit nor a run changes
    [params_dict].  With it on, when the recording decision of a visit is
    taken, [params_dict] holds under the visited clade's name the inputs
    that were handed to the inference procedure and the result that came
    back, and its other entries are as they were when the visit started. *)
Theorem diagnostics_when_enabled :
  (record_input_output self = false ->
   (forall c cells level st st',
      assign_cells_to_clade self c cells level st = Some st' ->
      params_dict st' = params_dict st)
   /\ (forall st st',
         assign_cells_to_tree self st = Some st' -> params_dict st' = params_dict st))
  /\ (record_input_output self = true ->
      forall c cells level st r st2,
        before_recording self c cells level st = Some (r, st2) ->
        params_dict st2 !! name c
        = Some (mkSnapshot (gate_inputs (gate_at self c cells)) (Some r))
        /\ forall nm, nm <> name c -> params_dict st2 !! nm = params_dict st !! nm).
Proof.
  split.
  - intros Hoff. split.
    + intros c cells level st st' Hv.
      destruct (visit_grows self c _ _ _ _ Hv) as (_ & _ & _ & Hpd & _). by apply Hpd.
    + intros st st'. rewrite run_eq.
      destruct (input_cells self) as [cells|]; simpl; [|done]. intros Hv.
      destruct (visit_grows self _ _ _ _ _ Hv) as (_ & _ & _ & Hpd & _).
      rewrite (Hpd Hoff), default_is_assign_all.
      by destruct (assign_all_rest (map (fun c => (c, name (tree self))) cells)
                     (reset_pruned st)) as (_ & _ & _ & -> & _).
  - intros Hon c cells level st r st2 Hbefore.
    rewrite (before_recording_params self _ _ _ _ _ _ Hbefore), Hon. split.
    + by rewrite lookup_insert, decide_True.
    + intros nm Hne. by rewrite lookup_insert, decide_False.
Qed.

End DiagnosticsOfVisits.

(** ** Visits from two states *)

Lemma same_effect_refl stA stB : same_effect stA stA stB stB.
Proof.
  exists [], ∅. rewrite !app_nil_r, !union_empty_r_L. done.
Qed.

Lemma same_effect_trans stA stA' stA'' stB stB' stB'' :
  same_effect stA stA' stB stB' -> same_effect stA' stA'' stB' stB'' ->
  same_effect stA stA'' stB stB''.
Proof.
  intros (tr1 & P1 & Ha1 & Hb1 & Hpa1 & Hpb1) (tr2 & P2 & Ha2 & Hb2 & Hpa2 & Hpb2).
  exists (tr1 ++ tr2), (P1 ∪ P2).
  rewrite Ha2, Hb2, Hpa2, Hpb2, Ha1, Hb1, Hpa1, Hpb1.
  rewrite !app_assoc, !union_assoc_L. done.
Qed.

Lemma same_effect_assign_all ws stA stB :
  same_effect stA (assign_all ws stA) stB (assign_all ws stB).
Proof.
  exists (map (fun w => EvAssign (fst w) (snd w)) ws), ∅.
  rewrite !assign_all_trace, !union_empty_r_L.
  destruct (assign_all_rest ws stA) as (-> & _). destruct (assign_all_rest ws stB) as (-> & _).
  done.
Qed.

Lemma same_effect_prune_all cls stA stB :
  same_effect stA (prune_all cls stA) stB (prune_all cls stB).
Proof.
  exists [], (list_to_set (map name cls)).
  destruct (prune_all_only_pruned cls stA) as (_ & _ & _ & _ & _ & _ & ->).
  destruct (prune_all_only_pruned cls stB) as (_ & _ & _ & _ & _ & _ & ->).
  rewrite !prune_all_pruned, !app_nil_r.
  rewrite (union_comm_L _ (pruned_clades stA)), (union_comm_L _ (pruned_clades stB)). done.
Qed.

Section TwoStates.

Context `{CloneAlign} (self : Config).

Lemma same_effect_guard nm cells level stA stB :
  same_effect stA (prune nm (enter nm cells level stA)) stB (prune nm (enter nm cells level stB)).
Proof.
  exists [EvVisit nm cells level], {[nm]}. simpl.
  rewrite (union_comm_L _ (pruned_clades stA)), (union_comm_L _ (pruned_clades stB)). done.
Qed.

Lemma same_effect_after_filter c cells level stA stB :
  same_effect stA (after_filter self c cells level stA) stB (after_filter self c cells level stB).
Proof.
  exists [EvVisit (name c) cells level],
         (list_to_set (map name (List.filter (fun cl => negb (is_clean self cl)) (clades c)))).
  rewrite !after_filter_pruned_eq.
  destruct (after_filter_only_pruned self c cells level stA) as (_ & _ & _ & _ & _ & _ & ->).
  destruct (after_filter_only_pruned self c cells level stB) as (_ & _ & _ & _ & _ & _ & ->).
  done.
Qed.

Lemma record_param_indep d d' idx ps :
  is_Some (record_param_to_dict d idx ps) -> is_Some (record_param_to_dict d' idx ps).
Proof.
  destruct ps as [v|]; [|by eexists]. by rewrite !record_param_is_Some.
Qed.

Lemma record_step_indep cells clean g r stA stA' stB :
  record_step self cells clean g r stA = Some stA' ->
  exists stB', record_step self cells clean g r stB = Some stB'
               /\ same_effect stA stA' stB stB'.
Proof.
  intros HA.
  assert (HB : is_Some (record_step self cells clean g r stB)).
  { revert HA. unfold record_step. destruct (record_ok self (none_freq r)); [|by eexists].
    destruct (record_clone_assign_to_dict cells (clone_assign r) clean stA) as [uA|] eqn:HuA;
      cbn [mbind option_bind]; [|done].
    assert (HuB : is_Some (record_clone_assign_to_dict cells (clone_assign r) clean stB)).
    { apply record_clone_assign_covered.
      apply (record_clone_assign_covered cells (clone_assign r) clean stA). by eexists. }
    destruct HuB as [uB ->]. cbn [mbind option_bind].
    unfold record_scores, record_probs.
    destruct (has_total_copy_number_data g && infer_s_score self).
    - destruct (in_cnv (gate_inputs g)) as [cnv|]; cbn [mbind option_bind]; [|done].
      destruct (out_params r !! "mean_gene_type_score") as [ps|]; cbn [mbind option_bind]; [|done].
      destruct (record_param_to_dict (gene_type_score_dict uA) (index cnv) ps) as [dA|] eqn:HdA;
        cbn [mbind option_bind]; [|done].
      destruct (record_param_indep _ (gene_type_score_dict uB) _ _ (mk_is_Some _ _ HdA))
        as [dB ->]. cbn [mbind option_bind].
      destruct (has_allele_specific_data g && infer_b_allele self); [|by eexists].
      destruct (in_hscn (gate_inputs g)) as [hscn|]; cbn [mbind option_bind]; [|done].
      destruct (out_params r !! "mean_allele_assign_prob") as [qs|]; cbn [mbind option_bind]; [|done].
      unfold set_gene_type_score_dict. cbn [allele_assign_prob_dict].
      destruct (record_param_to_dict (allele_assign_prob_dict uA) (index hscn) qs) as [eA|] eqn:HeA;
        cbn [mbind option_bind]; [|done].
      destruct (record_param_indep _ (allele_assign_prob_dict uB) _ _ (mk_is_Some _ _ HeA))
        as [eB ->]. by eexists.
    - cbn [mbind option_bind].
      destruct (has_allele_specific_data g && infer_b_allele self); [|by eexists].
      destruct (in_hscn (gate_inputs g)) as [hscn|]; cbn [mbind option_bind]; [|done].
      destruct (out_params r !! "mean_allele_assign_prob") as [qs|]; cbn [mbind option_bind]; [|done].
      destruct (record_param_to_dict (allele_assign_prob_dict uA) (index hscn) qs) as [eA|] eqn:HeA;
        cbn [mbind option_bind]; [|done].
      destruct (record_param_indep _ (allele_assign_prob_dict uB) _ _ (mk_is_Some _ _ HeA))
        as [eB ->]. by eexists. }
  destruct HB as [stB' HB]. exists stB'. split; [done|].
  destruct (record_ok self (none_freq r)) eqn:Hok.
  - destruct (record_step_writes self _ _ _ _ _ _ HA) as (wsA & _ & HwA & HtA & _ & HpA & _).
    destruct (record_step_writes self _ _ _ _ _ _ HB) as (wsB & _ & HwB & HtB & _ & HpB & _).
    rewrite (HwA Hok) in HtA. rewrite (HwB Hok) in HtB.
    exists (map (fun w => EvAssign (fst w) (snd w)) (commit_writes clean cells (clone_assign r))), ∅.
    by rewrite HtA, HtB, HpA, HpB, !union_empty_r_L.
  - rewrite (record_step_skip self _ _ _ _ _ _ HA Hok), (record_step_skip self _ _ _ _ _ _ HB Hok).
    apply same_effect_refl.
Qed.

End TwoStates.

Section Reruns.

Context `{CloneAlign} (self : Config).

(** The inference procedure is deterministic: its result does not depend
    on the number of calls made before. *)
Hypothesis deterministic :
  forall (n m : nat) (inp : Inputs),
    run_clonealign_pyro_repeat n inp = run_clonealign_pyro_repeat m inp.

Lemma before_recording_indep c cells level stA stB r sA :
  before_recording self c cells level stA = Some (r, sA) ->
  exists sB, before_recording self c cells level stB = Some (r, sB)
             /\ same_effect stA sA stB sB.
Proof.
  intros HA.
  assert (HB : exists sB, before_recording self c cells level stB = Some (r, sB)).
  { revert HA. unfold before_recording.
    rewrite (deterministic (calls (at_inference self c cells level stB))
                           (calls (at_inference self c cells level stA))).
    destruct (run_clonealign_pyro_repeat _ _) as [r'|]; cbn [mbind option_bind]; [|done].
    destruct (snapshot_output self (name c) r' (count_call (at_inference self c cells level stA)));
      cbn [mbind option_bind]; [|done].
    intros [= -> _]. unfold at_inference.
    destruct (snapshot_total self (name c) (gate_inputs (gate_at self c cells)) r
                (after_filter self c cells level stB)) as [sB ->].
    by exists sB. }
  destruct HB as [sB HB]. exists sB. split; [done|].
  exists [EvVisit (name c) cells level],
         (list_to_set (map name (List.filter (fun cl => negb (is_clean self cl)) (clades c)))).
  rewrite (before_recording_pruned self _ _ _ _ _ _ HA).
  rewrite (before_recording_pruned self _ _ _ _ _ _ HB).
  rewrite !after_filter_pruned_eq.
  apply before_recording_effect in HA as (_ & _ & _ & _ & _ & ->).
  apply before_recording_effect in HB as (_ & _ & _ & _ & _ & ->).
  done.
Qed.

Lemma children_indep clean cells ca level :
  Forall (visit_indep_at self) clean ->
  forall (n i : nat) (stA stA' stB : State),
    for_range (descend_into self clean cells ca level) i n stA = Some stA' ->
    exists stB',
      for_range (descend_into self clean cells ca level) i n stB = Some stB'
      /\ same_effect stA stA' stB stB'.
Proof.
  intros Hall. induction n as [|n IH]; intros i stA stA' stB HA; simpl in HA |- *.
  - injection HA as <-. exists stB. split; [done|]. apply same_effect_refl.
  - destruct (descend_into self clean cells ca level i stA) as [sA|] eqn:HdA; [|done].
    assert (HdB : exists sB, descend_into self clean cells ca level i stB = Some sB
                             /\ same_effect stA sA stB sB).
    { revert HdA. unfold descend_into.
      destruct (new_expr_cells cells ca i) as [cs|]; cbn [mbind option_bind]; [|done].
      destruct (clean !! i) as [cl|] eqn:Hcl; cbn [mbind option_bind]; [|done].
      intros Hv. rewrite Forall_forall in Hall.
      apply (Hall cl); [|done]. apply list_elem_of_lookup. by exists i. }
    destruct HdB as (sB & -> & Hse1).
    destruct (IH (Datatypes.S i) sA stA' sB HA) as (stB' & HB & Hse2).
    exists stB'. split; [done|]. by apply (same_effect_trans _ sA _ _ sB).
Qed.

Lemma visit_indep c : visit_indep_at self c.
Proof.
  induction c as [nm cs IHcs] using Clade_rect_Forall.
  intros cells level stA stA' stB. rewrite !visit_eq. set (c := Node nm cs).
  pose proof (same_effect_after_filter self c cells level stA stB) as Haf.
  destruct (clean_clades_at self c cells level) as [clean|] eqn:Hclean.
  2:{ intros Heq%(inj Some). subst stA'. eexists. split; [done|]. apply same_effect_guard. }
  apply clean_clades_at_Some in Hclean as (_ & _ & Hsub).
  assert (Hall : Forall (visit_indep_at self) clean).
  { rewrite Forall_forall in IHcs |- *. intros x Hx. apply IHcs.
    by apply (sublist_subseteq _ _ Hsub). }
  destruct clean as [|c1 [|c2 cl]].
  - intros Heq%(inj Some). subst stA'. eexists. split; [done|]. exact Haf.
  - intros HA. rewrite Forall_forall in Hall.
    destruct (Hall c1 ltac:(by left) _ _ _ _
                (bypass_commit cells c1 (after_filter self c cells level stB)) HA)
      as (stB' & HB & Hse).
    exists stB'. split; [done|].
    eapply same_effect_trans; [exact Haf|].
    eapply same_effect_trans; [|exact Hse].
    rewrite !bypass_is_assign_all. apply same_effect_assign_all.
  - set (clean := c1 :: c2 :: cl) in *.
    destruct (reaches_inference self c cells level).
    2:{ intros Heq%(inj Some). subst stA'. eexists. split; [done|].
        eapply same_effect_trans; [exact Haf|]. apply same_effect_prune_all. }
    destruct (before_recording self c cells level stA) as [[r sA]|] eqn:HbA;
      cbn [mbind option_bind fst snd]; [|done].
    destruct (before_recording_indep c cells level stA stB r sA HbA) as (sB & -> & Hse1).
    cbn [mbind option_bind fst snd].
    destruct (record_step self cells clean (gate_at self c cells) r sA) as [tA|] eqn:HrA;
      cbn [mbind option_bind]; [|done].
    destruct (record_step_indep self cells clean (gate_at self c cells) r sA tA sB HrA)
      as (tB & -> & Hse2).
    cbn [mbind option_bind].
    pose proof (same_effect_trans _ _ _ _ _ _ Hse1 Hse2) as Hse12.
    destruct (record_ok self (none_freq r) && proceed_ok self (none_freq r)).
    + intros HA.
      destruct (children_indep clean cells (clone_assign r) level Hall _ _ _ _ tB HA)
        as (stB' & HB & Hse3).
      exists stB'. split; [done|]. by apply (same_effect_trans _ tA _ _ tB).
    + intros Heq%(inj Some). subst stA'. eexists. split; [done|].
      eapply same_effect_trans; [exact Hse12|]. apply same_effect_prune_all.
Qed.

(** X15.  Repeated runs.  With a deterministic inference procedure, a run
    that succeeds from one state succeeds from every state, and the two runs
    end with the same [pruned_clades] and the same assignment of every input
    cell, whatever the dictionaries, the set and the accumulators held
    before; the assignment of any other cell is left as it was.  In
    particular a second run on the same object ends with the same
    [clone_assign_dict] and the same [pruned_clades] as the first. *)
Theorem rerun_same_assignment stA stA' :
  assign_cells_to_tree self stA = Some stA' ->
  forall stB,
    exists stB',
      assign_cells_to_tree self stB = Some stB'
      /\ pruned_clades stB' = pruned_clades stA'
      /\ (forall cells x, input_cells self = Some cells ->
            if bool_decide (x ∈ cells)
            then clone_assign_dict stB' !! x = clone_assign_dict stA' !! x
            else clone_assign_dict stA' !! x = clone_assign_dict stA !! x
                 /\ clone_assign_dict stB' !! x = clone_assign_dict stB !! x)
      /\ (stB = stA' -> clone_assign_dict stB' = clone_assign_dict stA').
Proof.
  intros HA stB.
  destruct (run_sound self stA stA' HA) as (cells & trA & Hcells & HtA & HdA & HvA).
  revert HA. rewrite !run_eq, Hcells. cbn [mbind option_bind]. intros HA.
  destruct (visit_indep (tree self) cells 0 _ stA'
              (record_clone_assign_to_default cells (tree self) (reset_pruned stB)) HA)
    as (stB' & HB & tr & P & HtrA & HtrB & HpA & HpB).
  exists stB'. split; [done|].
  assert (HB' : assign_cells_to_tree self stB = Some stB').
  { by rewrite run_eq, Hcells. }
  destruct (run_sound self stB stB' HB') as (cells' & trB & Hcells' & HtB & HdB & HvB).
  rewrite Hcells in Hcells'. injection Hcells' as <-.
  rewrite default_is_assign_all in HtrA, HtrB, HpA, HpB.
  rewrite assign_all_trace in HtrA, HtrB. simpl in HtrA, HtrB.
  destruct (assign_all_rest (map (fun c => (c, name (tree self))) cells) (reset_pruned stA))
    as (HrA & _).
  destruct (assign_all_rest (map (fun c => (c, name (tree self))) cells) (reset_pruned stB))
    as (HrB & _).
  rewrite HrA in HpA. rewrite HrB in HpB. simpl in HpA, HpB.
  assert (HeqA : trA = tr).
  { rewrite HtA, map_map in HtrA. simpl in HtrA. rewrite <- app_assoc in HtrA.
    by do 2 apply app_inv_head in HtrA. }
  assert (HeqB : trB = tr).
  { rewrite HtB, map_map in HtrB. simpl in HtrB. rewrite <- app_assoc in HtrB.
    by do 2 apply app_inv_head in HtrB. }
  subst trA trB.
  assert (Hlookup : forall x,
            if bool_decide (x ∈ cells)
            then clone_assign_dict stB' !! x = clone_assign_dict stA' !! x
            else clone_assign_dict stA' !! x = clone_assign_dict stA !! x
                 /\ clone_assign_dict stB' !! x = clone_assign_dict stB !! x).
  { intros x. rewrite HdA, HdB, !replay_lookup. case_bool_decide as Hx.
    - destruct (last (assigned_to x _)) as [n|] eqn:Hlast; [done|].
      exfalso. apply last_None in Hlast.
      assert (Hin : name (tree self) ∈ assigned_to x
                (map (fun x0 => EvAssign x0 (name (tree self))) cells ++ tr)).
      { apply assigned_to_elem, elem_of_app. left. apply list_elem_of_fmap. by exists x. }
      rewrite Hlast in Hin. by apply elem_of_nil in Hin.
    - assert (Hnone : assigned_to x
                (map (fun x0 => EvAssign x0 (name (tree self))) cells ++ tr) = []).
      { rewrite assigned_to_app.
        rewrite (visit_tr_outside _ _ _ _ _ x HvA Hx), app_nil_r.
        apply assigned_to_unmentioned. intros e He Hin.
        apply list_elem_of_fmap in He as (y & -> & Hy). simpl in Hin.
        apply list_elem_of_singleton in Hin. by subst y. }
      by rewrite Hnone. }
  split; [by rewrite HpA, HpB|]. split.
  - intros cells' x [= <-]. apply Hlookup.
  - intros ->. apply map_eq. intros x. specialize (Hlookup x).
    case_bool_decide; [done|]. destruct Hlookup as [H1 H2]. by rewrite H2.
Qed.

End Reruns.

(** * The further properties on the worked example *)

Section FurtherWitnesses.

#[local] Existing Instance ex_stub.

(** The visit of [root] on the example, and a run from a state whose
    [pruned_clades] holds a name that is not in the tree. *)
Lemma pruned_within_subtree_witness :
  assign_cells_to_clade ex_cfg ex_root ex_cells 1 ex_fresh = Some ex_root_final /\
  passes_guards ex_cfg ex_root ex_cells 1 = true /\
  assign_cells_to_tree ex_cfg ex_stale = Some ex_final /\
  pruned_clades ex_fresh ⊆ pruned_clades ex_root_final /\
  pruned_clades ex_root_final
  ⊆ pruned_clades ex_fresh ∪ list_to_set (descendant_names ex_root) /\
  pruned_clades ex_final ⊆ list_to_set (subtree_names ex_top).
Proof.
  assert (Hv : assign_cells_to_clade ex_cfg ex_root ex_cells 1 ex_fresh = Some ex_root_final)
    by evaluate.
  assert (Hpg : passes_guards ex_cfg ex_root ex_cells 1 = true) by evaluate.
  assert (Hrun : assign_cells_to_tree ex_cfg ex_stale = Some ex_final) by evaluate.
  destruct (pruned_within_subtree ex_cfg) as [Hvisit Hruns].
  destruct (Hvisit ex_root ex_cells 1 ex_fresh ex_root_final Hv) as (H1 & _ & H3).
  split; [exact Hv|]. split; [exact Hpg|]. split; [exact Hrun|].
  split; [exact H1|]. split; [exact (H3 Hpg)|]. exact (Hruns ex_stale ex_final Hrun).
Defined.

(** The visit of [root] on the example makes one inference call; three
    clades of its subtree have two children or more. *)
Lemma inference_calls_bounded_witness :
  assign_cells_to_clade ex_cfg ex_root ex_cells 1 ex_fresh = Some ex_root_final /\
  branching ex_root = 3%nat /\
  (calls ex_fresh <= calls ex_root_final <= calls ex_fresh + branching ex_root)%nat.
Proof.
  assert (Hv : assign_cells_to_clade ex_cfg ex_root ex_cells 1 ex_fresh = Some ex_root_final)
    by evaluate.
  split; [exact Hv|]. split; [reflexivity|].
  exact (proj1 (inference_calls_bounded ex_cfg ex_root ex_cells 1 ex_fresh ex_root_final Hv)).
Defined.

(** The visit of the root in a second run on the example starts from the
    accumulators of the first run. *)
Lemma accumulators_append_only_witness :
  assign_cells_to_clade ex_cfg ex_top ex_cells 0
    (record_clone_assign_to_default ex_cells ex_top (reset_pruned ex_final))
  = Some ex_final2 /\
  gene_type_score_dict ex_final !! "g1" = Some [0.5%float] /\
  exists l', gene_type_score_dict ex_final2 !! "g1" = Some ([0.5%float] ++ l').
Proof.
  assert (Hv : assign_cells_to_clade ex_cfg ex_top ex_cells 0
                 (record_clone_assign_to_default ex_cells ex_top (reset_pruned ex_final))
               = Some ex_final2) by evaluate.
  assert (Hg : gene_type_score_dict ex_final !! "g1" = Some [0.5%float]) by evaluate.
  split; [exact Hv|]. split; [exact Hg|].
  exact (proj1 (accumulators_append_only ex_cfg ex_top ex_cells 0 _ ex_final2 Hv)
           "g1" [0.5%float] Hg).
Defined.

(** After the run on the example the cell [x3], which the inference left
    without index, is assigned a name of the tree. *)
Lemma assigned_names_in_tree_witness :
  input_cells ex_cfg = Some ex_cells /\
  assign_cells_to_tree ex_cfg ex_fresh = Some ex_final /\
  "x3" ∈ ex_cells /\
  exists n, clone_assign_dict ex_final !! "x3" = Some n /\ n ∈ subtree_names ex_top.
Proof.
  assert (Hcells : input_cells ex_cfg = Some ex_cells) by reflexivity.
  assert (Hrun : assign_cells_to_tree ex_cfg ex_fresh = Some ex_final) by evaluate.
  assert (Hx : "x3" ∈ ex_cells) by (unfold ex_cells; set_solver).
  split; [exact Hcells|]. split; [exact Hrun|]. split; [exact Hx|].
  exact (proj2 (assigned_names_in_tree ex_cfg) ex_cells ex_fresh ex_final "x3" Hcells Hrun Hx).
Defined.

(** The visit of [A] with one cell, where two are required. *)
Lemma availability_guard_witness :
  2 <= level_cutoff ex_cfg /\
  Z.of_nat (length ["x1"]) < min_cell_count_expr ex_cfg /\
  exists st',
    assign_cells_to_clade ex_cfg ex_A ["x1"] 2 ex_fresh = Some st'
    /\ pruned_clades st' = {["A"]} ∪ pruned_clades ex_fresh
    /\ clone_assign_dict st' = clone_assign_dict ex_fresh.
Proof.
  assert (Hlevel : 2 <= level_cutoff ex_cfg) by (vm_compute; discriminate).
  assert (Hfew : Z.of_nat (length ["x1"]) < min_cell_count_expr ex_cfg) by reflexivity.
  split; [exact Hlevel|]. split; [exact Hfew|].
  destruct (proj1 (availability_guard ex_cfg ex_A ["x1"] 2 ex_fresh Hlevel) (or_introl Hfew))
    as (st' & Hv & Hp & Hd & _).
  exists st'. split; [exact Hv|]. split; [exact Hp|exact Hd].
Defined.

(** The child [c1] of [root] has one terminal, where two are required. *)
Lemma unclean_children_pruned_witness :
  assign_cells_to_clade ex_cfg ex_root ex_cells 1 ex_fresh = Some ex_root_final /\
  passes_guards ex_cfg ex_root ex_cells 1 = true /\
  leaf "c1" ∈ clades ex_root /\
  Z.of_nat (length (get_terminals (leaf "c1"))) < min_cell_count_cnv ex_cfg /\
  "c1" ∈ pruned_clades ex_root_final.
Proof.
  assert (Hv : assign_cells_to_clade ex_cfg ex_root ex_cells 1 ex_fresh = Some ex_root_final)
    by evaluate.
  assert (Hpg : passes_guards ex_cfg ex_root ex_cells 1 = true) by evaluate.
  assert (Hin : leaf "c1" ∈ clades ex_root) by (simpl; set_solver).
  assert (Hfew : Z.of_nat (length (get_terminals (leaf "c1"))) < min_cell_count_cnv ex_cfg)
    by reflexivity.
  split; [exact Hv|]. split; [exact Hpg|]. split; [exact Hin|]. split; [exact Hfew|].
  exact (unclean_children_pruned ex_cfg ex_root ex_cells 1 ex_fresh ex_root_final
           (leaf "c1") Hv Hpg Hin Hfew).
Defined.

(** The visit of [A] with two cells: both children of [A] are terminals. *)
Lemma no_clean_child_witness :
  passes_guards ex_cfg ex_A ["x2"; "x4"] 2 = true /\
  Forall (fun ch => Z.of_nat (length (get_terminals ch)) < min_cell_count_cnv ex_cfg)
         (clades ex_A) /\
  exists st',
    assign_cells_to_clade ex_cfg ex_A ["x2"; "x4"] 2 ex_fresh = Some st'
    /\ pruned_clades st' = pruned_clades ex_fresh ∪ list_to_set (map name (clades ex_A))
    /\ clone_assign_dict st' = clone_assign_dict ex_fresh
    /\ calls st' = calls ex_fresh.
Proof.
  assert (Hpg : passes_guards ex_cfg ex_A ["x2"; "x4"] 2 = true) by evaluate.
  assert (Hall : Forall (fun ch => Z.of_nat (length (get_terminals ch))
                                   < min_cell_count_cnv ex_cfg) (clades ex_A))
    by (repeat constructor).
  split; [exact Hpg|]. split; [exact Hall|].
  destruct (no_clean_child ex_cfg ex_A ["x2"; "x4"] 2 ex_fresh Hpg Hall)
    as (st' & Hv & Hp & Hd & _ & _ & _ & Hc & _).
  exists st'. split; [exact Hv|]. split; [exact Hp|]. split; [exact Hd|exact Hc].
Defined.


(** The index [-1] over the clean children [A] and [B]. *)
Lemma negative_index_counts_from_end_witness :
  NoDup ["x1"; "x2"] /\
  record_clone_assign_to_dict ["x1"; "x2"] [Some (-1); Some 0] [ex_A; ex_B] ex_fresh
  = Some ex_wrapped /\
  exists cl,
    [ex_A; ex_B] !! Z.to_nat (Z.of_nat (length [ex_A; ex_B]) + -1) = Some cl
    /\ clone_assign_dict ex_wrapped !! "x1" = Some (name cl)
    /\ forall i cs, new_expr_cells ["x1"; "x2"] [Some (-1); Some 0] i = Some cs -> "x1" ∉ cs.
Proof.
  assert (Hnd : NoDup ["x1"; "x2"]).
  { apply (bool_decide_unpack (NoDup ["x1"; "x2"])). vm_compute. exact I. }
  assert (Hrun : record_clone_assign_to_dict ["x1"; "x2"] [Some (-1); Some 0] [ex_A; ex_B]
                   ex_fresh = Some ex_wrapped) by evaluate.
  split; [exact Hnd|]. split; [exact Hrun|].
  exact (negative_index_counts_from_end ["x1"; "x2"] [Some (-1); Some 0] [ex_A; ex_B]
           ex_fresh ex_wrapped 0 "x1" (-1) Hnd Hrun eq_refl eq_refl eq_refl).
Defined.

(** A second run on the example, from the state the first run left. *)
Lemma rerun_same_assignment_witness :
  (forall (n m : nat) (inp : Inputs),
     run_clonealign_pyro_repeat n inp = run_clonealign_pyro_repeat m inp) /\
  assign_cells_to_tree ex_cfg ex_fresh = Some ex_final /\
  exists st',
    assign_cells_to_tree ex_cfg ex_final = Some st'
    /\ pruned_clades st' = pruned_clades ex_final
    /\ clone_assign_dict st' = clone_assign_dict ex_final.
Proof.
  assert (Hdet : forall (n m : nat) (inp : Inputs),
             run_clonealign_pyro_repeat n inp = run_clonealign_pyro_repeat m inp)
    by reflexivity.
  assert (Hrun : assign_cells_to_tree ex_cfg ex_fresh = Some ex_final) by evaluate.
  split; [exact Hdet|]. split; [exact Hrun|].
  destruct (rerun_same_assignment ex_cfg Hdet ex_fresh ex_final Hrun ex_final)
    as (st' & Hrun' & Hp & _ & Hd).
  exists st'. split; [exact Hrun'|]. split; [exact Hp|exact (Hd eq_refl)].
Defined.

End FurtherWitnesses.

(** * The names of the internal nodes *)

Lemma RawClade_rect_Forall (P : RawClade -> Prop) :
  (forall nm bl cs, Forall P cs -> P (RawNode nm bl cs)) -> forall c, P c.
Proof.
  intros Hnode. fix IH 1. intros [nm bl cs]. apply Hnode.
  induction cs as [|c cs IHcs]; constructor; [apply IH|apply IHcs].
Qed.

Lemma fresh_names_app count (a b : nat) :
  fresh_names count (a + b)
  = fresh_names count a ++ fresh_names (count + Z.of_nat a) b.
Proof.
  unfold fresh_names. rewrite seq_app, map_app. f_equal. simpl.
  generalize a as start. induction b as [|b IH]; intros start; [done|].
  simpl. f_equal; [f_equal; lia|].
  rewrite <- (seq_shift b 0), map_map, (IH (S start)).
  apply map_ext. intros i. f_equal. lia.
Qed.

Lemma fresh_name_inj k1 k2 : fresh_name k1 = fresh_name k2 -> k1 = k2.
Proof.
  unfold fresh_name. intros Heq. apply (inj (String.app "node_")) in Heq.
  by apply (inj pretty) in Heq.
Qed.

Lemma fresh_names_elem count n x :
  x ∈ fresh_names count n
  <-> exists k, count <= k < count + Z.of_nat n /\ x = fresh_name k.
Proof.
  unfold fresh_names. rewrite list_elem_of_fmap. split.
  - intros (i & -> & Hi). apply elem_of_seq in Hi.
    exists (count + Z.of_nat i). split; [lia|done].
  - intros (k & Hk & ->). exists (Z.to_nat (k - count)). split.
    + f_equal. lia.
    + apply elem_of_seq. lia.
Qed.

Lemma fresh_names_NoDup count n : NoDup (fresh_names count n).
Proof.
  unfold fresh_names. apply NoDup_fmap_2_strong; [|apply NoDup_seq].
  intros i j _ _ Heq. apply fresh_name_inj in Heq. lia.
Qed.

Lemma add_tree_node_name_eq node count :
  add_tree_node_name node count
  = if is_terminal node then (node, count)
    else
      let '(nm, count) :=
        match raw_name node with
        | None => (Some (fresh_name count), count + 1)
        | Some nm => (Some nm, count)
        end in
      let '(children, count) := for_each_child add_tree_node_name (raw_clades node) count in
      (RawNode nm (branch_length node) children, count).
Proof. by destruct node. Qed.

Lemma for_each_child_named (l : list RawClade) :
  Forall (fun c => forall count, named_from c count (add_tree_node_name c count)) l ->
  forall count,
    snd (for_each_child add_tree_node_name l count)
    = count + Z.of_nat (list_sum (map unnamed_internal l))
    /\ Forall2 kept l (fst (for_each_child add_tree_node_name l count))
    /\ forallb internal_named (fst (for_each_child add_tree_node_name l count)) = true
    /\ concat (zip_with new_names l (fst (for_each_child add_tree_node_name l count)))
       = map Some (fresh_names count (list_sum (map unnamed_internal l)))
    /\ concat (map names (fst (for_each_child add_tree_node_name l count)))
       ≡ₚ concat (map names l) ++ fresh_names count (list_sum (map unnamed_internal l)).
Proof.
  induction 1 as [|c l Hc _ IH]; intros count.
  - simpl. rewrite Z.add_0_r. repeat split; done.
  - cbn [for_each_child].
    destruct (Hc count) as (Hk1 & Hkept1 & Hnamed1 & Hnew1 & Hperm1).
    destruct (add_tree_node_name c count) as [c' k1]. cbn [fst snd] in *. subst k1.
    destruct (IH (count + Z.of_nat (unnamed_internal c)))
      as (Hk2 & Hkept2 & Hnamed2 & Hnew2 & Hperm2).
    destruct (for_each_child add_tree_node_name l (count + Z.of_nat (unnamed_internal c)))
      as [l' k2].
    cbn [fst snd] in *. subst k2.
    cbn [map list_sum foldr zip_with concat forallb].
    change (foldr Init.Nat.add 0%nat (map unnamed_internal l))
      with (list_sum (map unnamed_internal l)).
    rewrite fresh_names_app, map_app.
    split; [lia|]. split; [by constructor|]. split; [by rewrite Hnamed1, Hnamed2|].
    split; [by rewrite Hnew1, Hnew2|].
    rewrite Hperm1, Hperm2, <- !app_assoc. apply Permutation_app_head.
    apply Permutation_app_swap_app.
Qed.

Lemma add_tree_node_name_named c :
  forall count, named_from c count (add_tree_node_name c count).
Proof.
  induction c as [nm bl cs IHcs] using RawClade_rect_Forall. intros count.
  rewrite add_tree_node_name_eq. unfold named_from.
  destruct cs as [|c1 rest].
  - cbn. rewrite Z.add_0_r, !app_nil_r. destruct nm as [n|].
    + repeat split; done.
    + repeat split; done.
  - set (cs := c1 :: rest) in *.
    assert (Hterm : is_terminal (RawNode nm bl cs) = false) by done.
    rewrite Hterm. cbn [raw_name branch_length raw_clades].
    assert (Hunfold : unnamed_internal (RawNode nm bl cs)
                      = ((match nm with None => 1 | Some _ => 0 end)
                         + list_sum (map unnamed_internal cs))%nat) by done.
    assert (Hnames : forall nm' cs', names (RawNode nm' bl cs')
                       = match nm' with Some n => [n] | None => [] end
                         ++ concat (map names cs')) by done.
    assert (Hnew : forall nm' cs', new_names (RawNode nm bl cs) (RawNode nm' bl cs')
                     = match nm with None => [nm'] | Some _ => [] end
                       ++ concat (zip_with new_names cs cs')) by done.
    assert (Hint : forall n cs', internal_named (RawNode (Some n) bl cs')
                                 = forallb internal_named cs').
    { intros n cs'. cbn [internal_named raw_name raw_clades]. by rewrite orb_true_r. }
    rewrite Hunfold. destruct nm as [n|].
    + destruct (for_each_child_named cs IHcs count) as (Hk & Hkept & Hnamed & Hnw & Hperm).
      destruct (for_each_child add_tree_node_name cs count) as [cs' k]. cbn [fst snd] in *.
      rewrite Hnames, Hnew, Hint, Hnames. cbn [app].
      split; [done|]. split; [by constructor|]. split; [done|]. split; [done|].
      by rewrite Hperm.
    + destruct (for_each_child_named cs IHcs (count + 1)) as (Hk & Hkept & Hnamed & Hnw & Hperm).
      destruct (for_each_child add_tree_node_name cs (count + 1)) as [cs' k].
      cbn [fst snd] in *.
      rewrite Hnames, Hnew, Hint, Hnames. cbn [app].
      rewrite (fresh_names_app count 1). cbn [fresh_names seq map app].
      rewrite Z.add_0_r. change (Z.of_nat 1) with 1.
      split; [lia|]. split.
      { constructor; [|done]. intros [Hnil | [? ?]]; done. }
      split; [done|]. split; [by rewrite Hnw|].
      rewrite Hperm. apply Permutation_middle.
Qed.

Lemma for_each_child_fixed (l : list RawClade) :
  Forall (fun c => internal_named c = true ->
                   forall count, add_tree_node_name c count = (c, count)) l ->
  forallb internal_named l = true ->
  forall count, for_each_child add_tree_node_name l count = (l, count).
Proof.
  induction 1 as [|c l Hc _ IH]; intros Hall count; [done|].
  cbn [forallb] in Hall. apply andb_true_iff in Hall as [Hc1 Hl].
  cbn [for_each_child]. by rewrite (Hc Hc1 count), (IH Hl count).
Qed.

Lemma add_tree_node_name_fixed c :
  internal_named c = true -> forall count, add_tree_node_name c count = (c, count).
Proof.
  induction c as [nm bl cs IHcs] using RawClade_rect_Forall. intros Hnamed count.
  rewrite add_tree_node_name_eq.
  destruct (is_terminal (RawNode nm bl cs)) eqn:Hterm; [done|].
  cbn [internal_named raw_name raw_clades] in Hnamed. rewrite Hterm in Hnamed.
  apply andb_true_iff in Hnamed as [Hnm Hcs].
  cbn [raw_name raw_clades branch_length].
  destruct nm as [n|]; [|done].
  by rewrite (for_each_child_fixed cs IHcs Hcs count).
Qed.

(** X16.  [add_tree_node_name] touches nothing but the names of the
    internal clades that have none: the tree keeps its shape and its branch
    lengths, every terminal clade keeps its name, also when it has none, and
    every clade that has a name keeps it.  A terminal clade is returned as
    it is, with the counter as it was. *)
Theorem node_names_kept node count :
  kept node (fst (add_tree_node_name node count))
  /\ (is_terminal node = true -> add_tree_node_name node count = (node, count)).
Proof.
  split.
  - by destruct (add_tree_node_name_named node count) as (_ & Hkept & _).
  - intros Hterm. by rewrite add_tree_node_name_eq, Hterm.
Qed.

(** X17.  After [add_tree_node_name] every internal clade has a name.  The
    counter has advanced by the number of internal clades that had none,
    and these clades are named [node_<count>], [node_<count+1>], ... in
    pre-order: a clade before its children, the children from first to
    last. *)
Theorem node_names_fresh node count :
  internal_named (fst (add_tree_node_name node count)) = true
  /\ snd (add_tree_node_name node count) = count + Z.of_nat (unnamed_internal node)
  /\ new_names node (fst (add_tree_node_name node count))
     = map (fun i => Some ("node_" +:+ pretty (count + Z.of_nat i)))
           (seq 0 (unnamed_internal node)).
Proof.
  destruct (add_tree_node_name_named node count) as (Hk & _ & Hnamed & Hnew & _).
  split; [done|]. split; [done|].
  rewrite Hnew. unfold fresh_names. by rewrite map_map.
Qed.

(** X18.  [add_tree_node_name] is idempotent: on a tree whose internal
    clades all have a name, in particular on its own result, it changes
    neither the tree nor the counter. *)
Theorem node_names_idempotent node count :
  (internal_named node = true -> add_tree_node_name node count = (node, count))
  /\ forall count',
       add_tree_node_name (fst (add_tree_node_name node count)) count'
       = (fst (add_tree_node_name node count), count').
Proof.
  split; [intros Hnamed; by apply add_tree_node_name_fixed|].
  intros count'. apply add_tree_node_name_fixed.
  by destruct (add_tree_node_name_named node count) as (_ & _ & Hnamed & _).
Qed.

(** X19.  The names after [add_tree_node_name] are the names there were and
    the names given.  They are pairwise distinct when the names there were
    are pairwise distinct and none of them is one of the names given,
    [node_<k>] for [k] from the counter on. *)
Theorem node_names_distinct node count :
  NoDup (names node) ->
  (forall k, count <= k < count + Z.of_nat (unnamed_internal node) ->
             "node_" +:+ pretty k ∉ names node) ->
  names (fst (add_tree_node_name node count))
  ≡ₚ names node ++ map (fun i => "node_" +:+ pretty (count + Z.of_nat i))
                       (seq 0 (unnamed_internal node))
  /\ NoDup (names (fst (add_tree_node_name node count))).
Proof.
  intros Hnd Hfree.
  destruct (add_tree_node_name_named node count) as (_ & _ & _ & _ & Hperm).
  split; [exact Hperm|]. rewrite Hperm. apply NoDup_app. split; [done|]. split.
  - intros x Hx Hfresh. apply fresh_names_elem in Hfresh as (k & Hk & ->).
    by apply (Hfree k).
  - apply fresh_names_NoDup.
Qed.

Section NamingWitnesses.

(** The tree [ex_raw] has the names [a] and [b]; from the counter value 0
    its two unnamed internal clades become [node_0] and [node_1]. *)
Lemma node_names_distinct_witness :
  NoDup (names ex_raw) /\
  (forall k, 0 <= k < 0 + Z.of_nat (unnamed_internal ex_raw) ->
             "node_" +:+ pretty k ∉ names ex_raw) /\
  add_tree_node_name ex_raw 0 = (ex_raw_named, 2) /\
  NoDup (names (fst (add_tree_node_name ex_raw 0))).
Proof.
  assert (Hnd : NoDup (names ex_raw)).
  { apply (bool_decide_unpack (NoDup (names ex_raw))). vm_compute. exact I. }
  assert (Hfree : forall k, 0 <= k < 0 + Z.of_nat (unnamed_internal ex_raw) ->
                            "node_" +:+ pretty k ∉ names ex_raw).
  { intros k Hk Hin. change (names ex_raw) with ["a"; "b"]%string in Hin.
    change (unnamed_internal ex_raw) with 2%nat in Hk.
    assert (Hcases : k = 0 \/ k = 1) by lia.
    destruct Hcases as [-> | ->]; vm_compute in Hin;
      apply elem_of_cons in Hin as [Hin | Hin]; try discriminate Hin;
      apply elem_of_cons in Hin as [Hin | Hin]; try discriminate Hin;
      by apply elem_of_nil in Hin. }
  split; [exact Hnd|]. split; [exact Hfree|]. split; [evaluate|].
  exact (proj2 (node_names_distinct ex_raw 0 Hnd Hfree)).
Defined.

End NamingWitnesses.

(** * The visualization *)

(** ** The export of the tree *)

Lemma get_json_eq nm bl cs :
  get_json (RawNode nm bl cs)
  = JDict (("name", match nm with Some n => JStr n | None => JNull end)
           :: ("length", JNum (match bl with Some x => x | None => 1%float end))
           :: match cs with
              | [] => []
              | _ :: _ => [("children", JList (map get_json cs))]
              end).
Proof. by destruct bl, cs. Qed.

Lemma map_eq_iff_Forall {A B C : Type} (f : A -> B) (g : A -> C) (l1 : list A) :
  Forall (fun a => forall b, f a = f b <-> g a = g b) l1 ->
  forall l2, map f l1 = map f l2 <-> map g l1 = map g l2.
Proof.
  induction 1 as [|a l1 Ha _ IH]; intros [|b l2]; simpl; try done.
  split; intros [= Hab Hl]; f_equal; by (apply Ha || apply IH).
Qed.

(** X20.  The export of the tree ([get_json] in [output_json]) determines
    the tree up to the missing branch lengths, which it writes as 1: two
    trees have the same export exactly when they have the same shape, the
    same names, missing names included, and the same branch lengths once
    every missing one is read as 1. *)
Theorem export_determines_tree c1 c2 :
  get_json c1 = get_json c2 <-> fill_lengths c1 = fill_lengths c2.
Proof.
  revert c2. induction c1 as [nm1 bl1 cs1 IH] using RawClade_rect_Forall.
  intros [nm2 bl2 cs2]. rewrite !get_json_eq. cbn [fill_lengths raw_name branch_length raw_clades].
  pose proof (map_eq_iff_Forall get_json fill_lengths cs1 IH cs2) as Hkids.
  split.
  - intros [= Hnm Hbl Hcs].
    assert (nm1 = nm2) as -> by (destruct nm1, nm2; congruence).
    rewrite Hbl. f_equal. apply Hkids.
    clear Hkids IH. destruct cs1, cs2; try done. simpl in *. congruence.
  - intros [= -> Hbl Hcs]. rewrite Hbl. apply Hkids in Hcs.
    do 3 f_equal. destruct cs1, cs2; try done. by rewrite Hcs.
Qed.

(** ** The rows kept by [subsample_genes] *)

Lemma select_rows_in_filter g l :
  g <> 0 ->
  select_rows_in g l = Some (List.filter (fun i => Z.of_nat i mod g =? 1) l).
Proof.
  intros Hg. induction l as [|i l IH]; [done|].
  simpl. rewrite (proj2 (Z.eqb_neq g 0) Hg), IH. simpl.
  by destruct (Z.of_nat i mod g =? 1).
Qed.

Lemma select_rows_progression (g : Z) (n : nat) :
  2 <= g ->
  exists m : nat,
    List.filter (fun i => Z.of_nat i mod g =? 1) (seq 0 n)
    = map (fun k => (1 + k * Z.to_nat g)%nat) (seq 0 m)
    /\ forall k : nat, (k < m)%nat <-> 1 + Z.of_nat k * g < Z.of_nat n.
Proof.
  intros Hg. induction n as [|n (m & Hrows & Hm)].
  - exists 0%nat. split; [done|]. intros k. split; [lia|nia].
  - rewrite seq_S, List.filter_app, Hrows. cbn [List.filter Nat.add].
    destruct (Z.of_nat n mod g =? 1) eqn:Hmod.
    + apply Z.eqb_eq in Hmod.
      pose proof (Z.div_mod (Z.of_nat n) g ltac:(lia)) as Hdiv. rewrite Hmod in Hdiv.
      assert (Hq : 0 <= Z.of_nat n / g) by (apply Z.div_pos; lia).
      pose proof (Hm (Z.to_nat (Z.of_nat n / g))) as Hmq. pose proof (Hm m) as Hmm.
      assert (Heq : Z.of_nat n / g = Z.of_nat m) by nia.
      assert (Hn : n = (1 + m * Z.to_nat g)%nat) by nia.
      exists (S m). split.
      * rewrite seq_S, map_app. cbn [map Nat.add]. do 2 f_equal. lia.
      * intros k. split; [nia|]. intros Hk. nia.
    + apply Z.eqb_neq in Hmod. exists m. split; [by rewrite app_nil_r|].
      intros k. split; [intros Hk%Hm; lia|]. intros Hk. apply Hm.
      assert (Hne : 1 + Z.of_nat k * g <> Z.of_nat n).
      { intros Heq. apply Hmod. rewrite <- Heq, Z.mod_add by lia.
        apply Z.mod_small. lia. }
      lia.
Qed.

(** X21.  The rows that [subsample_genes] keeps (line 226), for the value
    [gene_group] computed at line 225 and [n] genes.  With [gene_group] 0
    the selection raises as soon as there is a gene.  Otherwise the rows
    kept are the positions below [n] that leave the remainder 1, in
    increasing order; row 0 is never kept.  With [gene_group] 1, or
    negative, no row is kept at all; with [gene_group] at least 2 the rows
    kept are 1, 1 + gene_group, 1 + 2 gene_group, ... below [n]. *)
Theorem select_rows_result n g :
  (is_Some (select_rows n g) <-> n = 0%nat \/ g <> 0)
  /\ forall rows,
       select_rows n g = Some rows ->
       sublist rows (seq 0 n)
       /\ (forall i, i ∈ rows <-> (i < n)%nat /\ Z.of_nat i mod g = 1)
       /\ (O ∉ rows)
       /\ (g <= 1 -> rows = [])
       /\ (2 <= g ->
           exists m : nat,
             rows = map (fun k => (1 + k * Z.to_nat g)%nat) (seq 0 m)
             /\ forall k : nat, (k < m)%nat <-> 1 + Z.of_nat k * g < Z.of_nat n).
Proof.
  unfold select_rows. destruct (decide (g = 0)) as [->|Hg].
  - destruct n as [|n]; simpl.
    + split; [split; [by left|by eexists]|]. intros rows [= <-].
      split; [done|]. split; [|split; [by intros ?%elem_of_nil|split; [done|lia]]].
      intros i. split; [by intros ?%elem_of_nil|lia].
    + split; [|done]. split; [by intros [? ?]|]. by intros [?|?].
  - rewrite (select_rows_in_filter g _ Hg).
    split; [split; [by right|by eexists]|]. intros rows [= <-].
    assert (Hmem : forall i, i ∈ List.filter (fun i => Z.of_nat i mod g =? 1) (seq 0 n)
                             <-> (i < n)%nat /\ Z.of_nat i mod g = 1).
    { intros i. rewrite list_elem_of_In, filter_In, <- list_elem_of_In, elem_of_seq, Z.eqb_eq.
      split; intros [? ?]; split; done || lia. }
    split; [apply filter_sublist|]. split; [exact Hmem|]. split; [|split].
    + intros [_ H0]%Hmem. by rewrite Z.mod_0_l in H0.
    + intros Hle. apply elem_of_nil_inv. intros i [_ Hi]%Hmem.
      destruct (decide (g = 1)) as [->|Hne]; [by rewrite Z.mod_1_r in Hi|].
      pose proof (Z.mod_neg_bound (Z.of_nat i) g ltac:(lia)). lia.
    + intros Hge. by apply select_rows_progression.
Qed.

(** ** The tabs of [pack_into_tab_data] *)

Section Tabs.

Context {T C D : Type}.

Lemma tab_data_at_Some (data : list D) (tab_titles : option (list T))
    (tab_contents : option (list C)) (i : nat) (e : TabData T C D) :
  tab_data_at data tab_titles tab_contents i = Some e
  <-> tab_id e = pretty i
      /\ (exists ts, tab_titles = Some ts /\ ts !! i = Some (tabTitle e))
      /\ (exists cs, tab_contents = Some cs /\ cs !! i = Some (tabContent e))
      /\ data !! i = Some (tab_data e).
Proof.
  unfold tab_data_at. split.
  - destruct tab_titles as [ts|]; simpl; [|done].
    destruct (ts !! i) as [t|] eqn:Ht; simpl; [|done].
    destruct tab_contents as [cs|]; simpl; [|done].
    destruct (cs !! i) as [c|] eqn:Hc; simpl; [|done].
    destruct (data !! i) as [d|] eqn:Hd; simpl; [|done].
    intros [= <-]. simpl. split; [done|]. split; [by exists ts|]. split; [by exists cs|done].
  - intros (Hid & (ts & -> & Ht) & (cs & -> & Hc) & Hd). simpl.
    rewrite Ht. simpl. rewrite Hc. simpl. rewrite Hd. simpl.
    destruct e as [id t c d]. simpl in *. by subst id.
Qed.

Lemma tab_data_at_is_Some (data : list D) (tab_titles : option (list T))
    (tab_contents : option (list C)) (i : nat) :
  is_Some (tab_data_at data tab_titles tab_contents i)
  <-> exists ts cs, tab_titles = Some ts /\ tab_contents = Some cs
                    /\ (i < length ts)%nat /\ (i < length cs)%nat /\ (i < length data)%nat.
Proof.
  split.
  - intros [e He]. apply tab_data_at_Some in He as (_ & (ts & -> & Ht) & (cs & -> & Hc) & Hd).
    exists ts, cs. apply lookup_lt_Some in Ht, Hc, Hd. done.
  - intros (ts & cs & -> & -> & Ht & Hc & Hd).
    apply lookup_lt_is_Some in Ht as [t Ht], Hc as [c Hc], Hd as [d Hd].
    exists (mkTabData (pretty i) t c d). apply tab_data_at_Some. simpl.
    split; [done|]. split; [by exists ts|]. split; [by exists cs|done].
Qed.

(** X22.  The tabs built by [pack_into_tab_data] (lines 168-171).  The
    loop raises exactly when there is some data and the titles or the
    contents are [None], as they are by default, or fewer than the data.
    Otherwise there is one tab for each item of the data, in order; tab [i]
    has the identifier [str(i)], title [i], content [i] and item [i]; the
    identifiers are pairwise distinct. *)
Theorem tab_output_result (data : list D) (tab_titles : option (list T))
    (tab_contents : option (list C)) :
  (is_Some (tab_output data tab_titles tab_contents)
   <-> data = []
       \/ exists ts cs, tab_titles = Some ts /\ tab_contents = Some cs
                        /\ (length data <= length ts)%nat
                        /\ (length data <= length cs)%nat)
  /\ forall output,
       tab_output data tab_titles tab_contents = Some output ->
       length output = length data
       /\ (forall i e, output !! i = Some e ->
             tab_id e = pretty i
             /\ (exists ts, tab_titles = Some ts /\ ts !! i = Some (tabTitle e))
             /\ (exists cs, tab_contents = Some cs /\ cs !! i = Some (tabContent e))
             /\ data !! i = Some (tab_data e))
       /\ NoDup (map tab_id output).
Proof.
  unfold tab_output. split.
  - rewrite (for_range_is_Some _
               (fun k => is_Some (tab_data_at data tab_titles tab_contents k))).
    2:{ intros k s. destruct (tab_data_at data tab_titles tab_contents k); simpl.
        - split; by eexists.
        - split; by intros [? ?]. }
    split.
    + intros Hall. destruct data as [|d data]; [by left|]. right.
      destruct (proj1 (tab_data_at_is_Some _ _ _ _) (Hall 0%nat ltac:(simpl; lia)))
        as (ts & cs & -> & -> & _).
      exists ts, cs. split; [done|]. split; [done|].
      destruct (proj1 (tab_data_at_is_Some _ _ _ _)
                  (Hall (length data) ltac:(simpl; lia)))
        as (ts' & cs' & [= <-] & [= <-] & Ht & Hc & _).
      simpl. lia.
    + intros [-> | (ts & cs & -> & -> & Ht & Hc)] k Hk; [simpl in Hk; lia|].
      apply tab_data_at_is_Some. exists ts, cs. repeat split; try done; lia.
  - intros output Hrun.
    pose proof (for_range_inv
      (fun k out => length out = k
                    /\ forall i e, out !! i = Some e ->
                         tab_data_at data tab_titles tab_contents i = Some e)
      _ (length data) 0 [] output Hrun) as Hinv.
    destruct Hinv as [Hlen Hall].
    + split; [done|]. by intros i e.
    + intros k out out' _ [Hlen Hall] Hbody.
      destruct (tab_data_at data tab_titles tab_contents k) as [e|] eqn:He;
        simpl in Hbody; [|done].
      injection Hbody as <-. split; [rewrite length_app; simpl; lia|].
      intros i e' Hi. apply lookup_app_Some in Hi as [Hi | [Hge Hi]]; [by apply Hall|].
      rewrite Hlen in Hge, Hi.
      destruct (i - k)%nat as [|j] eqn:Hj; simpl in Hi; [|done].
      injection Hi as <-. by replace i with k by lia.
    + simpl in Hlen. split; [done|]. split.
      * intros i e Hi. by apply tab_data_at_Some, Hall.
      * apply NoDup_alt. intros i j id Hi Hj.
        rewrite list_lookup_fmap in Hi, Hj.
        destruct (output !! i) as [ei|] eqn:Hei; simpl in Hi; [|done].
        destruct (output !! j) as [ej|] eqn:Hej; simpl in Hj; [|done].
        apply Hall, tab_data_at_Some in Hei as (Hidi & _).
        apply Hall, tab_data_at_Some in Hej as (Hidj & _).
        injection Hi as Hi. injection Hj as Hj.
        apply (inj pretty). congruence.
Qed.

End Tabs.

(** ** The elements of [generate_sankey] *)

Lemma foldl_min_spec (l : list Z) :
  forall i, foldl Z.min i l ∈ i :: l /\ forall x, x ∈ i :: l -> foldl Z.min i l <= x.
Proof.
  induction l as [|a l IH]; intros i; simpl.
  - split; [by left|]. intros x Hx%list_elem_of_singleton. lia.
  - destruct (IH (Z.min i a)) as [Hin Hle]. split.
    + apply elem_of_cons in Hin as [-> | Hin]; [|by do 2 right].
      destruct (Z.min_spec i a) as [[_ ->] | [_ ->]]; [by left|right; by left].
    + intros x Hx. pose proof (Hle (Z.min i a) ltac:(by left)) as Hm.
      apply elem_of_cons in Hx as [-> | Hx]; [lia|].
      apply elem_of_cons in Hx as [-> | Hx]; [lia|]. apply Hle. by right.
Qed.

Lemma foldl_max_spec (l : list Z) :
  forall i, foldl Z.max i l ∈ i :: l /\ forall x, x ∈ i :: l -> x <= foldl Z.max i l.
Proof.
  induction l as [|a l IH]; intros i; simpl.
  - split; [by left|]. intros x Hx%list_elem_of_singleton. lia.
  - destruct (IH (Z.max i a)) as [Hin Hle]. split.
    + apply elem_of_cons in Hin as [-> | Hin]; [|by do 2 right].
      destruct (Z.max_spec i a) as [[_ ->] | [_ ->]]; [right; by left|by left].
    + intros x Hx. pose proof (Hle (Z.max i a) ltac:(by left)) as Hm.
      apply elem_of_cons in Hx as [-> | Hx]; [lia|].
      apply elem_of_cons in Hx as [-> | Hx]; [lia|]. apply Hle. by right.
Qed.

Lemma indices_where_elem column terminal i :
  i ∈ indices_where column terminal <-> (i, terminal) ∈ column.
Proof.
  unfold indices_where. rewrite list_elem_of_fmap. split.
  - intros ([j v] & -> & Hin). apply list_elem_of_In, filter_In in Hin as [Hin Hv].
    apply bool_decide_eq_true in Hv. simpl in Hv. subst v. by apply list_elem_of_In.
  - intros Hin. exists (i, terminal). split; [done|].
    apply list_elem_of_In, filter_In. split; [by apply list_elem_of_In|].
    by apply bool_decide_eq_true.
Qed.

Lemma indices_where_nonempty column terminal :
  negb (length (indices_where column terminal) =? 0)%nat = true
  <-> exists i, (i, terminal) ∈ column.
Proof.
  rewrite negb_true_iff, Nat.eqb_neq. split.
  - destruct (indices_where column terminal) as [|i l] eqn:Hl; [done|]. intros _.
    exists i. apply indices_where_elem. rewrite Hl. by left.
  - intros [i Hi%indices_where_elem].
    destruct (indices_where column terminal); [by apply elem_of_nil in Hi|done].
Qed.

Lemma sankey_step_None_l cnv_column expr_column terminals :
  foldl (sankey_step cnv_column expr_column) None terminals = None.
Proof. by induction terminals. Qed.

(** X23.  [generate_sankey].  The call appends to [self.sankey], and keeps
    what it held, one element for each terminal node that has a row in both
    tables, in the order of the terminal nodes.  The two bounds that an
    element gives for a table are index labels of rows of the terminal node
    in that table, and the label of every such row lies between them.  When
    there is a terminal node and one of the tables lacks the column, the
    call raises. *)
Theorem generate_sankey_result terminal_nodes cnv expr sankey :
  generate_sankey terminal_nodes (Some cnv) (Some expr) sankey
  = Some (sankey ++ map (sankey_element cnv expr)
                        (List.filter (on_both_sides cnv expr) terminal_nodes))
  /\ (forall t, on_both_sides cnv expr t = true
                <-> (exists i, (i, t) ∈ cnv) /\ (exists i, (i, t) ∈ expr))
  /\ (forall column t,
        (exists i, (i, t) ∈ column) ->
        (indices_min (indices_where column t), t) ∈ column
        /\ (indices_max (indices_where column t), t) ∈ column
        /\ forall i, (i, t) ∈ column ->
             indices_min (indices_where column t) <= i <= indices_max (indices_where column t))
  /\ (terminal_nodes <> [] ->
      generate_sankey terminal_nodes None (Some expr) sankey = None
      /\ generate_sankey terminal_nodes (Some cnv) None sankey = None).
Proof.
  split; [|split; [|split]].
  - unfold generate_sankey. revert sankey.
    induction terminal_nodes as [|t ts IH]; intros sankey; [by rewrite app_nil_r|].
    cbn [foldl List.filter].
    assert (Hstep : sankey_step (Some cnv) (Some expr) (Some sankey) t
                    = Some (if on_both_sides cnv expr t
                            then sankey ++ [sankey_element cnv expr t] else sankey)).
    { unfold sankey_step, on_both_sides, sankey_element. cbn [mbind option_bind].
      by destruct (_ && _). }
    rewrite Hstep. destruct (on_both_sides cnv expr t); rewrite IH; [|done].
    by rewrite <- app_assoc.
  - intros t. unfold on_both_sides.
    by rewrite andb_true_iff, !indices_where_nonempty.
  - intros column t [i0 Hi0%indices_where_elem].
    unfold indices_min, indices_max.
    destruct (indices_where column t) as [|j l] eqn:Hl; [by apply elem_of_nil in Hi0|].
    destruct (foldl_min_spec l j) as [Hmin Hlo]. destruct (foldl_max_spec l j) as [Hmax Hhi].
    rewrite <- Hl in Hmin, Hmax.
    split; [by apply indices_where_elem|]. split; [by apply indices_where_elem|].
    intros i Hi%indices_where_elem. rewrite Hl in Hi. split; [by apply Hlo|by apply Hhi].
  - intros Hne. destruct terminal_nodes as [|t ts]; [done|].
    unfold generate_sankey. cbn [foldl]. unfold sankey_step at 2 4. cbn [mbind option_bind].
    by rewrite !sankey_step_None_l.
Qed.

(** The terminal nodes [A], [B] and [C] over the example columns: only [A]
    has a row on both sides, in the rows 0 and 2 on the left. *)
Lemma generate_sankey_witness :
  ["A"; "B"; "C"] <> @nil string /\
  generate_sankey ["A"; "B"; "C"] (Some ex_cnv_column) (Some ex_expr_column) []
  = Some ex_sankey /\
  generate_sankey ["A"; "B"; "C"] None (Some ex_expr_column) [] = None.
Proof.
  assert (Hne : ["A"; "B"; "C"] <> @nil string) by discriminate.
  split; [exact Hne|].
  destruct (generate_sankey_result ["A"; "B"; "C"] ex_cnv_column ex_expr_column [])
    as (Heq & _ & _ & Hraise).
  split; [|exact (proj1 (Hraise Hne))].
  rewrite Heq. evaluate.
Defined.

(** ** The categories of [order_expr_cells] *)

Lemma foldl_add_category (l : list (option string)) :
  forall acc,
    exists rest,
      foldl add_category acc l = acc ++ rest
      /\ NoDup rest
      /\ sublist rest l
      /\ (forall c, c ∈ rest -> c ∈ l /\ is_not_None c = true /\ c ∉ acc)
      /\ (forall c, c ∈ l -> is_not_None c = true -> c ∈ acc ++ rest).
Proof.
  induction l as [|a l IH]; intros acc.
  - exists []. rewrite app_nil_r. split; [done|]. split; [constructor|]. split; [done|].
    split; [by intros c ?%elem_of_nil|by intros c ?%elem_of_nil].
  - cbn [foldl]. unfold add_category at 2.
    destruct (is_not_None a) eqn:Ha; cbn [andb].
    + case_bool_decide as Hin; cbn [negb].
      * destruct (IH acc) as (rest & -> & Hnd & Hsub & Hrest & Hcover).
        exists rest. split; [done|]. split; [done|]. split; [by apply sublist_cons|]. split.
        -- intros c Hc. destruct (Hrest c Hc) as (? & ? & ?). split; [by right|done].
        -- intros c Hc Hsome. apply elem_of_cons in Hc as [-> | Hc]; [|by apply Hcover].
           apply elem_of_app. by left.
      * destruct (IH (acc ++ [a])) as (rest & -> & Hnd & Hsub & Hrest & Hcover).
        exists (a :: rest). rewrite <- app_assoc. split; [done|]. split.
        { constructor; [|done]. intros Har. destruct (Hrest a Har) as (_ & _ & Hna).
          apply Hna, elem_of_app. right. by left. }
        split; [by apply sublist_skip|]. split.
        -- intros c Hc. apply elem_of_cons in Hc as [-> | Hc]; [split; [by left|done]|].
           destruct (Hrest c Hc) as (? & ? & Hnc). split; [by right|]. split; [done|].
           intros Hacc. apply Hnc, elem_of_app. by left.
        -- intros c Hc Hsome. apply elem_of_cons in Hc as [-> | Hc].
           ++ apply elem_of_app. right. by left.
           ++ specialize (Hcover c Hc Hsome). by rewrite <- app_assoc in Hcover.
    + destruct (IH acc) as (rest & -> & Hnd & Hsub & Hrest & Hcover).
      exists rest. split; [done|]. split; [done|]. split; [by apply sublist_cons|]. split.
      * intros c Hc. destruct (Hrest c Hc) as (? & ? & ?). split; [by right|done].
      * intros c Hc Hsome. apply elem_of_cons in Hc as [-> | Hc]; [congruence|].
        by apply Hcover.
Qed.

Lemma filter_is_not_None_elem (l : list (option string)) c :
  c ∈ List.filter is_not_None l <-> c ∈ l /\ is_not_None c = true.
Proof. by rewrite list_elem_of_In, filter_In, <- list_elem_of_In. Qed.

(** X24.  The categories that [order_expr_cells] builds for the first
    ordering column (lines 256-259), from the distinct values of the column
    in the two meta tables.  They are the values of the copy-number table
    that are not [None], in their order, followed by the values of the
    expression table that are not [None] and not among the values of the
    copy-number table, each once and in their order.  A value is a category
    exactly when it is not [None] and occurs in one of the two tables; and
    when the values of the copy-number table are pairwise distinct, so are
    the categories. *)
Theorem categories_result cnv_unique expr_unique :
  exists rest,
    categories_of cnv_unique expr_unique = List.filter is_not_None cnv_unique ++ rest
    /\ NoDup rest
    /\ sublist rest expr_unique
    /\ (forall c, c ∈ rest
                  <-> c ∈ expr_unique /\ is_not_None c = true /\ c ∉ cnv_unique)
    /\ (forall c, c ∈ categories_of cnv_unique expr_unique
                  <-> is_not_None c = true /\ (c ∈ cnv_unique \/ c ∈ expr_unique))
    /\ (NoDup cnv_unique -> NoDup (categories_of cnv_unique expr_unique)).
Proof.
  unfold categories_of.
  destruct (foldl_add_category expr_unique (List.filter is_not_None cnv_unique))
    as (rest & Heq & Hnd & Hsub & Hrest & Hcover).
  exists rest. rewrite Heq. split; [done|]. split; [done|]. split; [done|].
  assert (Hiff : forall c, c ∈ rest
                   <-> c ∈ expr_unique /\ is_not_None c = true /\ c ∉ cnv_unique).
  { intros c. split.
    - intros Hc. destruct (Hrest c Hc) as (Hin & Hsome & Hnot).
      split; [done|]. split; [done|]. intros Hcnv. apply Hnot.
      by apply filter_is_not_None_elem.
    - intros (Hin & Hsome & Hnot). specialize (Hcover c Hin Hsome).
      apply elem_of_app in Hcover as [Hc%filter_is_not_None_elem | Hc]; [|done].
      by destruct Hc. }
  split; [exact Hiff|]. split.
  - intros c. rewrite elem_of_app, filter_is_not_None_elem, Hiff. split.
    + intros [[? ?] | (? & ? & ?)]; split; auto.
    + intros [Hsome [Hc | Hc]]; [by left|].
      destruct (decide (c ∈ cnv_unique)); [by left|by right].
  - intros Hcnv. apply NoDup_app. split; [by apply (sublist_NoDup _ cnv_unique), filter_sublist|].
    split; [|done].
    intros c Hc%filter_is_not_None_elem Hr%Hiff. by destruct Hc, Hr as (_ & _ & ?).
Qed.
